(** * Avatar model assembly and animation engine

    A shallow embedding of [assets/avatar.js] (class [HytaleAvatarViewer]):
    keyframe sampling, scene-graph assembly, texture tinting and UV layout;
    and of the batching and cache check of [head-prerender/worker.js].

    Conventions of the embedding.
    - JavaScript numbers are idealised as exact rationals in canonical form
      ([Qc]); NaN and the infinities are not represented, so an operation
      that yields NaN in the source ([x % 0]) is outside the model and the
      statements that depend on it carry [duration <> 0].  The sum in the
      loop time of [_applyAnimation] is rounded to binary64 ([fl]), since
      what holds of the loop time depends on that rounding.
    - Optional JSON fields are [option]s; a field read with [|| d] or [?? d]
      is read with [default d].
    - The scene graph is a tree of [Object3D]; a reference to a node of the
      live graph is the path to it from the character root.
    - [THREE.Quaternion.slerpQuaternions] and [THREE.Vector3.applyQuaternion]
      belong to the rendering library, not to this repository; they are
      taken as parameters, with the network, in the class [Host]. *)

From Stdlib Require Import QArith Qcanon Qround Lia Lqa.
From stdpp Require Import base decidable option list numbers strings gmap fin_maps.

Local Open Scope Qc_scope.
#[local] Set Warnings "-clear-no-such-hyp".

(** ** Numbers *)

Definition QcOf (a : Z) (b : positive) : Qc := Q2Qc (a # b).

(** [const SCALE = 0.01], [const FPS = 60] *)
Definition SCALE : Qc := QcOf 1 100.
Definition FPS : Qc := Qc_of_Z 60.

(** [Math.min], [Math.max] on numbers *)
Definition Qcmin (x y : Qc) : Qc := if decide (x ≤ y) then x else y.
Definition Qcmax (x y : Qc) : Qc := if decide (x ≤ y) then y else x.

(** [Math.trunc]: the integer part, rounding toward zero *)
Definition Qctrunc (x : Qc) : Z :=
  if decide (0 ≤ x) then Qfloor x else Qceiling x.

(** The [%] operator on numbers with a non-zero divisor: the remainder has
    the sign of the dividend, [a % b = a - b * trunc (a / b)]. *)
Definition js_rem (a b : Qc) : Qc := a - b * Qc_of_Z (Qctrunc (a / b)).

(** [Math.round]: nearest integer, halves toward +infinity *)
Definition Qcround (x : Qc) : Z := Qfloor (x + QcOf 1 2)%Qc.

(** *** Rounding

    The numbers of the source are binary64.  [fl x] is the binary64
    number nearest to [x], a tie going to the even significand
    (subnormal numbers included; the infinities are not represented).  It
    is applied where the statements depend on the rounding: to the sum in
    the loop time of [_applyAnimation].  The remainder [%] of two binary64
    numbers is exact. *)

(** [2^e] *)
Definition pow2 (e : Z) : Qc :=
  if decide (0 ≤ e)%Z then Qc_of_Z (2 ^ e) else / Qc_of_Z (2 ^ (- e)).

(** For [0 < x]: the exponent [e] with [2^e ≤ x < 2^(e+1)] *)
Definition log2floor (x : Qc) : Z :=
  let e := (Z.log2 (Qnum x) - Z.log2 (Z.pos (Qden x)))%Z in
  if decide (pow2 e ≤ x) then e else (e - 1)%Z.

(** The nearest integer, a tie going to the even one *)
Definition roundEven (x : Qc) : Z :=
  let n := Qfloor x in
  let r := x - Qc_of_Z n in
  if decide (r < QcOf 1 2) then n
  else if decide (QcOf 1 2 < r) then (n + 1)%Z
  else if Z.even n then n else (n + 1)%Z.

(** Rounding of a non-negative number: to a multiple of the unit in the
    last place, [2^(e - 52)] for [2^e ≤ x < 2^(e+1)], and [2^-1074] below
    [2^-1022] *)
Definition flPos (x : Qc) : Qc :=
  let e := Z.max (log2floor x) (-1022) in
  let ulp := pow2 (e - 52) in
  Qc_of_Z (roundEven (x / ulp)) * ulp.

Definition fl (x : Qc) : Qc :=
  if decide (0 ≤ x) then flPos x else - flPos (- x).

(** ** Animation documents *)

Record Delta := mkDelta { dx : Qc; dy : Qc; dz : Qc; dw : Qc }.

Record Keyframe := mkKeyframe {
  time : Qc;
  delta : Delta;
  interpolationType : string
}.

(** The object returned by [_findKeyframes]: [{ k1, k2, t, smooth }] *)
Record Bracket := mkBracket {
  k1 : Keyframe;
  k2 : Keyframe;
  t : Qc;
  smooth : bool
}.

Global Instance Delta_eq_dec : EqDecision Delta.
Proof. solve_decision. Defined.
Global Instance Keyframe_eq_dec : EqDecision Keyframe.
Proof. solve_decision. Defined.
Global Instance Bracket_eq_dec : EqDecision Bracket.
Proof. solve_decision. Defined.

(** [[...keyframes].sort((a, b) => a.time - b.time)]: ascending by [time];
    [Array.prototype.sort] is stable, which the insertion below respects
    (an element is placed before the later elements of equal time). *)
Fixpoint insertByTime (k : Keyframe) (l : list Keyframe) : list Keyframe :=
  match l with
  | [] => [k]
  | k' :: l' =>
      if decide (time k ≤ time k') then k :: k' :: l'
      else k' :: insertByTime k l'
  end.

Definition sortByTime (l : list Keyframe) : list Keyframe :=
  foldr insertByTime [] l.

(** The scan [for (i = 0; i < sorted.length; i++)
      if (sorted[i].time <= time) idx1 = i; else break;]
    started at index [i] with the current value of [idx1]. *)
Fixpoint scanIdx (sorted : list Keyframe) (time0 : Qc) (i idx1 : Z) : Z :=
  match sorted with
  | [] => idx1
  | k :: rest =>
      if decide (time k ≤ time0) then scanIdx rest time0 (i + 1)%Z i
      else idx1
  end.

(** [sorted[i]] for an integer index; [None] is [undefined] *)
Definition nthZ {A} (l : list A) (i : Z) : option A :=
  if decide (0 ≤ i)%Z then l !! Z.to_nat i else None.

(** [Math.max(0, Math.min(1, t))] *)
Definition clamp01 (x : Qc) : Qc := Qcmax 0 (Qcmin 1 x).

Definition isSmooth (k : Keyframe) : bool :=
  bool_decide (interpolationType k = "smooth").

(** The part of [_findKeyframes] that follows [const sorted = ...]: the
    scan for [idx1] and the three brackets.  The [option] binds are array
    reads, which are in range whenever they are reached (lemma
    [bracketOf_is_Some]). *)
Definition bracketOf (sorted : list Keyframe) (time0 duration : Qc)
  : option Bracket :=
  let len := Z.of_nat (length sorted) in
  let idx1 := scanIdx sorted time0 0 (-1) in
  if decide (idx1 = -1)%Z then
    ka ← nthZ sorted (len - 1);
    kb ← nthZ sorted 0;
    let t1 := time ka in
    let t2 := time kb + duration in
    let currentTime := time0 + duration in
    let f := if decide (0 < t2 - t1) then (currentTime - t1) / (t2 - t1) else 0 in
    Some (mkBracket ka kb (clamp01 f) (isSmooth ka))
  else if decide (idx1 = len - 1)%Z then
    ka ← nthZ sorted idx1;
    kb ← nthZ sorted 0;
    let timeSpan := (duration - time ka) + time kb in
    let elapsed := time0 - time ka in
    let f := if decide (0 < timeSpan) then elapsed / timeSpan else 0 in
    Some (mkBracket ka kb (clamp01 f) (isSmooth ka))
  else
    ka ← nthZ sorted idx1;
    kb ← nthZ sorted (idx1 + 1);
    let timeSpan := time kb - time ka in
    let f := if decide (0 < timeSpan) then (time0 - time ka) / timeSpan else 0 in
    Some (mkBracket ka kb (clamp01 f) (isSmooth ka)).

(** [_findKeyframes(keyframes, time, duration)] as a function of the
    contents of the [keyframes] array; [None] is [null].  The version that
    keeps the arrays in a store is [Imp._findKeyframes]. *)
Definition _findKeyframes (keyframes : list Keyframe) (time0 duration : Qc)
  : option Bracket :=
  match keyframes with
  | [] => None
  | [k] => Some (mkBracket k k 0 false)
  | _ => bracketOf (sortByTime keyframes) time0 duration
  end.

(** [const loopTime = ((time % duration) + duration) % duration]: the two
    remainders are exact, the sum is rounded *)
Definition loopTime (time0 duration : Qc) : Qc :=
  js_rem (fl (js_rem time0 duration + duration)) duration.

(** ** Vectors and quaternions (THREE.Vector3, THREE.Quaternion) *)

Record Vec3 := mkVec3 { vx : Qc; vy : Qc; vz : Qc }.
Record Quat := mkQuat { qx : Qc; qy : Qc; qz : Qc; qw : Qc }.

Global Instance Vec3_eq_dec : EqDecision Vec3.
Proof. solve_decision. Defined.
Global Instance Quat_eq_dec : EqDecision Quat.
Proof. solve_decision. Defined.

(** [new THREE.Vector3()] and [new THREE.Quaternion()] *)
Definition vec3_zero : Vec3 := mkVec3 0 0 0.
Definition quat_identity : Quat := mkQuat 0 0 0 1.

(** [a.add(b)], [v.multiplyScalar(s)], [r.lerpVectors(v1, v2, alpha)] *)
Definition vec3_add (a b : Vec3) : Vec3 :=
  mkVec3 (vx a + vx b) (vy a + vy b) (vz a + vz b).
Definition multiplyScalar (v : Vec3) (s : Qc) : Vec3 :=
  mkVec3 (vx v * s) (vy v * s) (vz v * s).
Definition lerpVectors (v1 v2 : Vec3) (alpha : Qc) : Vec3 :=
  mkVec3 (vx v1 + (vx v2 - vx v1) * alpha)
         (vy v1 + (vy v2 - vy v1) * alpha)
         (vz v1 + (vz v2 - vz v1) * alpha).

(** [a.multiply(b)]: the Hamilton product [a * b] *)
Definition quat_multiply (a b : Quat) : Quat :=
  mkQuat (qx a * qw b + qw a * qx b + qy a * qz b - qz a * qy b)
         (qy a * qw b + qw a * qy b + qz a * qx b - qx a * qz b)
         (qz a * qw b + qw a * qz b + qx a * qy b - qy a * qx b)
         (qw a * qw b - qx a * qx b - qy a * qy b - qz a * qz b).

(** ** Images and textures *)

(** An image as [getImageData] exposes it: [data] holds one byte per
    channel, four per pixel (R, G, B, A), row by row. *)
Record Image := mkImage {
  width : Z;
  height : Z;
  data : list Z
}.

(** A [THREE.Texture]: a loaded texture has an [image]; a canvas texture
    has the canvas as [image] and its size again in [userData]. *)
Record Texture := mkTexture {
  image : option Image;
  userData : option (Z * Z)
}.

Global Instance Image_eq_dec : EqDecision Image.
Proof. solve_decision. Defined.
Global Instance Texture_eq_dec : EqDecision Texture.
Proof. solve_decision. Defined.

(** The outcome of a [fetch] followed by [response.json()]: a document,
    a response that is not [ok], or a rejected promise. *)
Inductive Fetched (A : Type) :=
  | FetchOk (doc : A)
  | FetchNotOk
  | FetchRejected.
Arguments FetchOk {A} doc.
Arguments FetchNotOk {A}.
Arguments FetchRejected {A}.

(** ** Model documents (.blockymodel)

    Vector components read with [|| 0] and quaternion components read with
    [?? 0] / [?? 1] are total here: a missing component is its default.
    A string field tested for truthiness is [""] when absent. *)

Record FaceLayout := mkFaceLayout {
  layout_offset : option (Qc * Qc);
  layout_angle : Qc;              (* [layout.angle || 0] *)
  mirror_x : bool;                (* [layout.mirror?.x] is truthy *)
  mirror_y : bool
}.

Record Settings := mkSettings {
  settings_size : option Vec3;
  settings_normal : option string
}.

Record Shape := mkShape {
  shape_type : string;
  shape_visible : option bool;
  shape_offset : option Vec3;
  shape_stretch : option Vec3;
  shape_settings : option Settings;
  textureLayout : option (gmap string FaceLayout);
  doubleSided : bool              (* [shape.doubleSided === true] *)
}.

#[local] Unset Elimination Schemes.

Inductive ModelNode := mkModelNode {
  node_name : string;
  node_id : string;
  node_position : option Vec3;
  node_orientation : option Quat;
  node_shape : option Shape;
  node_children : list ModelNode
}.

(** [{ nodes: ModelNode[] }]; [nodes] may be missing *)
Record ModelDoc := mkModelDoc { nodes : option (list ModelNode) }.

(** A colour as it appears in an avatar descriptor or as an argument of
    [_parseColor]: a number, a string, an array, or anything else
    ([undefined], [null], an object). *)
Inductive JsColor :=
  | CNum (n : Z)
  | CStr (s : string)
  | CArr (l : list JsColor)
  | CNone.

#[local] Set Elimination Schemes.

Record CosmeticPart := mkCosmeticPart {
  part_model : string;
  part_texture : string;
  greyscaleTexture : string;
  gradientTexture : string;
  baseColor : JsColor;
  gradientSet : string
}.

(** The avatar descriptor served at [/avatar/<uuid>/model] *)
Record ModelData := mkModelData {
  md_error : string;
  skinTone : string;
  bodyType : string;
  parts : option (gmap string CosmeticPart)
}.

(** [data.parts?.[key]] *)
Definition getPart (data : ModelData) (key : string) : option CosmeticPart :=
  p ← parts data; p !! key.

(** ** Animation documents (.blockyanim), continued *)

Record NodeAnim := mkNodeAnim {
  na_position : option (list Keyframe);
  na_orientation : option (list Keyframe)
}.

(** [nodeAnimations] is traversed with [Object.entries], in key order *)
Record Animation := mkAnimation {
  duration : Qc;
  holdLastKeyframe : bool;
  nodeAnimations : option (list (string * NodeAnim))
}.

(** ** The host: rendering library, built-ins and network

    What the viewer calls but this repository does not define. *)
Class Host := {
  (** [result.slerpQuaternions(q1, q2, t)] *)
  slerpQuaternions : Quat → Quat → Qc → Quat;
  (** [v.applyQuaternion(q)] *)
  applyQuaternion : Vec3 → Quat → Vec3;
  (** [object.rotation.y += angle]: the quaternion of the object
      afterwards, from the one before (the library keeps the quaternion of
      an object in step with its Euler angles) *)
  addRotationY : Qc → Quat → Quat;
  (** the [uv] attribute of a fresh [BoxGeometry] (6 faces, 4 vertices
      each) and of a fresh [PlaneGeometry] *)
  boxGeometryUV : list Qc;
  planeGeometryUV : list Qc;
  (** [parseInt(s, 16)]; [None] is NaN *)
  parseInt16 : string → option Z;
  (** [fetch('/avatar/' + uuid + '/model?_=...')] then [json()] *)
  fetchAvatar : string → Fetched ModelData;
  (** [fetch('/asset/' + path)] then [json()], for models and animations *)
  fetchModelDoc : string → Fetched ModelDoc;
  fetchAnimation : string → Fetched Animation;
  (** [textureLoader.load(url, onLoad, undefined, onError)]:
      the image, or [None] when [onError] is called *)
  loadImage : string → option Image
}.

(** ** The scene graph (THREE.Object3D) *)

Inductive Geometry :=
  | BoxGeometry (w h d : Qc)
  | PlaneGeometry (w h : Qc) (normal : string).

Record Material := mkMaterial {
  mat_map : option Texture;
  mat_color : option Z;
  wireframe : bool;
  alphaTest : Qc;
  transparent : bool;
  doubleSide : bool;
  depthWrite : bool;
  polygonOffset : bool
}.

Record Mesh := mkMesh {
  geometry : Geometry;
  uv : list Qc;
  material : Material;
  renderOrder : Z;
  flipX : bool;
  flipY : bool;
  flipZ : bool
}.

#[local] Unset Elimination Schemes.

(** A [THREE.Group] ([mesh = None]) or a [THREE.Mesh]; a mesh has the empty
    name and no children. *)
Inductive Object3D := mkObject3D {
  name : string;
  position : Vec3;
  quaternion : Quat;
  mesh : option Mesh;
  children : list Object3D
}.

#[local] Set Elimination Schemes.

(** [new THREE.Group()] and [new THREE.Mesh(geometry, material)] *)
Definition newGroup : Object3D := mkObject3D "" vec3_zero quat_identity None [].
Definition meshObject (m : Mesh) : Object3D :=
  mkObject3D "" vec3_zero quat_identity (Some m) [].

(** A reference into the live graph: child indices from the root *)
Abbreviation Path := (list nat).

(** [o.getObjectByName(name)] and the callback of [_findBoneByName] under
    [o.traverse]: the first object in pre-order whose name is [n]. *)
Fixpoint getObjectByName (o : Object3D) (n : string) : option Path :=
  if decide (name o = n) then Some []
  else
    (fix inChildren (cs : list Object3D) (i : nat) : option Path :=
       match cs with
       | [] => None
       | c :: cs' =>
           match getObjectByName c n with
           | Some p => Some (i :: p)
           | None => inChildren cs' (S i)
           end
       end) (children o) 0%nat.

(** The object a path refers to *)
Fixpoint objectAt (o : Object3D) (p : Path) : option Object3D :=
  match p with
  | [] => Some o
  | i :: p' => c ← children o !! i; objectAt c p'
  end.

(** In-place update of the object a path refers to *)
Fixpoint updateAt (f : Object3D → Object3D) (p : Path) (o : Object3D) : Object3D :=
  match p with
  | [] => f o
  | i :: p' =>
      mkObject3D (name o) (position o) (quaternion o) (mesh o)
                 (alter (updateAt f p') i (children o))
  end.

(** [parent.add(child)]: [child] becomes the last child of [parent] *)
Definition addChild (child : Object3D) (parent : Object3D) : Object3D :=
  mkObject3D (name parent) (position parent) (quaternion parent) (mesh parent)
             (children parent ++ [child]).

Definition setPosition (v : Vec3) (o : Object3D) : Object3D :=
  mkObject3D (name o) v (quaternion o) (mesh o) (children o).
Definition setQuaternion (q : Quat) (o : Object3D) : Object3D :=
  mkObject3D (name o) (position o) q (mesh o) (children o).
Definition setName (n : string) (o : Object3D) : Object3D :=
  mkObject3D n (position o) (quaternion o) (mesh o) (children o).

(** [targetParent.add(group)] for a parent held by reference; the result is
    the graph and the reference to the attached group. *)
Definition attach (group : Object3D) (parent : Path) (root : Object3D)
  : Object3D * Path :=
  let idx := from_option (λ o, length (children o)) 0%nat (objectAt root parent) in
  (updateAt (addChild group) parent root, parent ++ [idx]).

(** ** The viewer ([this])

    The fields of [HytaleAvatarViewer] that the assembly and the sampler
    read or write.  The render surface (scene, camera, renderer) and the
    callbacks are left out.  [character] is [None] before [init()], which
    creates the character root together with the renderer: a viewer
    without a character is a viewer without a renderer. *)

(** An entry of [originalTransforms]: [{ position, quaternion }] *)
Record Transform := mkTransform { t_position : Vec3; t_quaternion : Quat }.

Record Viewer := mkViewer {
  character : option Object3D;
  modelData : option ModelData;
  wireframeMode : bool;
  autoRotate : bool;
  currentAnimation : option Animation;
  animationTime : Qc;
  lastFrameTime : Qc;
  animationEnabled : bool;
  currentAnimationPath : string;
  textureCache : gmap string Texture;
  hiddenBodyParts : gset string;
  polygonOffsetParts : gset string;
  originalTransforms : gmap string Transform
}.

(** Assignments [this.f = x] *)
Definition set_character (x : option Object3D) (v : Viewer) : Viewer :=
  mkViewer x (modelData v) (wireframeMode v) (autoRotate v) (currentAnimation v)
    (animationTime v) (lastFrameTime v) (animationEnabled v) (currentAnimationPath v)
    (textureCache v) (hiddenBodyParts v) (polygonOffsetParts v) (originalTransforms v).
Definition set_modelData (x : option ModelData) (v : Viewer) : Viewer :=
  mkViewer (character v) x (wireframeMode v) (autoRotate v) (currentAnimation v)
    (animationTime v) (lastFrameTime v) (animationEnabled v) (currentAnimationPath v)
    (textureCache v) (hiddenBodyParts v) (polygonOffsetParts v) (originalTransforms v).
Definition set_currentAnimation (x : option Animation) (v : Viewer) : Viewer :=
  mkViewer (character v) (modelData v) (wireframeMode v) (autoRotate v) x
    (animationTime v) (lastFrameTime v) (animationEnabled v) (currentAnimationPath v)
    (textureCache v) (hiddenBodyParts v) (polygonOffsetParts v) (originalTransforms v).
Definition set_animationTime (x : Qc) (v : Viewer) : Viewer :=
  mkViewer (character v) (modelData v) (wireframeMode v) (autoRotate v)
    (currentAnimation v) x (lastFrameTime v) (animationEnabled v)
    (currentAnimationPath v) (textureCache v) (hiddenBodyParts v) (polygonOffsetParts v)
    (originalTransforms v).
Definition set_lastFrameTime (x : Qc) (v : Viewer) : Viewer :=
  mkViewer (character v) (modelData v) (wireframeMode v) (autoRotate v)
    (currentAnimation v) (animationTime v) x (animationEnabled v)
    (currentAnimationPath v) (textureCache v) (hiddenBodyParts v) (polygonOffsetParts v)
    (originalTransforms v).
Definition set_currentAnimationPath (x : string) (v : Viewer) : Viewer :=
  mkViewer (character v) (modelData v) (wireframeMode v) (autoRotate v)
    (currentAnimation v) (animationTime v) (lastFrameTime v) (animationEnabled v) x
    (textureCache v) (hiddenBodyParts v) (polygonOffsetParts v) (originalTransforms v).
Definition set_textureCache (x : gmap string Texture) (v : Viewer) : Viewer :=
  mkViewer (character v) (modelData v) (wireframeMode v) (autoRotate v)
    (currentAnimation v) (animationTime v) (lastFrameTime v) (animationEnabled v)
    (currentAnimationPath v) x (hiddenBodyParts v) (polygonOffsetParts v)
    (originalTransforms v).
Definition set_hiddenBodyParts (x : gset string) (v : Viewer) : Viewer :=
  mkViewer (character v) (modelData v) (wireframeMode v) (autoRotate v)
    (currentAnimation v) (animationTime v) (lastFrameTime v) (animationEnabled v)
    (currentAnimationPath v) (textureCache v) x (polygonOffsetParts v)
    (originalTransforms v).
Definition set_polygonOffsetParts (x : gset string) (v : Viewer) : Viewer :=
  mkViewer (character v) (modelData v) (wireframeMode v) (autoRotate v)
    (currentAnimation v) (animationTime v) (lastFrameTime v) (animationEnabled v)
    (currentAnimationPath v) (textureCache v) (hiddenBodyParts v) x
    (originalTransforms v).
Definition set_originalTransforms (x : gmap string Transform) (v : Viewer) : Viewer :=
  mkViewer (character v) (modelData v) (wireframeMode v) (autoRotate v)
    (currentAnimation v) (animationTime v) (lastFrameTime v) (animationEnabled v)
    (currentAnimationPath v) (textureCache v) (hiddenBodyParts v) (polygonOffsetParts v)
    x.

(** The state after the constructor and [init()] *)
Definition newViewer : Viewer :=
  mkViewer (Some newGroup) None false true None 0 0 true "Default/Idle" ∅ ∅ ∅ ∅.

(** The outcome of a call that may throw: the scene graph (or viewer) as
    the call leaves it, and whether it returned or threw. *)
Inductive Outcome (A : Type) :=
  | Done (s : A)
  | Thrown (s : A).
Arguments Done {A} s.
Arguments Thrown {A} s.

Definition stateOf {A} (o : Outcome A) : A :=
  match o with Done s => s | Thrown s => s end.

(** ** The animation sampler *)

Section Sampler.
Context `{Host}.

(** [if (smooth) t = t * t * (3 - 2 * t)] *)
Definition ease (kf : Bracket) : Qc :=
  if smooth kf then t kf * t kf * (Qc_of_Z 3 - 2 * t kf) else t kf.

Definition deltaQuat (k : Keyframe) : Quat :=
  mkQuat (dx (delta k)) (dy (delta k)) (dz (delta k)) (dw (delta k)).
Definition deltaVec (k : Keyframe) : Vec3 :=
  mkVec3 (dx (delta k)) (dy (delta k)) (dz (delta k)).

(** [_interpolateQuaternion(keyframes, time, duration)] *)
Definition _interpolateQuaternion (keyframes : list Keyframe) (time0 dur : Qc)
  : option Quat :=
  kf ← _findKeyframes keyframes time0 dur;
  Some (slerpQuaternions (deltaQuat (k1 kf)) (deltaQuat (k2 kf)) (ease kf)).

(** [_interpolatePosition(keyframes, time, duration)] *)
Definition _interpolatePosition (keyframes : list Keyframe) (time0 dur : Qc)
  : option Vec3 :=
  kf ← _findKeyframes keyframes time0 dur;
  Some (multiplyScalar (lerpVectors (deltaVec (k1 kf)) (deltaVec (k2 kf)) (ease kf)) SCALE).

(** [track && track.length > 0] *)
Definition hasKeyframes (track : option (list Keyframe)) : option (list Keyframe) :=
  match track with
  | Some (k :: l) => Some (k :: l)
  | _ => None
  end.

(** The orientation part of one loop iteration of [_applyAnimation], on the
    node [p] refers to *)
Definition animateOrientation (nodeAnim : NodeAnim) (loopT dur : Qc)
    (original : Transform) (p : Path) (ch : Object3D) : Object3D :=
  match hasKeyframes (na_orientation nodeAnim) with
  | Some kfs =>
      match _interpolateQuaternion kfs loopT dur with
      | Some animQuat =>
          updateAt (setQuaternion (quat_multiply (t_quaternion original) animQuat)) p ch
      | None => ch
      end
  | None => ch
  end.

(** The position part of one loop iteration *)
Definition animatePosition (nodeAnim : NodeAnim) (loopT dur : Qc)
    (original : Transform) (p : Path) (ch : Object3D) : Object3D :=
  match hasKeyframes (na_position nodeAnim) with
  | Some kfs =>
      match _interpolatePosition kfs loopT dur with
      | Some animPos =>
          updateAt (setPosition (vec3_add (t_position original) animPos)) p ch
      | None => ch
      end
  | None => ch
  end.

(** One iteration of [for (const [nodeName, nodeAnim] of Object.entries(...))]
    on the character and the rest-pose cache *)
Definition animateNode (loopT dur : Qc)
    (st : Object3D * gmap string Transform) (entry : string * NodeAnim)
  : Object3D * gmap string Transform :=
  let '(ch, originals) := st in
  let '(nodeName, nodeAnim) := entry in
  match getObjectByName ch nodeName with
  | None => st
  | Some p =>
      match objectAt ch p with
      | None => st
      | Some node =>
          let originals' :=
            match originals !! nodeName with
            | Some _ => originals
            | None => <[nodeName := mkTransform (position node) (quaternion node)]> originals
            end in
          match originals' !! nodeName with
          | None => st
          | Some original =>
              let ch1 := animateOrientation nodeAnim loopT dur original p ch in
              let ch2 := animatePosition nodeAnim loopT dur original p ch1 in
              (ch2, originals')
          end
      end
  end.

(** [_applyAnimation(animation, time)] *)
Definition _applyAnimation (animation : option Animation) (time0 : Qc) (v : Viewer)
  : Viewer :=
  match animation, character v with
  | Some a, Some ch =>
      match nodeAnimations a with
      | None => v
      | Some entries =>
          let loopT := loopTime time0 (duration a) in
          let '(ch', originals') :=
            foldl (animateNode loopT (duration a)) (ch, originalTransforms v) entries in
          set_originalTransforms originals' (set_character (Some ch') v)
      end
  | _, _ => v
  end.

(** The time a frame samples at: the accumulated time, held at [duration]
    when [holdLastKeyframe] is set ([_animate]) *)
Definition frameTime (a : Animation) (accumulated : Qc) : Qc :=
  if holdLastKeyframe a then Qcmin accumulated (duration a) else accumulated.

(** [_animate()], one frame at [performance.now() = now]; scheduling the
    next frame and drawing are the render surface's.  On a viewer without
    a character the frame throws after the animation state is updated: at
    [this.character.rotation] when [autoRotate] is set, at
    [this.renderer.render] otherwise. *)
Definition _animate (now : Qc) (v : Viewer) : Outcome Viewer :=
  let deltaTime := (now - lastFrameTime v) / Qc_of_Z 1000 in
  let v := set_lastFrameTime now v in
  let v :=
    match animationEnabled v, currentAnimation v with
    | true, Some a =>
        let clampedDelta := Qcmin deltaTime (QcOf 1 10) in
        let v := set_animationTime
                   (frameTime a (animationTime v + clampedDelta * FPS)) v in
        _applyAnimation (Some a) (animationTime v) v
    | _, _ => v
    end in
  match character v with
  | None => Thrown v
  | Some ch =>
      if autoRotate v then
        Done (set_character
                (Some (setQuaternion (addRotationY (QcOf 5 1000) (quaternion ch)) ch)) v)
      else Done v
  end.


(** [_resetToOriginalPose()] *)
Definition _resetToOriginalPose (v : Viewer) : Viewer :=
  match character v with
  | None => v
  | Some ch =>
      set_character
        (Some (map_fold (λ nodeName transform ch,
                 match getObjectByName ch nodeName with
                 | Some p =>
                     updateAt (λ node, setQuaternion (t_quaternion transform)
                                         (setPosition (t_position transform) node)) p ch
                 | None => ch
                 end) ch (originalTransforms v))) v
  end.

(** [_loadAnimation(animPath)] *)
Definition _loadAnimation (animPath : string) : option Animation :=
  if decide (animPath = "") then None
  else
    match fetchAnimation
            ("/asset/Common/Characters/Animations/" +:+ animPath +:+ ".blockyanim") with
    | FetchOk a => Some a
    | _ => None
    end.

(** [setAnimation(animPath)] *)
Definition setAnimation (animPath : string) (v : Viewer) : Viewer :=
  let v := set_animationTime 0 (set_currentAnimationPath animPath v) in
  if decide (animPath = "") then
    _resetToOriginalPose (set_currentAnimation None v)
  else set_currentAnimation (_loadAnimation animPath) v.

End Sampler.

(** ** Body-part occlusion *)

Definition slotEquipped (data : ModelData) (key : string) : bool :=
  bool_decide (is_Some (getPart data key)).

(** [_determineHiddenParts(data)]: only ever adds to the two sets *)
Definition _determineHiddenParts (data : ModelData) (v : Viewer) : Viewer :=
  let hidden := hiddenBodyParts v in
  let offs := polygonOffsetParts v in
  let hidden :=
    if slotEquipped data "pants" || slotEquipped data "overpants"
    then hidden ∪ {["Pelvis"]} ∪ {["L-Thigh"]} ∪ {["R-Thigh"]}
                ∪ {["L-Calf"]} ∪ {["R-Calf"]}
    else hidden in
  let '(hidden, offs) :=
    if slotEquipped data "overtop" || slotEquipped data "undertop"
    then (hidden ∪ {["Belly"]} ∪ {["Chest"]},
          offs ∪ {["L-Arm"]} ∪ {["R-Arm"]} ∪ {["L-Forearm"]} ∪ {["R-Forearm"]})
    else (hidden, offs) in
  let hidden :=
    if slotEquipped data "shoes"
    then hidden ∪ {["L-Foot"]} ∪ {["R-Foot"]}
    else hidden in
  let hidden :=
    if slotEquipped data "haircut"
    then hidden ∪ {["HeadTop"]} ∪ {["HairBase"]}
    else hidden in
  set_polygonOffsetParts offs (set_hiddenBodyParts hidden v).

(** ** Textures *)

(** [s.replace(pat, '')]: the first occurrence of [pat] is removed *)
Fixpoint removeFirst (pat s : string) : string :=
  if String.prefix pat s then String.substring (String.length pat) (String.length s) s
  else match s with
       | EmptyString => EmptyString
       | String c s' => String c (removeFirst pat s')
       end.

(** [[...new Set(l)]]: first occurrences, in order *)
Fixpoint dedupe (seen l : list string) : list string :=
  match l with
  | [] => []
  | x :: l' => if decide (x ∈ seen) then dedupe seen l' else x :: dedupe (x :: seen) l'
  end.

(** [uniquePaths] of [_loadTexture] *)
Definition uniquePaths (path : string) : list string :=
  dedupe []
    [ if String.prefix "Common/" path then "/asset/" +:+ path
      else "/asset/Common/" +:+ path;
      "/asset/" +:+ path;
      "/asset/" +:+ removeFirst "Common/" path;
      "/asset/Common/" +:+ removeFirst "Common/" path ].

(** [_createCanvasTexture(canvas)] *)
Definition _createCanvasTexture (canvas : Image) : Texture :=
  mkTexture (Some canvas) (Some (width canvas, height canvas)).

(** A colour parsed by [_parseColor]; a channel is [None] when [parseInt]
    gives NaN *)
Record RGB := mkRGB { r : option Z; g : option Z; b : option Z }.

(** A value stored into a [Uint8ClampedArray] *)
Definition toUint8Clamp (z : Z) : Z := Z.max 0 (Z.min 255 z).

(** [Math.round(Math.min(255, c * t * 2))] with [t = grey / 255], as stored
    in the pixel array (NaN is stored as 0) *)
Definition tintChannel (c : option Z) (grey : Z) : Z :=
  match c with
  | Some c =>
      let t := Qc_of_Z grey / Qc_of_Z 255 in
      toUint8Clamp (Qcround (Qcmin (Qc_of_Z 255) (Qc_of_Z c * t * 2)))
  | None => 0%Z
  end.

(** [gradientData.data[i]], stored into the pixel array ([undefined] is
    stored as 0) *)
Definition gradientByte (gradientData : Image) (i : Z) : Z :=
  toUint8Clamp (default 0%Z (nthZ (data gradientData) i)).

(** The body of the pixel loop of [_createTintedTexture] for one pixel;
    the result is its new R, G, B *)
Definition tintPixel (gradientData : option Image) (color : option RGB)
    (origR origG origB alpha : Z) : Z * Z * Z :=
  if decide (0 < alpha)%Z then
    if decide (origR = origG ∧ origG = origB) then
      let grey := origR in
      match gradientData, color with
      | Some gd, _ =>
          let gradX := Z.min grey (width gd - 1) in
          let gradIdx := (gradX * 4)%Z in
          (gradientByte gd gradIdx, gradientByte gd (gradIdx + 1), gradientByte gd (gradIdx + 2))
      | None, Some c =>
          (tintChannel (r c) grey, tintChannel (g c) grey, tintChannel (b c) grey)
      | None, None => (grey, grey, grey)
      end
    else (origR, origG, origB)
  else (origR, origG, origB).

(** [for (let i = 0; i < data.length; i += 4) ...] *)
Fixpoint tintData (gradientData : option Image) (color : option RGB)
    (pixels : list Z) : list Z :=
  match pixels with
  | origR :: origG :: origB :: alpha :: rest =>
      let '(r', g', b') := tintPixel gradientData color origR origG origB alpha in
      r' :: g' :: b' :: alpha :: tintData gradientData color rest
  | _ => pixels
  end.

(** The pixel loop of [_createEyeShadowTexture] from pixel number [i] on,
    for an image [w] pixels wide *)
Fixpoint shadowData (w : Z) (i : Z) (pixels : list Z) : list Z :=
  match pixels with
  | r0 :: g0 :: b0 :: a :: rest =>
      let x := (i mod w)%Z in
      let y := (i / w)%Z in
      let px :=
        if decide (y < 16 ∧ 0 < a)%Z then
          let inLeft := bool_decide (1 ≤ x ∧ x < 15 ∧ 1 ≤ y ∧ y < 15)%Z in
          let inRight := bool_decide (17 ≤ x ∧ x < 31 ∧ 1 ≤ y ∧ y < 15)%Z in
          if inLeft || inRight then
            let localY := (y - 1)%Z in
            let shadowAlpha :=
              if decide (localY < 4)%Z
              then (1 - Qc_of_Z localY / Qc_of_Z 4) * QcOf 1 4 else 0 in
            [0; 0; 0;
             toUint8Clamp (Qcround (shadowAlpha * Qc_of_Z 255 * (Qc_of_Z a / Qc_of_Z 255)))]%Z
          else [r0; g0; b0; 0%Z]
        else [r0; g0; b0; a] in
      px ++ shadowData w (i + 1) rest
  | _ => pixels
  end.

(** [_createEyeShadowTexture(originalTexture)] *)
Definition _createEyeShadowTexture (originalTexture : option Texture) : option Texture :=
  tex ← originalTexture;
  img ← image tex;
  Some (_createCanvasTexture
          (mkImage (width img) (height img) (shadowData (width img) 0 (data img)))).

Section Textures.
Context `{Host}.

(** [_parseColor(color)] *)
Fixpoint _parseColor (color : JsColor) : RGB :=
  match color with
  | CNum n =>
      mkRGB (Some (Z.land (Z.shiftr n 16) 255))
            (Some (Z.land (Z.shiftr n 8) 255))
            (Some (Z.land n 255))
  | CStr s =>
      if String.prefix "#" s then
        let hex := String.substring 1 (String.length s) s in
        mkRGB (parseInt16 (String.substring 0 2 hex))
              (parseInt16 (String.substring 2 2 hex))
              (parseInt16 (String.substring 4 2 hex))
      else mkRGB (Some 200%Z) (Some 200%Z) (Some 200%Z)
  | CArr (c :: _) => _parseColor c
  | _ => mkRGB (Some 200%Z) (Some 200%Z) (Some 200%Z)
  end.

(** The loop [for (const tryPath of uniquePaths)] of [_loadTexture] *)
Fixpoint tryPaths (path : string) (candidates : list string) (v : Viewer)
  : option Texture * Viewer :=
  match candidates with
  | [] => (None, v)
  | tryPath :: rest =>
      match loadImage tryPath with
      | Some img =>
          let texture := mkTexture (Some img) None in
          (Some texture, set_textureCache (<[path := texture]> (textureCache v)) v)
      | None => tryPaths path rest v
      end
  end.

(** [_loadTexture(path)] *)
Definition _loadTexture (path : string) (v : Viewer) : option Texture * Viewer :=
  match textureCache v !! path with
  | Some texture => (Some texture, v)
  | None => tryPaths path (uniquePaths path) v
  end.

(** [_loadGradientData(gradientTexturePath)] *)
Definition _loadGradientData (gradientTexturePath : string) (v : Viewer)
  : option Image * Viewer :=
  if decide (gradientTexturePath = "") then (None, v)
  else
    let '(gradientTexture, v) := _loadTexture gradientTexturePath v in
    (tex ← gradientTexture; image tex, v).

(** [_createTintedTexture(greyscalePath, baseColor, gradientTexturePath)] *)
Definition _createTintedTexture (greyscalePath : string) (baseColor0 : JsColor)
    (gradientTexturePath : string) (v : Viewer) : option Texture * Viewer :=
  let '(texture, v) := _loadTexture greyscalePath v in
  match texture ≫= image with
  | None => (None, v)
  | Some img =>
      let '(gradientData, v) := _loadGradientData gradientTexturePath v in
      let color := _parseColor baseColor0 in
      let pixels := tintData gradientData (Some color) (data img) in
      (Some (_createCanvasTexture (mkImage (width img) (height img) pixels)), v)
  end.

End Textures.

(** ** UV layout

    The computation below appears twice in the source, once per cube face
    in [_createBoxMesh] and once in [_createQuadMesh], with the same text. *)

Definition mirrorSign (m : bool) : Qc := if m then - 1 else 1.

(** [result]: the pixel rectangle [[x1, y1, x2, y2]] selected by
    [switch (angle)] *)
Definition uvResult (uv_size : Qc * Qc) (layout : FaceLayout) (uv_offset : Qc * Qc)
  : Qc * Qc * Qc * Qc :=
  let angle := layout_angle layout in
  let '(s0, s1) := uv_size in
  let '(m0, m1) := (mirrorSign (mirror_x layout), mirrorSign (mirror_y layout)) in
  let '(o0, o1) := uv_offset in
  if decide (angle = Qc_of_Z 90) then
    let '(s0, s1) := (s1, s0) in
    let '(m0, m1) := (m1, m0) in
    let m0 := m0 * - 1 in
    (o0, o1 + s1 * m1, o0 + s0 * m0, o1)
  else if decide (angle = Qc_of_Z 180) then
    let m0 := m0 * - 1 in
    let m1 := m1 * - 1 in
    (o0 + s0 * m0, o1 + s1 * m1, o0, o1)
  else if decide (angle = Qc_of_Z 270) then
    let '(s0, s1) := (s1, s0) in
    let '(m0, m1) := (m1, m0) in
    let m1 := m1 * - 1 in
    (o0 + s0 * m0, o1, o0, o1 + s1 * m1)
  else
    (o0, o1, o0 + s0 * m0, o1 + s1 * m1).

(** The eight numbers written for one quad, in vertex order (the source
    names the four vertex slots bottom-left, bottom-right, top-left,
    top-right) *)
Definition resolveUV (uv_size : Qc * Qc) (layout : FaceLayout) (uv_offset : Qc * Qc)
    (texW texH : Z) : list Qc :=
  let angle := layout_angle layout in
  let '(x1, y1, x2, y2) := uvResult uv_size layout uv_offset in
  let u1 := x1 / Qc_of_Z texW in
  let v1 := 1 - y1 / Qc_of_Z texH in
  let u2 := x2 / Qc_of_Z texW in
  let v2 := 1 - y2 / Qc_of_Z texH in
  if decide (angle = Qc_of_Z 90) then [u1; v2; u1; v1; u2; v2; u2; v1]
  else if decide (angle = Qc_of_Z 180) then [u2; v2; u1; v2; u2; v1; u1; v1]
  else if decide (angle = Qc_of_Z 270) then [u2; v1; u2; v2; u1; v1; u1; v2]
  else [u1; v1; u2; v1; u1; v2; u2; v2].

(** [texture.image?.width || texture.userData?.width], and the same for
    the height; [None] when falsy *)
Definition truthyZ (z : option Z) : option Z :=
  match z with Some 0%Z => None | _ => z end.
Definition texWidth (texture : Texture) : option Z :=
  match truthyZ (width <$> image texture) with
  | Some w => Some w
  | None => truthyZ (fst <$> userData texture)
  end.
Definition texHeight (texture : Texture) : option Z :=
  match truthyZ (height <$> image texture) with
  | Some h => Some h
  | None => truthyZ (snd <$> userData texture)
  end.

(** ** Meshes *)

(** [x || 1] on a number *)
Definition orOne (x : Qc) : Qc := if decide (x = 0) then 1 else x.

(** [Math.abs] *)
Definition Math_abs (x : Qc) : Qc := if decide (0 ≤ x) then x else - x.

(** [s.includes(pat)] *)
Definition includes (s pat : string) : bool :=
  bool_decide (is_Some (String.index 0 pat s)).

Definition faceMap : list string :=
  ["right"; "left"; "top"; "bottom"; "front"; "back"].

Definition isBodyPart (nodeName : string) : bool :=
  bool_decide (nodeName ∈ ["Neck"; "Head"; "Chest"; "Belly"; "Pelvis"])
  || includes nodeName "Arm" || includes nodeName "Leg"
  || includes nodeName "Hand" || includes nodeName "Foot"
  || includes nodeName "Thigh" || includes nodeName "Calf".

Section Meshes.
Context `{Host}.

(** One iteration of [for (let faceIdx = 0; faceIdx < 6; faceIdx++)] *)
Definition boxFaceUV (layouts : gmap string FaceLayout) (pixel : Vec3)
    (texW texH : Z) (uvArray : list Qc) (faceIdx : nat) : list Qc :=
  match faceMap !! faceIdx with
  | None => uvArray
  | Some faceName =>
      match layouts !! faceName with
      | None => uvArray
      | Some layout =>
          match layout_offset layout with
          | None => uvArray
          | Some uv_offset =>
              let uv_size :=
                if bool_decide (faceName = "left" ∨ faceName = "right")
                then (vz pixel, vy pixel)
                else if bool_decide (faceName = "top" ∨ faceName = "bottom")
                then (vx pixel, vz pixel)
                else (vx pixel, vy pixel) in
              let baseIdx := (faceIdx * 4 * 2)%nat in
              list_inserts baseIdx (resolveUV uv_size layout uv_offset texW texH) uvArray
          end
      end
  end.

(** The [uv] attribute of the box after [if (hasTextureLayout) {...}] *)
Definition boxUV (shape : Shape) (pixel : Vec3) (texture : option Texture) : list Qc :=
  match texture, textureLayout shape with
  | Some tex, Some layouts =>
      if decide (0 < size layouts)%nat then
        match texWidth tex, texHeight tex with
        | Some texW, Some texH =>
            foldl (boxFaceUV layouts pixel texW texH) boxGeometryUV (seq 0 6)
        | _, _ => boxGeometryUV
        end
      else boxGeometryUV
  | _, _ => boxGeometryUV
  end.

(** [_createBoxMesh(shape, color, nodeName, texture, usePolygonOffset)];
    [None] is [null] *)
Definition _createBoxMesh (wire : bool) (shape : Shape) (color : Z) (nodeName : string)
    (texture : option Texture) (usePolygonOffset : bool) : option Mesh :=
  settings ← shape_settings shape;
  pixel ← settings_size settings;
  let stretch := default (mkVec3 1 1 1) (shape_stretch shape) in
  let sx := Math_abs (orOne (vx stretch)) in
  let sy := Math_abs (orOne (vy stretch)) in
  let sz := Math_abs (orOne (vz stretch)) in
  let fX := bool_decide (orOne (vx stretch) < 0) in
  let fY := bool_decide (orOne (vy stretch) < 0) in
  let fZ := bool_decide (orOne (vz stretch) < 0) in
  let geom := BoxGeometry (vx pixel * sx * SCALE) (vy pixel * sy * SCALE)
                          (vz pixel * sz * SCALE) in
  let needsDoubleSide := doubleSided shape || fX || fY || fZ in
  let mat :=
    match texture with
    | Some tex =>
        mkMaterial (Some tex) None wire
          (if isBodyPart nodeName then 0 else QcOf 1 10)
          (negb (isBodyPart nodeName)) needsDoubleSide true usePolygonOffset
    | None =>
        mkMaterial None (Some color) wire 0 false needsDoubleSide true usePolygonOffset
    end in
  Some (mkMesh geom (boxUV shape pixel texture) mat 0 fX fY fZ).

(** The [uv] attribute of the quad after [if (hasTextureLayout) {...}] *)
Definition quadUV (shape : Shape) (pixel : Vec3) (texture : option Texture) : list Qc :=
  match texture, textureLayout shape ≫= (.!! "front") with
  | Some tex, Some layout =>
      match texWidth tex, texHeight tex, layout_offset layout with
      | Some texW, Some texH, Some uv_offset =>
          resolveUV (vx pixel, vy pixel) layout uv_offset texW texH
      | _, _, _ => planeGeometryUV
      end
  | _, _ => planeGeometryUV
  end.

(** [_createQuadMesh(shape, color, nodeName, texture, renderOrder)] *)
Definition _createQuadMesh (wire : bool) (shape : Shape) (color : Z) (nodeName : string)
    (texture : option Texture) (renderOrder0 : Z) : option Mesh :=
  settings ← shape_settings shape;
  pixel ← settings_size settings;
  let stretch := default (mkVec3 1 1 1) (shape_stretch shape) in
  let sx := Math_abs (orOne (vx stretch)) in
  let sy := Math_abs (orOne (vy stretch)) in
  let sz := Math_abs (orOne (vz stretch)) in
  let fX := bool_decide (orOne (vx stretch) < 0) in
  let fY := bool_decide (orOne (vy stretch) < 0) in
  let normal :=
    match settings_normal settings with
    | Some n => if decide (n = "") then "+Z" else n
    | None => "+Z"
    end in
  let '(w, h) :=
    if bool_decide (normal = "+Z" ∨ normal = "-Z")
    then (vx pixel * sx * SCALE, vy pixel * sy * SCALE)
    else if bool_decide (normal = "+X" ∨ normal = "-X")
    then (vx pixel * sz * SCALE, vy pixel * sy * SCALE)
    else (vx pixel * sx * SCALE, vy pixel * sz * SCALE) in
  let mat :=
    match texture with
    | Some tex => mkMaterial (Some tex) None wire (QcOf 1 2) false true true false
    | None => mkMaterial None (Some color) wire 0 false true true false
    end in
  Some (mkMesh (PlaneGeometry w h normal) (quadUV shape pixel texture) mat
               renderOrder0 fX fY false).

(** [_applyTransform(group, node)] *)
Definition _applyTransform (group : Object3D) (node : ModelNode) : Object3D :=
  let group :=
    match node_orientation node with
    | Some q => setQuaternion q group
    | None => group
    end in
  let pos := multiplyScalar (default vec3_zero (node_position node)) SCALE in
  let pos :=
    match node_shape node ≫= shape_offset with
    | Some off =>
        vec3_add pos (applyQuaternion (multiplyScalar off SCALE) (quaternion group))
    | None => pos
    end in
  setPosition pos group.

End Meshes.

(** ** Model assembly *)

(** [node.name || node.id || ''] *)
Definition nodeNameOf (node : ModelNode) : string :=
  if decide (node_name node = "") then node_id node else node_name node.

(** [_findBoneByName(parent, name)] *)
Definition _findBoneByName (parent : Object3D) (n : string) : option Path :=
  if decide (n = "") then None else getObjectByName parent n.

Definition setRenderOrder (n : Z) (m : Mesh) : Mesh :=
  mkMesh (geometry m) (uv m) (material m) n (flipX m) (flipY m) (flipZ m).

(** The material changes made to the eye-shadow quad: [transparent = true],
    [depthWrite = false], [alphaTest = 0] (and normal blending) *)
Definition shadowMaterial (m : Mesh) : Mesh :=
  let mat := material m in
  mkMesh (geometry m) (uv m)
         (mkMaterial (mat_map mat) (mat_color mat) (wireframe mat) 0 true
                     (doubleSide mat) false (polygonOffset mat))
         (renderOrder m) (flipX m) (flipY m) (flipZ m).

Section Assembly.
Context `{Host}.

(** The mesh a player node contributes to its group *)
Definition playerMesh (v : Viewer) (node : ModelNode) (nodeName : string)
    (skinColor : Z) (bodyTexture : option Texture) : option Mesh :=
  match node_shape node with
  | None => None
  | Some shape =>
      if bool_decide (shape_visible shape ≠ Some false)
         && bool_decide (shape_type shape = "box")
      then _createBoxMesh (wireframeMode v) shape skinColor nodeName bodyTexture
             (bool_decide (nodeName ∈ polygonOffsetParts v))
      else if bool_decide (shape_type shape = "quad")
      then _createQuadMesh (wireframeMode v) shape skinColor nodeName bodyTexture 0
      else None
  end.

(** [_renderPlayerNode(node, parent, skinColor, bodyTexture, depth)] on the
    live graph [ch]; [v] supplies the hidden and offset sets *)
Fixpoint _renderPlayerNode (v : Viewer) (node : ModelNode) (parent : Path)
    (skinColor : Z) (bodyTexture : option Texture) (ch : Object3D) : Object3D :=
  let nodeName := nodeNameOf node in
  let group := _applyTransform (setName nodeName newGroup) node in
  let group :=
    if decide (nodeName ∈ hiddenBodyParts v) then group
    else match playerMesh v node nodeName skinColor bodyTexture with
         | Some m => addChild (meshObject m) group
         | None => group
         end in
  let '(ch, groupRef) := attach group parent ch in
  (fix each (cs : list ModelNode) (ch : Object3D) : Object3D :=
     match cs with
     | [] => ch
     | child :: cs' =>
         each cs' (_renderPlayerNode v child groupRef skinColor bodyTexture ch)
     end) (node_children node) ch.

(** [_renderPlayerModel(nodes, parent, skinColor, bodyTexture)] *)
Definition _renderPlayerModel (v : Viewer) (nodes0 : option (list ModelNode))
    (parent : Path) (skinColor : Z) (bodyTexture : option Texture)
    (ch : Object3D) : Object3D :=
  foldl (λ ch node, _renderPlayerNode v node parent skinColor bodyTexture ch)
        ch (default [] nodes0).

(** The mesh a cosmetic node contributes to its group; [Thrown] when the
    eye-shadow branch assigns [mesh.renderOrder] on a [null] mesh *)
Definition cosmeticMesh (wire : bool) (node : ModelNode) (nodeName : string)
    (color : Z) (partType : string) (texture shadowTexture : option Texture)
  : Outcome (option Mesh) :=
  match node_shape node with
  | None => Done None
  | Some shape =>
      if bool_decide (shape_visible shape ≠ Some false)
         && bool_decide (shape_type shape ≠ "none")
      then
        if decide (shape_type shape = "box") then
          Done (_createBoxMesh wire shape color nodeName texture false)
        else if decide (shape_type shape = "quad") then
          let ordered (m : option Mesh) : option Mesh :=
            match m with
            | Some m' =>
                if decide (partType = "mouth") then Some (setRenderOrder 99 m')
                else if decide (partType = "face") then Some (setRenderOrder 98 m')
                else Some m'
            | None => None
            end in
          if bool_decide (partType = "eyes") && includes nodeName "Background"
             && bool_decide (is_Some shadowTexture)
          then
            match _createQuadMesh wire shape color nodeName shadowTexture 0 with
            | Some m => Done (ordered (Some (shadowMaterial (setRenderOrder 100 m))))
            | None => Thrown None
            end
          else
            let m := _createQuadMesh wire shape color nodeName texture 0 in
            let m :=
              if bool_decide (partType = "eyes") && includes nodeName "Eye"
                 && negb (includes nodeName "Attachment")
                 && negb (includes nodeName "Background")
              then setRenderOrder 101 <$> m else m in
            Done (ordered m)
        else Done None
      else Done None
  end.

(** The group of a cosmetic node before its mesh is added: named
    [nodeName + '_cosmetic'], oriented only when it attaches to a bone,
    fully transformed otherwise, then shifted by [zOffset] along z *)
Definition cosmeticGroup (node : ModelNode) (attachedToPlayerBone : bool)
    (zOffset : Qc) : Object3D :=
  let group := setName (nodeNameOf node +:+ "_cosmetic") newGroup in
  let group :=
    if attachedToPlayerBone then
      match node_orientation node with
      | Some q => setQuaternion q group
      | None => group
      end
    else _applyTransform group node in
  if decide (zOffset = 0) then group
  else setPosition (mkVec3 (vx (position group)) (vy (position group))
                           (vz (position group) + zOffset)) group.

(** [_renderCosmeticNode(node, parent, color, partType, texture, zOffset,
    depth, shadowTexture)] on the live graph [ch] *)
Fixpoint _renderCosmeticNode (wire : bool) (node : ModelNode) (parent : Path)
    (color : Z) (partType : string) (texture : option Texture) (zOffset : Qc)
    (shadowTexture : option Texture) (ch : Object3D) : Outcome Object3D :=
  let nodeName := nodeNameOf node in
  let matchingBone := _findBoneByName ch nodeName in
  let targetParent := default parent matchingBone in
  let attachedToPlayerBone := bool_decide (is_Some matchingBone) in
  let group := cosmeticGroup node attachedToPlayerBone zOffset in
  match cosmeticMesh wire node nodeName color partType texture shadowTexture with
  | Thrown _ => Thrown ch
  | Done m =>
      let group := from_option (λ m, addChild (meshObject m) group) group m in
      let '(ch, groupRef) := attach group targetParent ch in
      (fix each (cs : list ModelNode) (ch : Object3D) : Outcome Object3D :=
         match cs with
         | [] => Done ch
         | child :: cs' =>
             let r :=
               match _findBoneByName ch (nodeNameOf child) with
               | Some childBone =>
                   _renderCosmeticNode wire child childBone color partType texture
                     zOffset shadowTexture ch
               | None =>
                   _renderCosmeticNode wire child groupRef color partType texture
                     0 shadowTexture ch
               end in
             match r with
             | Done ch' => each cs' ch'
             | Thrown ch' => Thrown ch'
             end
         end) (node_children node) ch
  end.

(** [_renderCosmeticModel(nodes, parent, color, partType, texture, zOffset,
    shadowTexture)] *)
Fixpoint _renderCosmeticModel (wire : bool) (nodes0 : list ModelNode) (parent : Path)
    (color : Z) (partType : string) (texture : option Texture) (zOffset : Qc)
    (shadowTexture : option Texture) (ch : Object3D) : Outcome Object3D :=
  match nodes0 with
  | [] => Done ch
  | node :: rest =>
      match _renderCosmeticNode wire node parent color partType texture zOffset
              shadowTexture ch with
      | Done ch' =>
          _renderCosmeticModel wire rest parent color partType texture zOffset
            shadowTexture ch'
      | Thrown ch' => Thrown ch'
      end
  end.

End Assembly.

(** ** Skin tones and default colours *)

Definition tones : list (string * Z) :=
  [("01", 0xf4c39a); ("02", 0xf5c490); ("03", 0xe0ae72); ("04", 0xba7f5b);
   ("05", 0x945d44); ("06", 0x6f3b2c); ("07", 0x4f2a24); ("08", 0xdcc7a8);
   ("09", 0xf5bc83); ("10", 0xd98c5b); ("11", 0xab7a4c); ("12", 0x7d432b);
   ("13", 0x513425); ("14", 0x31221f); ("15", 0xd5a082); ("16", 0x63492f);
   ("17", 0x5e3a2f); ("18", 0x4d272b); ("19", 0x8aacfb); ("20", 0xa78af1);
   ("21", 0xfc8572); ("22", 0x9bc55d); ("25", 0x4354e6); ("26", 0x6c2abd);
   ("27", 0x765e48); ("28", 0xf3f3f3); ("29", 0x998d71); ("30", 0x50843a);
   ("31", 0xb22a2a); ("32", 0x3276c3); ("33", 0x092029); ("35", 0x5eae37);
   ("36", 0xff72c2); ("37", 0xf4c944); ("38", 0x6c3f40); ("39", 0xff9c5b);
   ("41", 0xff95cd); ("42", 0xa0dfff); ("45", 0xd5f0a0); ("46", 0xddbfe8);
   ("47", 0xf0b9f2); ("48", 0xdcc5b0); ("49", 0xec6ff7); ("50", 0x2b2b2f);
   ("51", 0xf06f47); ("52", 0x131111)]%Z.

(** [table[key]] for an object literal *)
Definition lookupTable {A} (table : list (string * A)) (key : string) : option A :=
  (λ e, snd (snd e)) <$> list_find (λ e, fst e = key) table.

(** [_getSkinToneColor(tone)] *)
Definition _getSkinToneColor (tone : string) : Z :=
  default 0xf4c39a%Z (lookupTable tones tone).

(** [_getSkinToneGradientPath(tone)] *)
Definition _getSkinToneGradientPath (tone : string) : string :=
  if decide (tone ∈ (fst <$> tones))
  then "TintGradients/Skin_Tones/" +:+ tone +:+ ".png"
  else "TintGradients/Skin_Tones/01.png".

(** [_getDefaultColor(type, skinColor)] *)
Definition _getDefaultColor (type : string) (skinColor : Z) : Z :=
  let defaults :=
    [("haircut", 0x4a3728); ("facialHair", 0x4a3728); ("eyebrows", 0x4a3728);
     ("pants", 0x2c3e50); ("overpants", 0x34495e);
     ("undertop", 0x5dade2); ("overtop", 0x2980b9);
     ("shoes", 0x1a1a1a); ("gloves", 0x8b4513);
     ("face", skinColor); ("mouth", 0xc0392b); ("ears", skinColor);
     ("eyes", 0x3498db); ("underwear", 0xecf0f1); ("cape", 0x8e44ad);
     ("headAccessory", 0xf1c40f); ("faceAccessory", 0xbdc3c7);
     ("earAccessory", 0xf1c40f)]%Z in
  match lookupTable defaults type with
  | Some c => if decide (c = 0)%Z then 0x888888%Z else c
  | None => 0x888888%Z
  end.

(** [n.toString(16).padStart(6, '0')] for a non-negative integer *)
Definition hexDigit (d : Z) : string :=
  String.substring (Z.to_nat d) 1 "0123456789abcdef".
Fixpoint toHexFuel (fuel : nat) (n : Z) : string :=
  match fuel with
  | O => ""
  | S fuel' =>
      if decide (n < 16)%Z then hexDigit n
      else toHexFuel fuel' (n / 16) +:+ hexDigit (n mod 16)
  end.
Definition padStart6 (s : string) : string :=
  String.substring 0 (6 - String.length s) "000000" +:+ s.
Definition toHex6 (n : Z) : string :=
  padStart6 (toHexFuel (S (Z.to_nat (Z.log2 n))) n).

(** The truthiness of a colour value *)
Definition colorTruthy (c : JsColor) : bool :=
  match c with
  | CNum n => negb (bool_decide (n = 0%Z))
  | CStr s => negb (bool_decide (s = ""))
  | CArr _ => true
  | CNone => false
  end.

(** The cosmetics render order of [_buildCharacter] *)
Definition cosmeticOrder : list (string * Qc) :=
  [("underwear", 0); ("pants", QcOf 1 1000); ("overpants", QcOf 2 1000);
   ("shoes", QcOf 1 1000); ("undertop", QcOf 1 1000); ("overtop", QcOf 2 1000);
   ("gloves", QcOf 1 1000); ("face", QcOf 10 1000); ("mouth", QcOf 15 1000);
   ("eyes", QcOf 20 1000); ("eyebrows", QcOf 25 1000); ("ears", 0);
   ("haircut", QcOf 5 1000); ("facialHair", QcOf 4 1000);
   ("headAccessory", QcOf 6 1000); ("faceAccessory", QcOf 5 1000);
   ("earAccessory", QcOf 1 1000); ("cape", QcOf (-1) 1000)].

Section Loading.
Context `{Host}.

(** [_getPartColor(part)]; [None] is [null] or NaN *)
Definition _getPartColor (part : CosmeticPart) : option Z :=
  if colorTruthy (baseColor part) then
    let bc := match baseColor part with
              | CArr l => default CNone (head l)
              | c => c
              end in
    match bc with
    | CStr s =>
        if String.prefix "#" s
        then parseInt16 (String.substring 1 (String.length s) s)
        else None
    | _ => None
    end
  else None.

(** [_fetchModel(path)] *)
Definition _fetchModel (path : string) : Fetched ModelDoc :=
  fetchModelDoc ("/asset/" +:+ path).

(** The body of [if (part && part.model) {...}] for one slot *)
Definition buildCosmetic (data : ModelData) (key : string) (zOffset : Qc)
    (part : CosmeticPart) (skinColor : Z) (skinColorHex skinToneGradient : string)
    (v : Viewer) : Viewer :=
  let color :=
    match _getPartColor part with
    | Some c =>
        if decide (c = 0)%Z then
          (if bool_decide (key ∈ ["face"; "ears"]) then skinColor
           else _getDefaultColor key skinColor)
        else c
    | None =>
        if bool_decide (key ∈ ["face"; "ears"]) then skinColor
        else _getDefaultColor key skinColor
    end in
  let isSkinPart :=
    bool_decide (gradientSet part = "Skin")
    || bool_decide (key ∈ ["face"; "ears"; "mouth"]) in
  let '(color, texture, v) :=
    if negb (bool_decide (part_texture part = "")) then
      let '(texture, v) := _loadTexture (part_texture part) v in
      (color, texture, v)
    else if negb (bool_decide (greyscaleTexture part = "")) then
      let '(gradientPath, baseCol, color) :=
        if isSkinPart then (skinToneGradient, CStr skinColorHex, skinColor)
        else (gradientTexture part, baseColor part, color) in
      let baseCol :=
        if bool_decide (gradientPath = "") && negb (colorTruthy baseCol)
        then CStr ("#" +:+ toHex6 (_getDefaultColor key skinColor))
        else baseCol in
      let '(texture, v) :=
        _createTintedTexture (greyscaleTexture part) baseCol gradientPath v in
      (color, texture, v)
    else (color, None, v) in
  let modelPath :=
    if String.prefix "Common/" (part_model part) then part_model part
    else "Common/" +:+ part_model part in
  match _fetchModel modelPath, character v with
  | FetchOk model, Some ch =>
      let shadowTexture :=
        if decide (key = "eyes") then _createEyeShadowTexture texture else None in
      match nodes model with
      | None => v
      | Some ns =>
          set_character
            (Some (stateOf (_renderCosmeticModel (wireframeMode v) ns [] color key
                              texture zOffset shadowTexture ch))) v
      end
  | _, _ => v
  end.

(** [_buildCharacter(data)] *)
Definition _buildCharacter (data : ModelData) (v : Viewer) : Viewer :=
  let skinColor := _getSkinToneColor (skinTone data) in
  let skinColorHex := "#" +:+ toHex6 skinColor in
  let skinToneGradient := _getSkinToneGradientPath (skinTone data) in
  let v :=
    match _fetchModel "Common/Characters/Player.blockymodel" with
    | FetchOk playerModel =>
        let bodyTexturePath :=
          if decide (bodyType data = "Muscular")
          then "Characters/Player_Textures/Player_Muscular_Greyscale.png"
          else "Characters/Player_Textures/Player_Greyscale.png" in
        let '(bodyTexture, v) :=
          _createTintedTexture bodyTexturePath (CStr skinColorHex) skinToneGradient v in
        match character v with
        | Some ch =>
            set_character
              (Some (_renderPlayerModel v (nodes playerModel) [] skinColor bodyTexture ch)) v
        | None => v
        end
    | _ => v
    end in
  foldl (λ v '(key, zOffset),
           match getPart data key with
           | Some part =>
               if decide (part_model part = "") then v
               else buildCosmetic data key zOffset part skinColor skinColorHex
                      skinToneGradient v
           | None => v
           end) v cosmeticOrder.

(** [loadAvatar(uuid)], with the two readings of [performance.now()]:
    [Thrown] when the descriptor cannot be fetched or carries an error, and
    when the first frame throws *)
Definition loadAvatar (uuid : string) (now now' : Qc) (v : Viewer) : Outcome Viewer :=
  match fetchAvatar uuid with
  | FetchOk data =>
      let v := set_modelData (Some data) v in
      if decide (md_error data = "") then
        let v := _determineHiddenParts data v in
        let v := _buildCharacter data v in
        let v := set_currentAnimation (_loadAnimation (currentAnimationPath v)) v in
        let v := set_lastFrameTime now v in
        _animate now' v
      else Thrown v
  | _ => Thrown v
  end.

(** The argument of [loadFromSkinData]: [skinTone] and [bodyType], each
    [""] when absent *)
Record SkinData := mkSkinData { sd_skinTone : string; sd_bodyType : string }.

(** [loadFromSkinData(skinData)]; on a viewer without a character it
    throws at [this.character.children], before anything is cleared *)
Definition loadFromSkinData (skinData : SkinData) (v : Viewer) : Outcome Viewer :=
  match character v with
  | None => Thrown v
  | Some ch =>
      let v :=
        set_character
          (Some (mkObject3D (name ch) (position ch) (quaternion ch) (mesh ch) [])) v in
      let v := set_originalTransforms ∅ v in
      let v := set_hiddenBodyParts ∅ v in
      let v := set_polygonOffsetParts ∅ v in
      let data :=
        mkModelData ""
          (if decide (sd_skinTone skinData = "") then "01" else sd_skinTone skinData)
          (if decide (sd_bodyType skinData = "") then "Regular" else sd_bodyType skinData)
          (Some ∅) in
      let v := set_modelData (Some data) v in
      let v := _determineHiddenParts data v in
      Done (_buildCharacter data v)
  end.

End Loading.

(** ** The sampler over mutable arrays

    In the source a track is an array held by reference, and
    [Array.prototype.sort] sorts in place.  Here the keyframe arrays live
    in a store; an animation document refers to them by location, the
    spread [[...a]] allocates a copy and [sort] rewrites the array it is
    called on. *)

Module Imp.

Abbreviation Loc := positive.
Abbreviation Store := (gmap positive (list Keyframe)).

Record NodeAnimRef := mkNodeAnimRef {
  position_ref : option Loc;
  orientation_ref : option Loc
}.

Record AnimationRef := mkAnimationRef {
  duration_of : Qc;
  hold_of : bool;
  nodeAnimations_ref : option (list (string * NodeAnimRef))
}.

(** [[...a]]: a new array with the elements of [a] *)
Definition spread (a : list Keyframe) (σ : Store) : Loc * Store :=
  let l := fresh (dom σ) in (l, <[l := a]> σ).

(** [a.sort((x, y) => x.time - y.time)]: sorts the array at [l] in place *)
Definition sortInPlace (l : Loc) (σ : Store) : Store :=
  alter sortByTime l σ.

(** [_findKeyframes(keyframes, time, duration)] *)
Definition _findKeyframes (keyframes : option Loc) (time0 dur : Qc) (σ : Store)
  : option Bracket * Store :=
  match keyframes ≫= (σ !!.) with
  | None => (None, σ)
  | Some [] => (None, σ)
  | Some [k] => (Some (mkBracket k k 0 false), σ)
  | Some a =>
      let '(sorted, σ) := spread a σ in
      let σ := sortInPlace sorted σ in
      (bracketOf (default [] (σ !! sorted)) time0 dur, σ)
  end.

Section Sampler.
Context `{Host}.

(** [_interpolateQuaternion(keyframes, time, duration)] *)
Definition _interpolateQuaternion (keyframes : option Loc) (time0 dur : Qc)
    (σ : Store) : option Quat * Store :=
  let '(kf, σ) := _findKeyframes keyframes time0 dur σ in
  ((λ kf, slerpQuaternions (deltaQuat (k1 kf)) (deltaQuat (k2 kf)) (ease kf)) <$> kf, σ).

(** [_interpolatePosition(keyframes, time, duration)] *)
Definition _interpolatePosition (keyframes : option Loc) (time0 dur : Qc)
    (σ : Store) : option Vec3 * Store :=
  let '(kf, σ) := _findKeyframes keyframes time0 dur σ in
  ((λ kf, multiplyScalar (lerpVectors (deltaVec (k1 kf)) (deltaVec (k2 kf)) (ease kf)) SCALE)
     <$> kf, σ).

(** [track && track.length > 0] *)
Definition hasKeyframes (track : option Loc) (σ : Store) : bool :=
  match track ≫= (σ !!.) with
  | Some (_ :: _) => true
  | _ => false
  end.

(** One iteration of the loop of [_applyAnimation] *)
Definition animateNode (loopT dur : Qc)
    (st : Object3D * gmap string Transform * Store) (entry : string * NodeAnimRef)
  : Object3D * gmap string Transform * Store :=
  let '(ch, originals, σ) := st in
  let '(nodeName, nodeAnim) := entry in
  match getObjectByName ch nodeName with
  | None => st
  | Some p =>
      match objectAt ch p with
      | None => st
      | Some node =>
          let originals' :=
            match originals !! nodeName with
            | Some _ => originals
            | None => <[nodeName := mkTransform (position node) (quaternion node)]> originals
            end in
          match originals' !! nodeName with
          | None => st
          | Some original =>
              let '(ch, σ) :=
                if hasKeyframes (orientation_ref nodeAnim) σ then
                  let '(animQuat, σ) :=
                    _interpolateQuaternion (orientation_ref nodeAnim) loopT dur σ in
                  (from_option
                     (λ q, updateAt (setQuaternion (quat_multiply (t_quaternion original) q)) p ch)
                     ch animQuat, σ)
                else (ch, σ) in
              let '(ch, σ) :=
                if hasKeyframes (position_ref nodeAnim) σ then
                  let '(animPos, σ) :=
                    _interpolatePosition (position_ref nodeAnim) loopT dur σ in
                  (from_option
                     (λ d, updateAt (setPosition (vec3_add (t_position original) d)) p ch)
                     ch animPos, σ)
                else (ch, σ) in
              (ch, originals', σ)
          end
      end
  end.

(** [_applyAnimation(animation, time)] *)
Definition _applyAnimation (animation : option AnimationRef) (time0 : Qc)
    (vσ : Viewer * Store) : Viewer * Store :=
  let '(v, σ) := vσ in
  match animation, character v with
  | Some a, Some ch =>
      match nodeAnimations_ref a with
      | None => (v, σ)
      | Some entries =>
          let loopT := loopTime time0 (duration_of a) in
          let '(ch', originals', σ') :=
            foldl (animateNode loopT (duration_of a)) (ch, originalTransforms v, σ) entries in
          (set_originalTransforms originals' (set_character (Some ch') v), σ')
      end
  | _, _ => (v, σ)
  end.

End Sampler.

(** The document a store holds: every reference replaced by the array it
    refers to *)
Definition derefNode (σ : Store) (n : NodeAnimRef) : NodeAnim :=
  mkNodeAnim (position_ref n ≫= (σ !!.)) (orientation_ref n ≫= (σ !!.)).

Definition deref (σ : Store) (a : AnimationRef) : Animation :=
  mkAnimation (duration_of a) (hold_of a)
    (map (λ e : string * NodeAnimRef, (fst e, derefNode σ (snd e)))
       <$> nodeAnimations_ref a).

End Imp.

(** ** The head pre-render worker ([head-prerender/worker.js])

    The worker reads the active players from Redis, keeps the ones whose
    head image is not in the cache directory and renders them in batches.
    The cache directory is the map from the paths of its files to their
    modification times; the replies of Redis are parameters.  During a
    call of [getUncachedUuids] the worker is taken to be the only writer
    of the directory. *)

Module Worker.

(** [const HEAD_CACHE_TTL = 3600000] *)
Definition HEAD_CACHE_TTL : Qc := Qc_of_Z 3600000.

(** The cache directory as [fs] shows it: the modification time
    ([mtimeMs]) of each file that exists *)
Abbreviation Files := (gmap string Qc).

(** The reply of a Redis command: a value, or a rejected promise *)
Inductive Reply (A : Type) :=
  | Replied (a : A)
  | Rejected.
Arguments Replied {A} a.
Arguments Rejected {A}.

Section Worker.
(** [path.join(HEAD_CACHE_DIR, name)] and [BG_COLOR] *)
Variable cacheFile : string → string.
Variable BG_COLOR : string.
(** [parseInt(process.env.BATCH_SIZE)], [None] when it is NaN *)
Variable parsedBatchSize : option Z.
(** [redis.scan(cursor, 'MATCH', 'server:*', 'COUNT', 500)] and
    [redis.smembers(key)] *)
Variable scan : string → Reply (string * list string).
Variable smembers : string → Reply (list string).

(** [const BATCH_SIZE = parseInt(process.env.BATCH_SIZE) || 5] *)
Definition BATCH_SIZE : Z :=
  match parsedBatchSize with
  | Some n => if decide (n = 0)%Z then 5%Z else n
  | None => 5%Z
  end.

(** [isCached(uuid)] at [Date.now() = now] *)
Definition isCached (uuid : string) (now : Qc) (fs : Files) : bool * Files :=
  let cacheKey := uuid +:+ "_" +:+ BG_COLOR in
  let filePath := cacheFile (cacheKey +:+ ".png") in
  match fs !! filePath with
  | None => (false, fs)
  | Some mtimeMs =>
      let age := now - mtimeMs in
      if decide (HEAD_CACHE_TTL < age) then (false, delete filePath fs)
      else (true, fs)
  end.

(** The path of the cache file of a player, as [isCached] computes it *)
Definition fileOf (uuid : string) : string :=
  cacheFile ((uuid +:+ "_" +:+ BG_COLOR) +:+ ".png").

(** The loop [do { ... } while (cursor !== '0')] of
    [getActivePlayerUuids]; [None] when [fuel] iterations do not end it *)
Fixpoint scanLoop (fuel : nat) (cursor : string) (serverKeys : list string)
  : option (Reply (list string)) :=
  match fuel with
  | O => None
  | S fuel' =>
      match scan cursor with
      | Replied (newCursor, keys) =>
          let serverKeys := serverKeys ++ keys in
          if decide (newCursor = "0") then Some (Replied serverKeys)
          else scanLoop fuel' newCursor serverKeys
      | Rejected => Some Rejected
      end
  end.

(** The loop [for (const key of serverKeys)] filling [allUuids] *)
Fixpoint collect (serverKeys : list string) (allUuids : list string)
  : Reply (list string) :=
  match serverKeys with
  | [] => Replied allUuids
  | key :: rest =>
      match smembers key with
      | Replied uuids => collect rest (allUuids ++ uuids)
      | Rejected => Rejected
      end
  end.

(** [getActivePlayerUuids()]: the set as an array, in insertion order *)
Definition getActivePlayerUuids (fuel : nat) (redisConnected : bool)
  : option (list string) :=
  if negb redisConnected then Some []
  else
    match scanLoop fuel "0" [] with
    | None => None
    | Some Rejected => Some []
    | Some (Replied serverKeys) =>
        match collect serverKeys [] with
        | Replied allUuids => Some (dedupe [] allUuids)
        | Rejected => Some []
        end
    end.

(** [allUuids.filter(uuid => !isCached(uuid))]; the [k]-th call of
    [isCached] reads [Date.now() = clock k] *)
Fixpoint filterUncached (allUuids : list string) (clock : nat → Qc) (k : nat)
    (fs : Files) : list string * Files :=
  match allUuids with
  | [] => ([], fs)
  | uuid :: rest =>
      let '(cached, fs) := isCached uuid (clock k) fs in
      let '(out, fs) := filterUncached rest clock (S k) fs in
      (if cached then out else uuid :: out, fs)
  end.

(** [getUncachedUuids()] *)
Definition getUncachedUuids (fuel : nat) (redisConnected : bool) (clock : nat → Qc)
    (fs : Files) : option (list string * Files) :=
  allUuids ← getActivePlayerUuids fuel redisConnected;
  Some (filterUncached allUuids clock 0 fs).

(** [uncached.slice(i, j)] *)
Definition sliceIdx (len i : Z) : Z :=
  if decide (i < 0)%Z then Z.max (len + i) 0 else Z.min i len.

Definition slice {A} (l : list A) (i j : Z) : list A :=
  let len := Z.of_nat (length l) in
  let s := sliceIdx len i in
  let e := sliceIdx len j in
  take (Z.to_nat (e - s)) (drop (Z.to_nat s) l).

(** The batches of [for (let i = 0; i < uncached.length; i += BATCH_SIZE)]
    in [runWorker], from index [i] on; [None] when [fuel] iterations do
    not end the loop *)
Fixpoint batchesFrom (fuel : nat) (uncached : list string) (i : Z)
  : option (list (list string)) :=
  match fuel with
  | O => None
  | S fuel' =>
      if decide (i < Z.of_nat (length uncached))%Z then
        let batch := slice uncached i (i + BATCH_SIZE) in
        (batch ::.) <$> batchesFrom fuel' uncached (i + BATCH_SIZE)
      else Some []
  end.

End Worker.
End Worker.

(** ** A concrete host

    Used to run the model on examples: linear blending for [slerp], the
    sandwich product for [applyQuaternion], a first-order turn for
    [rotation.y], hexadecimal digits only for [parseInt], and a network
    given by its four tables. *)

Definition hexValue (c : string) : option Z :=
  match String.index 0 c "0123456789abcdef", String.index 0 c "0123456789ABCDEF" with
  | Some n, _ => Some (Z.of_nat n)
  | None, Some n => Some (Z.of_nat n)
  | None, None => None
  end.

Fixpoint parseHex (s : string) (acc : option Z) : option Z :=
  match s with
  | EmptyString => acc
  | String c s' =>
      match hexValue (String c EmptyString) with
      | Some d => parseHex s' (Some (16 * default 0 acc + d)%Z)
      | None => acc
      end
  end.

Definition exampleHost
    (avatars : string → Fetched ModelData) (models : string → Fetched ModelDoc)
    (animations : string → Fetched Animation) (images : string → option Image)
  : Host :=
  {| slerpQuaternions q1 q2 f :=
       mkQuat (qx q1 + (qx q2 - qx q1) * f) (qy q1 + (qy q2 - qy q1) * f)
              (qz q1 + (qz q2 - qz q1) * f) (qw q1 + (qw q2 - qw q1) * f);
     applyQuaternion v q :=
       let p := quat_multiply (quat_multiply q (mkQuat (vx v) (vy v) (vz v) 0))
                              (mkQuat (- qx q) (- qy q) (- qz q) (qw q)) in
       mkVec3 (qx p) (qy p) (qz p);
     addRotationY angle q := quat_multiply q (mkQuat 0 (angle / 2) 0 1);
     boxGeometryUV := concat (replicate 6 [0; 1; 1; 1; 0; 0; 1; 0]);
     planeGeometryUV := [0; 1; 1; 1; 0; 0; 1; 0];
     parseInt16 s := parseHex s None;
     fetchAvatar := avatars;
     fetchModelDoc := models;
     fetchAnimation := animations;
     loadImage := images |}.

(** A host with nothing on the network *)
Definition offlineHost : Host :=
  exampleHost (λ _, FetchNotOk) (λ _, FetchNotOk) (λ _, FetchNotOk) (λ _, None).

(** ** Vocabulary of the statements *)

(** The search of [getObjectByName] through a list of children, from
    index [i] on *)
Fixpoint findInChildren (n : string) (cs : list Object3D) (i : nat) : option Path :=
  match cs with
  | [] => None
  | c :: cs' =>
      match getObjectByName c n with
      | Some p => Some (i :: p)
      | None => findInChildren n cs' (S i)
      end
  end.

(** An entry of [nodeAnimations] that cannot move anything: no object of
    the graph has its name, or both of its tracks are absent or empty *)
Definition inert (ch : Object3D) (e : string * NodeAnim) : Prop :=
  getObjectByName ch (fst e) = None
  ∨ ((na_orientation (snd e) = None ∨ na_orientation (snd e) = Some [])
     ∧ (na_position (snd e) = None ∨ na_position (snd e) = Some [])).

(** Two rest-pose caches that agree away from the name [n] *)
Definition agreeExcept (n : string) (o o' : gmap string Transform) : Prop :=
  ∀ m, m ≠ n → o !! m = o' !! m.

(** The bones hidden under pants, and the bones the other slots hide *)
Definition legParts : gset string :=
  {["Pelvis"]} ∪ {["L-Thigh"]} ∪ {["R-Thigh"]} ∪ {["L-Calf"]} ∪ {["R-Calf"]}.

Definition otherHidden (data : ModelData) : gset string :=
  (if slotEquipped data "overtop" || slotEquipped data "undertop"
   then {["Belly"]} ∪ {["Chest"]} else ∅)
  ∪ (if slotEquipped data "shoes" then {["L-Foot"]} ∪ {["R-Foot"]} else ∅)
  ∪ (if slotEquipped data "haircut" then {["HeadTop"]} ∪ {["HairBase"]} else ∅).

(** [v'] has the hidden set, the offset set and the rest-pose cache of [v] *)
Definition sameSets (v v' : Viewer) : Prop :=
  hiddenBodyParts v' = hiddenBodyParts v
  ∧ polygonOffsetParts v' = polygonOffsetParts v
  ∧ originalTransforms v' = originalTransforms v.

(** The eight numbers of an unrotated, unmirrored rectangle: the corners
    [(u1, v1)] and [(u2, v2)] in the order bottom-left, bottom-right,
    top-left, top-right *)
Definition plainUV (uv_size uv_offset : Qc * Qc) (texW texH : Z) : list Qc :=
  let u1 := fst uv_offset / Qc_of_Z texW in
  let v1 := 1 - snd uv_offset / Qc_of_Z texH in
  let u2 := (fst uv_offset + fst uv_size) / Qc_of_Z texW in
  let v2 := 1 - (snd uv_offset + snd uv_size) / Qc_of_Z texH in
  [u1; v1; u2; v1; u1; v2; u2; v2].

(** A layout with angle 0 and both mirror flags false *)
Definition plainLayout (layout : FaceLayout) : Prop :=
  layout_angle layout = 0 ∧ mirror_x layout = false ∧ mirror_y layout = false.

(** The pixel size of a cube face: depth by height on the sides, width by
    depth on top and bottom, width by height in front and behind *)
Definition faceSize (faceName : string) (pixel : Vec3) : Qc * Qc :=
  if bool_decide (faceName = "left" ∨ faceName = "right") then (vz pixel, vy pixel)
  else if bool_decide (faceName = "top" ∨ faceName = "bottom") then (vx pixel, vz pixel)
  else (vx pixel, vy pixel).

(** [g'] is [g] as far as its own fields go, with possibly more children *)
Definition sameObject (g g' : Object3D) : Prop :=
  name g' = name g ∧ position g' = position g ∧ quaternion g' = quaternion g
  ∧ mesh g' = mesh g ∧ (length (children g) ≤ length (children g'))%nat.

(** Every reference into [ch] still refers, in [ch'], to the same object *)
Definition stable (ch ch' : Object3D) : Prop :=
  ∀ p g, objectAt ch p = Some g → ∃ g', objectAt ch' p = Some g' ∧ sameObject g g'.

(** The loop [for (const child of node.children)] of
    [_renderCosmeticNode], as a function of its own *)
Fixpoint eachCosmeticChild `{Host} (wire : bool) (color : Z) (partType : string)
    (texture shadowTexture : option Texture) (groupRef : Path) (zOffset : Qc)
    (cs : list ModelNode) (ch : Object3D) : Outcome Object3D :=
  match cs with
  | [] => Done ch
  | child :: cs' =>
      let r :=
        match _findBoneByName ch (nodeNameOf child) with
        | Some childBone =>
            _renderCosmeticNode wire child childBone color partType texture
              zOffset shadowTexture ch
        | None =>
            _renderCosmeticNode wire child groupRef color partType texture
              0 shadowTexture ch
        end in
      match r with
      | Done ch' =>
          eachCosmeticChild wire color partType texture shadowTexture groupRef zOffset cs' ch'
      | Thrown ch' => Thrown ch'
      end
  end.

(** The animation part of a frame: [_animate] up to the lines that turn
    the character and draw *)
Definition frameAnimation `{Host} (now : Qc) (v : Viewer) : Viewer :=
  let deltaTime := (now - lastFrameTime v) / Qc_of_Z 1000 in
  let v := set_lastFrameTime now v in
  match animationEnabled v, currentAnimation v with
  | true, Some a =>
      let clampedDelta := Qcmin deltaTime (QcOf 1 10) in
      let v := set_animationTime
                 (frameTime a (animationTime v + clampedDelta * FPS)) v in
      _applyAnimation (Some a) (animationTime v) v
  | _, _ => v
  end.

(** [object.rotation.y += 0.005] on the character root *)
Definition turned `{Host} (ch : Object3D) : Object3D :=
  setQuaternion (addRotationY (QcOf 5 1000) (quaternion ch)) ch.

(** Every array a node animation refers to is allocated in the store *)
Definition wfNode (σ : Imp.Store) (na : Imp.NodeAnimRef) : Prop :=
  (∀ l, Imp.position_ref na = Some l → is_Some (σ !! l))
  ∧ (∀ l, Imp.orientation_ref na = Some l → is_Some (σ !! l)).

(** A list of keyframes in ascending order of time *)
Fixpoint ascending (l : list Keyframe) : Prop :=
  match l with
  | [] => True
  | k :: l' => Forall (λ k', time k ≤ time k') l' ∧ ascending l'
  end.

(** [k] is a keyframe of [l] that no keyframe of [l] is later than, and
    one that no keyframe of [l] is earlier than *)
Definition latestOf (l : list Keyframe) (k : Keyframe) : Prop :=
  k ∈ l ∧ ∀ k', k' ∈ l → time k' ≤ time k.

Definition earliestOf (l : list Keyframe) (k : Keyframe) : Prop :=
  k ∈ l ∧ ∀ k', k' ∈ l → time k ≤ time k'.

(** The graph with every transform erased: names, meshes and the tree *)
Fixpoint unposed (o : Object3D) : Object3D :=
  mkObject3D (name o) vec3_zero quat_identity (mesh o) (unposed <$> children o).

Definition poseOf (o : Object3D) : Transform := mkTransform (position o) (quaternion o).

(** The transform of the object a path refers to *)
Definition poseAt (ch : Object3D) (p : Path) : option Transform :=
  poseOf <$> objectAt ch p.

(** A function that only writes transforms *)
Definition writesPose (f : Object3D → Object3D) : Prop :=
  ∀ o, name (f o) = name o ∧ mesh (f o) = mesh o ∧ children (f o) = children o.

(** The cache holds the present pose of every object it names *)
Definition cacheAgrees (ch : Object3D) (o : gmap string Transform) : Prop :=
  ∀ n tr p, o !! n = Some tr → getObjectByName ch n = Some p → poseAt ch p = Some tr.

(** What a loop of transform writes keeps true of the graph, from the
    graph [ch] it started with: no name moves, the tree is the same, and
    an object no name of [o] refers to has the transform it had *)
Definition graphInv (ch : Object3D) (o : gmap string Transform) (ch' : Object3D) : Prop :=
  (∀ n, getObjectByName ch' n = getObjectByName ch n)
  ∧ unposed ch' = unposed ch
  ∧ (∀ p, (∀ n, is_Some (o !! n) → getObjectByName ch n ≠ Some p) →
       poseAt ch' p = poseAt ch p).

(** What the loop of [_applyAnimation] keeps true, from the graph [ch]
    and the cache [o] it started with *)
Definition frameInv (ch : Object3D) (o : gmap string Transform)
    (st : Object3D * gmap string Transform) : Prop :=
  graphInv ch (snd st) (fst st)
  ∧ o ⊆ snd st
  ∧ (∀ n tr, snd st !! n = Some tr → o !! n = None →
       ∃ p, getObjectByName ch n = Some p ∧ poseAt ch p = Some tr).

(** The body of the loop of [_resetToOriginalPose] *)
Definition resetNode (nodeName : string) (transform : Transform) (ch : Object3D) : Object3D :=
  match getObjectByName ch nodeName with
  | Some p =>
      updateAt (λ node, setQuaternion (t_quaternion transform)
                          (setPosition (t_position transform) node)) p ch
  | None => ch
  end.

(** The invariant of a run of frames, from the graph [ch] the run started
    with *)
Definition runInv (ch : Object3D) (v : Viewer) : Prop :=
  ∃ ch', character v = Some ch'
         ∧ graphInv ch (originalTransforms v) ch'
         ∧ cacheAgrees ch (originalTransforms v).

(** What a descriptor adds to the hidden set and to the offset set *)
Definition hiddenFor (data : ModelData) : gset string :=
  (if slotEquipped data "pants" || slotEquipped data "overpants" then legParts else ∅)
  ∪ otherHidden data.

Definition offsetFor (data : ModelData) : gset string :=
  if slotEquipped data "overtop" || slotEquipped data "undertop"
  then {["L-Arm"]} ∪ {["R-Arm"]} ∪ {["L-Forearm"]} ∪ {["R-Forearm"]} else ∅.

(** Every number of a pixel array is a byte *)
Definition bytes (l : list Z) : Prop := Forall (λ z, 0 ≤ z ≤ 255)%Z l.

(** The [k] low hexadecimal digits of [n], most significant first *)
Fixpoint hexOf (k : nat) (n : Z) : string :=
  match k with
  | O => ""
  | S k' => hexOf k' (n / 16) +:+ hexDigit (n mod 16)
  end.

(** The order in which [traverse] visits the objects two paths refer to:
    an object before its descendants, a child before its later siblings *)
Fixpoint visitedBefore (p q : Path) : Prop :=
  match p, q with
  | [], _ => True
  | _ :: _, [] => False
  | i :: p', j :: q' => (i < j)%nat ∨ (i = j ∧ visitedBefore p' q')
  end.

(** [v'] is [v] with, possibly, more objects in the graph and more
    textures in the cache: nothing is removed, moved or replaced *)
Definition onlyAdds (v v' : Viewer) : Prop :=
  match character v, character v' with
  | Some ch, Some ch' => stable ch ch'
  | None, None => True
  | _, _ => False
  end
  ∧ textureCache v ⊆ textureCache v'
  ∧ sameSets v v'
  ∧ modelData v' = modelData v ∧ wireframeMode v' = wireframeMode v
  ∧ currentAnimation v' = currentAnimation v ∧ animationTime v' = animationTime v
  ∧ currentAnimationPath v' = currentAnimationPath v
  ∧ animationEnabled v' = animationEnabled v ∧ lastFrameTime v' = lastFrameTime v.

(** The skeleton alone: the groups with their names and transforms, the
    meshes left out *)
Fixpoint bonesOf (o : Object3D) : Object3D :=
  mkObject3D (name o) (position o) (quaternion o) None
    ((fix go (cs : list Object3D) : list Object3D :=
        match cs with
        | [] => []
        | c :: cs' => if mesh c is None then bonesOf c :: go cs' else go cs'
        end) (children o)).

(** The same, for a list of children *)
Fixpoint bonesOfList (cs : list Object3D) : list Object3D :=
  match cs with
  | [] => []
  | c :: cs' => if mesh c is None then bonesOf c :: bonesOfList cs' else bonesOfList cs'
  end.

(** The subtree a player node stands for, built on its own: the group
    with its transform, its mesh unless the part is hidden, and the
    subtrees of the node's children *)
Fixpoint playerSubtree `{Host} (v : Viewer) (skinColor : Z) (bodyTexture : option Texture)
    (node : ModelNode) : Object3D :=
  let nodeName := nodeNameOf node in
  let group := _applyTransform (setName nodeName newGroup) node in
  let group :=
    if decide (nodeName ∈ hiddenBodyParts v) then group
    else match playerMesh v node nodeName skinColor bodyTexture with
         | Some m => addChild (meshObject m) group
         | None => group
         end in
  foldl (λ g sub, addChild sub g) group
        (playerSubtree v skinColor bodyTexture <$> node_children node).

(** The chunks of [l] of [n] elements each, the last one possibly shorter *)
Fixpoint chunks (fuel n : nat) (l : list string) : list (list string) :=
  match fuel with
  | O => []
  | S fuel' => if l is [] then [] else take n l :: chunks fuel' n (drop n l)
  end.

(** ** Example data *)

Definition exPants : CosmeticPart :=
  mkCosmeticPart "Cosmetics/Pants.blockymodel" "" "" "" CNone "".

(** Two avatars on the server: "a" wears pants, "b" wears nothing *)
Definition exAvatars (uuid : string) : Fetched ModelData :=
  if decide (uuid = "a")
  then FetchOk (mkModelData "" "01" "Regular" (Some {["pants" := exPants]}))
  else if decide (uuid = "b")
  then FetchOk (mkModelData "" "02" "Regular" (Some ∅))
  else FetchNotOk.

Definition exServer : Host :=
  exampleHost exAvatars (λ _, FetchNotOk) (λ _, FetchNotOk) (λ _, None).

Definition exKey (time0 : Z) (w : Qc) (kind : string) : Keyframe :=
  mkKeyframe (Qc_of_Z time0) (mkDelta 0 0 (QcOf 1 2) w) kind.

(** A character with a head bone on a chest bone *)
Definition exCharacter : Object3D :=
  addChild
    (addChild (setName "Head" newGroup)
       (setPosition (mkVec3 0 (QcOf 1 2) 0) (setName "Chest" newGroup)))
    newGroup.

Definition exViewer : Viewer := set_character (Some exCharacter) newViewer.

Definition exHeadTrack : NodeAnim :=
  mkNodeAnim (Some [exKey 0 1 "linear"; exKey 5 0 "smooth"])
             (Some [exKey 5 0 "smooth"; exKey 0 1 "linear"]).

(** A store with one array, out of time order, and a document whose head
    orientation track is that array *)
Definition exStore : Imp.Store :=
  {[ 1%positive := [exKey 5 0 "smooth"; exKey 0 1 "linear"] ]}.

Definition exAnimationRef : Imp.AnimationRef :=
  Imp.mkAnimationRef (Qc_of_Z 10) false
    (Some [("Head", Imp.mkNodeAnimRef None (Some 1%positive))]).

(** A one-pixel grey image, served at the first candidate path of
    "grey.png" *)
Definition exGreyImage : Image := mkImage 1 1 [100; 100; 100; 255]%Z.

Definition exImages (url : string) : option Image :=
  if decide (url = "/asset/Common/grey.png") then Some exGreyImage else None.

Definition exImageHost : Host :=
  exampleHost (λ _, FetchNotOk) (λ _, FetchNotOk) (λ _, FetchNotOk) exImages.

(** A skeleton with the single bone Pelvis *)
Definition exSkeleton : Object3D := addChild (setName "Pelvis" newGroup) newGroup.

Definition exNode (n : string) (pos : Vec3) (cs : list ModelNode) : ModelNode :=
  mkModelNode n "" (Some pos) None None cs.

Definition exPelvisNode : ModelNode := exNode "Pelvis" (mkVec3 1 2 (Qc_of_Z 3)) [].

(** A cosmetic model whose node Pelvis sits below two nodes that match no
    bone *)
Definition exNestedModel : list ModelNode :=
  [exNode "Wrap" (mkVec3 0 1 0) [exNode "Deco" (mkVec3 0 2 0) [exPelvisNode]]].

(** A 10 x 12 x 4 primitive whose front layout is the plain rectangle at
    (8, 4) of a 64 x 32 atlas *)
Definition exLayout : FaceLayout :=
  mkFaceLayout (Some (Qc_of_Z 8, Qc_of_Z 4)) 0 false false.

Definition exPixel : Vec3 := mkVec3 (Qc_of_Z 10) (Qc_of_Z 12) (Qc_of_Z 4).

Definition exShape (kind : string) : Shape :=
  mkShape kind None None None (Some (mkSettings (Some exPixel) None))
    (Some {["front" := exLayout]}) false.

Definition exAtlas : Texture := mkTexture (Some (mkImage 64 32 [])) None.

(** An animation of ten frames that turns the head *)
Definition exAnimation : Animation :=
  mkAnimation (Qc_of_Z 10) false (Some [("Head", exHeadTrack)]).

(** Two servers that both list the player "u1"; the head of "u1" was
    cached at time 3900000 *)
Definition exCacheFile (fileName : string) : string := "/app/data/head-cache/" +:+ fileName.

Definition exScan (cursor : string) : Worker.Reply (string * list string) :=
  Worker.Replied ("0", ["server:1"; "server:2"]).

Definition exSmembers (key : string) : Worker.Reply (list string) :=
  if decide (key = "server:1") then Worker.Replied ["u1"; "u2"]
  else Worker.Replied ["u1"].

Definition exFiles : Worker.Files :=
  {[ exCacheFile "u1_black.png" := Qc_of_Z 3900000 ]}.

(** * Properties *)

(** ** Arithmetic on canonical rationals

    Order facts are moved to [Q], where [lra] decides them; identities are
    proved in [Qc] with [ring] and [field]. *)

Lemma this_plus (a b : Qc) : (this (a + b) == this a + this b)%Q.
Proof. apply Qred_correct. Qed.
Lemma this_mult (a b : Qc) : (this (a * b) == this a * this b)%Q.
Proof. apply Qred_correct. Qed.
Lemma this_opp (a : Qc) : (this (- a) == - this a)%Q.
Proof. apply Qred_correct. Qed.
Lemma this_minus (a b : Qc) : (this (a - b) == this a - this b)%Q.
Proof. unfold Qcminus. rewrite this_plus, this_opp. reflexivity. Qed.
Lemma this_of_Z (n : Z) : this (Qc_of_Z n) = inject_Z n.
Proof. reflexivity. Qed.
Lemma this_QcOf a b : (this (QcOf a b) == a # b)%Q.
Proof. apply Qred_correct. Qed.
Lemma this_0 : this 0 = 0%Q.
Proof. reflexivity. Qed.
Lemma this_1 : this 1 = 1%Q.
Proof. reflexivity. Qed.

Ltac qc_hyps :=
  repeat match goal with
  | H : @eq Qc ?a ?b |- _ =>
      let H' := fresh H in
      assert (H' : (this a == this b)%Q) by (rewrite H; reflexivity); clear H
  | H : ¬ @eq Qc ?a ?b |- _ =>
      let H' := fresh H in
      assert (H' : ¬ (this a == this b)%Q)
        by (intros ?; apply H; by apply Qc_is_canon);
      clear H
  end.

Ltac qc_lra :=
  intros; qc_hyps;
  try apply Qc_is_canon;
  unfold Qcle, Qclt in *;
  repeat (rewrite ?this_minus, ?this_plus, ?this_mult, ?this_opp, ?this_of_Z,
            ?this_QcOf, ?this_0, ?this_1 in * );
  lra.

Lemma Qc_of_Z_1 : Qc_of_Z 1 = 1.
Proof. by apply Qc_is_canon. Qed.

Lemma Qfloor_unique (x : Q) (m : Z) :
  (inject_Z m <= x)%Q → (x < inject_Z m + 1)%Q → Qfloor x = m.
Proof.
  intros Hl Hu.
  pose proof (Qfloor_le x) as H1. pose proof (Qlt_floor x) as H2.
  rewrite inject_Z_plus in H2. change (inject_Z 1) with 1%Q in H2.
  assert (inject_Z m < inject_Z (Qfloor x) + 1)%Q as A by lra.
  assert (inject_Z (Qfloor x) < inject_Z m + 1)%Q as B by lra.
  change 1%Q with (inject_Z 1) in A, B. rewrite <- inject_Z_plus in A, B.
  rewrite <- Zlt_Qlt in A, B. lia.
Qed.

Lemma floor_spec (x : Qc) : Qc_of_Z (Qfloor x) ≤ x ∧ x < Qc_of_Z (Qfloor x) + 1.
Proof.
  pose proof (Qfloor_le x) as H1. pose proof (Qlt_floor x) as H2.
  rewrite inject_Z_plus in H2. change (inject_Z 1) with 1%Q in H2.
  split; qc_lra.
Qed.

Lemma floor_unique (x : Qc) (m : Z) :
  Qc_of_Z m ≤ x → x < Qc_of_Z m + 1 → Qfloor x = m.
Proof. intros. apply Qfloor_unique; qc_lra. Qed.

Lemma ceiling_spec (x : Qc) : x ≤ Qc_of_Z (Qceiling x) ∧ Qc_of_Z (Qceiling x) < x + 1.
Proof.
  pose proof (Qle_ceiling x) as H1. pose proof (Qceiling_lt x) as H2.
  unfold Z.sub in H2. rewrite inject_Z_plus, inject_Z_opp in H2.
  change (inject_Z 1) with 1%Q in H2.
  split; qc_lra.
Qed.

Lemma trunc_spec (x : Qc) :
  Qc_of_Z (Qctrunc x) ≤ x + 1 ∧ x - 1 ≤ Qc_of_Z (Qctrunc x).
Proof.
  unfold Qctrunc. case_decide.
  - destruct (floor_spec x). split; qc_lra.
  - destruct (ceiling_spec x). split; qc_lra.
Qed.


Lemma Qcmult_nonneg (a b : Qc) : 0 ≤ a → 0 ≤ b → 0 ≤ a * b.
Proof.
  intros Ha Hb. rewrite <- (Qcmult_0_l b). by apply Qcmult_le_compat_r.
Qed.

Lemma Qc_of_Z_nonneg (n : Z) : (0 ≤ n)%Z → 0 ≤ Qc_of_Z n.
Proof.
  intros Hn. rewrite (Zle_Qle 0 n) in Hn. change (inject_Z 0) with 0%Q in Hn. qc_lra.
Qed.

(** ** Rounding to binary64 *)

Lemma Qc_of_Z_pos (n : Z) : (0 < n)%Z → 0 < Qc_of_Z n.
Proof.
  intros Hn. rewrite (Zlt_Qlt 0 n) in Hn. change (inject_Z 0) with 0%Q in Hn. qc_lra.
Qed.


Lemma Qc_of_Z_lt (a b : Z) : Qc_of_Z a < Qc_of_Z b ↔ (a < b)%Z.
Proof.
  rewrite (Zlt_Qlt a b). unfold Qclt. by rewrite !this_of_Z.
Qed.



Lemma Qcinv_pos (x : Qc) : 0 < x → 0 < / x.
Proof.
  intros Hx. unfold Qclt in *. simpl in *.
  assert (this (/ x) == / this x)%Q as -> by apply Qred_correct.
  by apply Qinv_lt_0_compat.
Qed.

Lemma pow2_pos (e : Z) : 0 < pow2 e.
Proof.
  unfold pow2. case_decide.
  - apply Qc_of_Z_pos. by apply Z.pow_pos_nonneg.
  - apply Qcinv_pos, Qc_of_Z_pos. apply Z.pow_pos_nonneg; lia.
Qed.

Lemma Qfloor_nonneg (x : Qc) : 0 ≤ x → (0 ≤ Qfloor x)%Z.
Proof.
  intros Hx. change 0%Z with (Qfloor 0). apply Qfloor_resp_le. exact Hx.
Qed.

Lemma roundEven_nonneg (x : Qc) : 0 ≤ x → (0 ≤ roundEven x)%Z.
Proof.
  intros Hx%Qfloor_nonneg. unfold roundEven. repeat case_match; lia.
Qed.


Lemma Qcdiv_nonneg (a b : Qc) : 0 ≤ a → 0 < b → 0 ≤ a / b.
Proof.
  intros Ha Hb. unfold Qcdiv. apply Qcmult_nonneg; [done|].
  apply Qclt_le_weak. by apply Qcinv_pos.
Qed.

Lemma flPos_nonneg (x : Qc) : 0 ≤ x → 0 ≤ flPos x.
Proof.
  intros Hx. unfold flPos. apply Qcmult_nonneg.
  - apply Qc_of_Z_nonneg, roundEven_nonneg, Qcdiv_nonneg; [done|apply pow2_pos].
  - apply Qclt_le_weak, pow2_pos.
Qed.

Lemma fl_nonneg (x : Qc) : 0 ≤ x → 0 ≤ fl x.
Proof. intros Hx. unfold fl. rewrite decide_True by done. by apply flPos_nonneg. Qed.



(** ** The loop time *)



(** The remainder of a non-negative number *)
Lemma js_rem_nonneg (y d : Qc) : 0 ≤ y → 0 < d → 0 ≤ js_rem y d ∧ js_rem y d < d.
Proof.
  intros Hy Hd.
  assert (d ≠ 0) as Hd0 by (intros ->; by apply (Qclt_not_eq 0 0)).
  unfold js_rem, Qctrunc. rewrite decide_True by (by apply Qcdiv_nonneg).
  destruct (floor_spec (y / d)) as [F1 F2].
  set (n := Qc_of_Z (Qfloor (y / d)%Qc)) in *.
  assert (y - d * n = (y / d - n) * d) as -> by (field; done).
  split.
  - assert (0 * d ≤ (y / d - n) * d) as X by (apply Qcmult_le_compat_r; qc_lra).
    by rewrite Qcmult_0_l in X.
  - assert ((y / d - n) * d < 1 * d) as X by (apply Qcmult_lt_compat_r; qc_lra).
    by rewrite Qcmult_1_l in X.
Qed.

(** The remainder is within one divisor of zero *)
Lemma js_rem_bounds (time0 d : Qc) : 0 < d → - d ≤ js_rem time0 d ∧ js_rem time0 d ≤ d.
Proof.
  intros Hd.
  assert (d ≠ 0) as Hd0 by (intros ->; by apply (Qclt_not_eq 0 0)).
  destruct (trunc_spec (time0 / d)) as [T1 T2]. unfold js_rem.
  set (n := Qc_of_Z (Qctrunc (time0 / d))) in *.
  assert (time0 - d * n = (time0 / d - n) * d) as -> by (field; done).
  split.
  - assert (- (1) * d ≤ (time0 / d - n) * d) as X by (apply Qcmult_le_compat_r; qc_lra).
    assert (- (1) * d = - d) as E by ring. by rewrite E in X.
  - assert ((time0 / d - n) * d ≤ 1 * d) as X by (apply Qcmult_le_compat_r; qc_lra).
    by rewrite Qcmult_1_l in X.
Qed.

(** Time is wrapped into [[0, duration)], whatever the rounding. *)
Lemma loopTime_range (time0 d : Qc) :
  0 < d → 0 ≤ loopTime time0 d ∧ loopTime time0 d < d.
Proof.
  intros Hd. unfold loopTime. apply js_rem_nonneg; [|done].
  apply fl_nonneg. destruct (js_rem_bounds time0 d Hd). qc_lra.
Qed.



(** ** Keyframe bracketing *)

Lemma insertByTime_length k l : length (insertByTime k l) = S (length l).
Proof.
  induction l as [|k' l IH]; simpl; [done|]. case_decide; simpl; by rewrite ?IH.
Qed.

Lemma sortByTime_length l : length (sortByTime l) = length l.
Proof.
  induction l as [|k l IH]; simpl; [done|]. by rewrite insertByTime_length, IH.
Qed.

Lemma insertByTime_Permutation k l : insertByTime k l ≡ₚ k :: l.
Proof.
  induction l as [|k' l IH]; simpl; [done|]. case_decide; [done|].
  rewrite IH. apply Permutation_swap.
Qed.

(** The sorted copy has the elements of the array. *)
Lemma sortByTime_Permutation l : sortByTime l ≡ₚ l.
Proof.
  induction l as [|k l IH]; simpl; [done|].
  by rewrite insertByTime_Permutation, IH.
Qed.

Lemma scanIdx_range (l : list Keyframe) (time0 : Qc) : ∀ i idx1 : Z,
  (idx1 < i)%Z →
  (scanIdx l time0 i idx1 = idx1 ∨ i ≤ scanIdx l time0 i idx1)%Z
  ∧ (scanIdx l time0 i idx1 < i + Z.of_nat (length l))%Z.
Proof.
  induction l as [|k l IH]; intros i idx1 Hi; simpl.
  - split; [by left|lia].
  - case_decide.
    + destruct (IH (i + 1)%Z i) as [[->|?] ?]; [lia|split; [right|]; lia..].
    + split; [by left|lia].
Qed.

Lemma nthZ_is_Some {A} (l : list A) (i : Z) :
  (0 ≤ i < Z.of_nat (length l))%Z → is_Some (nthZ l i).
Proof.
  intros Hi. unfold nthZ. rewrite decide_True by lia.
  apply lookup_lt_is_Some. lia.
Qed.

(** Every array read of the bracketing is in range: on a non-empty array
    the bracket is found, and no [undefined] keyframe is dereferenced. *)
Lemma bracketOf_is_Some (sorted : list Keyframe) (time0 dur : Qc) :
  sorted ≠ [] → is_Some (bracketOf sorted time0 dur).
Proof.
  intros Hne. unfold bracketOf.
  assert (0 < Z.of_nat (length sorted))%Z as Hlen by (destruct sorted; [done|simpl; lia]).
  destruct (scanIdx_range sorted time0 0 (-1)) as [Hr1 Hr2]; [lia|].
  set (idx1 := scanIdx sorted time0 0 (-1)) in *.
  destruct (nthZ_is_Some sorted 0) as [k0 Hk0]; [lia|].
  destruct (nthZ_is_Some sorted (Z.of_nat (length sorted) - 1)) as [kl Hkl]; [lia|].
  case_decide as H1.
  - rewrite Hkl, Hk0. simpl. by eexists.
  - destruct (nthZ_is_Some sorted idx1) as [ka Hka]; [lia|].
    case_decide as H2.
    + rewrite Hka, Hk0. simpl. by eexists.
    + destruct (nthZ_is_Some sorted (idx1 + 1)) as [kb Hkb]; [lia|].
      rewrite Hka, Hkb. simpl. by eexists.
Qed.

Lemma _findKeyframes_is_Some (keyframes : list Keyframe) (time0 dur : Qc) :
  keyframes ≠ [] → is_Some (_findKeyframes keyframes time0 dur).
Proof.
  intros Hne. destruct keyframes as [|k [|k' l]]; [done|by eexists|].
  unfold _findKeyframes. apply bracketOf_is_Some.
  intros E. apply (f_equal length) in E. by rewrite sortByTime_length in E.
Qed.

(** C4. With [duration = 10] and exactly two keyframes, at times 0 and 5
    (in either array order), sampling at 7.5 is sampling at loop time 7.5,
    and the bracket found there runs from the keyframe at 5 to the
    keyframe at 0 with fraction exactly 1/2. *)
Theorem bracket_wraps_at_7_5 (d0 d5 : Delta) (s0 s5 : string) :
  let ka := mkKeyframe 0 d0 s0 in
  let kb := mkKeyframe (Qc_of_Z 5) d5 s5 in
  let dur := Qc_of_Z 10 in
  loopTime (QcOf 15 2) dur = QcOf 15 2
  ∧ _findKeyframes [ka; kb] (QcOf 15 2) dur
    = Some (mkBracket kb ka (QcOf 1 2) (isSmooth kb))
  ∧ _findKeyframes [kb; ka] (QcOf 15 2) dur
    = Some (mkBracket kb ka (QcOf 1 2) (isSmooth kb)).
Proof.
  simpl. split; [by apply Qc_is_canon|].
  split; vm_compute; do 2 f_equal; by apply Qc_is_canon.
Qed.

(** ** The scene graph *)

Lemma Object3D_ind (P : Object3D → Prop) :
  (∀ n pos q m cs, Forall P cs → P (mkObject3D n pos q m cs)) → ∀ o, P o.
Proof.
  intros Hrec. fix IH 1. intros [n pos q m cs]. apply Hrec.
  induction cs as [|c cs IHcs]; constructor; [apply IH|apply IHcs].
Qed.

Lemma getObjectByName_unfold (o : Object3D) (n : string) :
  getObjectByName o n =
    if decide (name o = n) then Some [] else findInChildren n (children o) 0.
Proof.
  destruct o as [nm pos q m cs]; simpl.
  case_decide; [done|].
  generalize 0%nat. induction cs as [|c cs IH]; intros i; simpl; [done|].
  destruct (getObjectByName c n); [done|]. apply IH.
Qed.

Lemma findInChildren_alter (n : string) (h : Object3D → Object3D) (cs : list Object3D)
    (i k : nat) :
  (∀ c, cs !! i = Some c → getObjectByName (h c) n = getObjectByName c n) →
  findInChildren n (alter h i cs) k = findInChildren n cs k.
Proof.
  revert i k. induction cs as [|c cs IH]; intros i k Hc; [done|].
  destruct i as [|i]; simpl.
  - rewrite Hc by done. done.
  - destruct (getObjectByName c n); [done|]. apply IH. intros c' Hc'. by apply Hc.
Qed.

(** Writing a transform leaves every name where it is. *)
Lemma getObjectByName_updateAt (f : Object3D → Object3D) (p : Path) (o : Object3D)
    (n : string) :
  (∀ o', name (f o') = name o' ∧ children (f o') = children o') →
  getObjectByName (updateAt f p o) n = getObjectByName o n.
Proof.
  intros Hf. revert o. induction p as [|i p IH]; intros o.
  - rewrite !getObjectByName_unfold. simpl. destruct (Hf o) as [-> ->]. done.
  - rewrite !getObjectByName_unfold. simpl.
    case_decide; [done|]. apply findInChildren_alter. intros c _. apply IH.
Qed.

Lemma findInChildren_Some (n : string) (cs : list Object3D) (k : nat) (p : Path) :
  findInChildren n cs k = Some p →
  ∃ j c p', p = (k + j)%nat :: p' ∧ cs !! j = Some c ∧ getObjectByName c n = Some p'.
Proof.
  revert k. induction cs as [|c cs IH]; intros k; simpl; [done|].
  destruct (getObjectByName c n) as [p'|] eqn:E.
  - intros [= <-]. exists 0%nat, c, p'. by rewrite Nat.add_0_r.
  - intros Hs. destruct (IH _ Hs) as (j & c' & p' & -> & Hj & Hc).
    exists (S j), c', p'. split; [f_equal; lia|done].
Qed.

(** The reference returned by a search refers to an object of that name. *)
Lemma getObjectByName_objectAt (o : Object3D) (n : string) (p : Path) :
  getObjectByName o n = Some p → ∃ b, objectAt o p = Some b ∧ name b = n.
Proof.
  revert p. induction o as [nm pos q m cs IH] using Object3D_ind; intros p.
  rewrite getObjectByName_unfold; simpl. case_decide as Hn.
  - intros [= <-]. by eexists.
  - intros Hf. apply findInChildren_Some in Hf as (j & c & p' & -> & Hj & Hc).
    simpl. rewrite Hj. simpl.
    rewrite Forall_lookup in IH. by apply (IH j c).
Qed.

(** ** Sampling *)


Section SamplerFacts.
Context `{Host}.


Lemma hasKeyframes_None (track : option (list Keyframe)) :
  hasKeyframes track = None ↔ track = None ∨ track = Some [].
Proof.
  destruct track as [[|k l]|]; simpl; split; try done; auto; intros [?|?]; done.
Qed.

Lemma animateOrientation_absent na loopT dur original p ch :
  na_orientation na = None ∨ na_orientation na = Some [] →
  animateOrientation na loopT dur original p ch = ch.
Proof. intros Hd%hasKeyframes_None. unfold animateOrientation. by rewrite Hd. Qed.

Lemma animatePosition_absent na loopT dur original p ch :
  na_position na = None ∨ na_position na = Some [] →
  animatePosition na loopT dur original p ch = ch.
Proof. intros Hd%hasKeyframes_None. unfold animatePosition. by rewrite Hd. Qed.

Lemma animateNode_inert loopT dur ch o e :
  inert ch e →
  fst (animateNode loopT dur (ch, o) e) = ch
  ∧ agreeExcept (fst e) o (snd (animateNode loopT dur (ch, o) e)).
Proof.
  destruct e as [n na]. intros [Hno|[Ho Hp]]; simpl in *.
  - rewrite Hno. done.
  - destruct (getObjectByName ch n) as [p|]; [|done].
    destruct (objectAt ch p) as [node|]; [|done].
    destruct (o !! n) as [tr|] eqn:Hon.
    + rewrite Hon. rewrite animateOrientation_absent, animatePosition_absent by done. done.
    + rewrite lookup_insert_eq.
      rewrite animateOrientation_absent, animatePosition_absent by done.
      split; [done|]. intros m Hm. simpl. by rewrite lookup_insert_ne.
Qed.

(** Animation moves objects; it never renames or reparents them. *)
Lemma animateNode_names loopT dur ch o e n :
  getObjectByName (fst (animateNode loopT dur (ch, o) e)) n = getObjectByName ch n.
Proof.
  destruct e as [m na]; simpl.
  destruct (getObjectByName ch m) as [p|]; [|done].
  destruct (objectAt ch p) as [node|]; [|done].
  destruct (match o !! m with Some _ => o | None => _ end !! m) as [orig|]; [|done].
  simpl. unfold animatePosition, animateOrientation.
  repeat (case_match; simpl); rewrite ?getObjectByName_updateAt; done.
Qed.

Lemma animateNode_agree loopT dur ch o o' e n :
  fst e ≠ n → agreeExcept n o o' →
  fst (animateNode loopT dur (ch, o) e) = fst (animateNode loopT dur (ch, o') e)
  ∧ agreeExcept n (snd (animateNode loopT dur (ch, o) e))
                  (snd (animateNode loopT dur (ch, o') e)).
Proof.
  destruct e as [m na]; simpl. intros Hm Ha.
  destruct (getObjectByName ch m) as [p|]; [|done].
  destruct (objectAt ch p) as [node|]; [|done].
  rewrite <- (Ha m Hm).
  destruct (o !! m) as [tr|] eqn:Hom.
  - rewrite Hom, <- (Ha m Hm), Hom. done.
  - rewrite !lookup_insert_eq. split; [done|]. simpl.
    intros k Hk. destruct (decide (m = k)) as [->|].
    + by rewrite !lookup_insert_eq.
    + rewrite !lookup_insert_ne by done. by apply Ha.
Qed.

Lemma foldl_animateNode_agree loopT dur entries n : ∀ ch o o',
  n ∉ (fst <$> entries) → agreeExcept n o o' →
  fst (foldl (animateNode loopT dur) (ch, o) entries)
  = fst (foldl (animateNode loopT dur) (ch, o') entries).
Proof.
  induction entries as [|e entries IH]; intros ch o o' Hn Ha; [done|].
  cbn [foldl]. rewrite fmap_cons, not_elem_of_cons in Hn. destruct Hn as [Hne Hn].
  destruct (animateNode_agree loopT dur ch o o' e n) as [E1 E2]; [done..|].
  destruct (animateNode loopT dur (ch, o) e) as [ch1 o1].
  destruct (animateNode loopT dur (ch, o') e) as [ch2 o2]. simpl in *. subst ch2.
  by apply IH.
Qed.

Lemma foldl_animateNode_names loopT dur entries n : ∀ ch o,
  getObjectByName (fst (foldl (animateNode loopT dur) (ch, o) entries)) n
  = getObjectByName ch n.
Proof.
  induction entries as [|e entries IH]; intros ch o; [done|].
  cbn [foldl]. destruct (animateNode loopT dur (ch, o) e) as [ch1 o1] eqn:E.
  rewrite IH. change ch1 with (fst (ch1, o1)). rewrite <- E. apply animateNode_names.
Qed.

Lemma inert_names ch ch' e :
  (∀ n, getObjectByName ch' n = getObjectByName ch n) → inert ch e → inert ch' e.
Proof. intros Hn [?|?]; [left|right]; [by rewrite Hn|done]. Qed.

(** The loop goes on past an inert entry: the graph it ends with is the
    one it would end with had the entry not been there. *)
Lemma foldl_animateNode_skip loopT dur pre e post ch o :
  inert ch e → fst e ∉ (fst <$> post) →
  fst (foldl (animateNode loopT dur) (ch, o) (pre ++ e :: post))
  = fst (foldl (animateNode loopT dur) (ch, o) (pre ++ post)).
Proof.
  intros Hi Hn. rewrite !foldl_app. cbn [foldl].
  destruct (foldl (animateNode loopT dur) (ch, o) pre) as [ch1 o1] eqn:E.
  assert (inert ch1 e) as Hi1.
  { eapply inert_names; [|done]. intros n. change ch1 with (fst (ch1, o1)).
    rewrite <- E. apply foldl_animateNode_names. }
  destruct (animateNode_inert loopT dur ch1 o1 e Hi1) as [E1 E2].
  destruct (animateNode loopT dur (ch1, o1) e) as [ch2 o2]. simpl in *. subst ch2.
  symmetry. by apply (foldl_animateNode_agree _ _ _ (fst e)).
Qed.

(** C9. Applying a frame is a total function of the viewer, and an entry
    that names no object of the graph, or whose tracks are absent or
    empty, changes no transform: an absent or empty orientation track
    leaves the graph as it is, so does an absent or empty position track,
    the iteration for an inert entry returns the graph unchanged, every
    non-empty track yields a bracket (no keyframe read is out of range),
    and the frame ends with the graph it would end with had the inert
    entry not been in the document (the names of [nodeAnimations] being
    distinct, as the keys of an object are). *)
Theorem applyAnimation_never_aborts (dur : Qc) (hold : bool)
    (pre post : list (string * NodeAnim)) (n : string) (na : NodeAnim)
    (time0 : Qc) (v : Viewer) (ch : Object3D) :
  character v = Some ch →
  inert ch (n, na) →
  n ∉ (fst <$> post) →
  (∀ loopT o, fst (animateNode loopT dur (ch, o) (n, na)) = ch)
  ∧ character (_applyAnimation
                 (Some (mkAnimation dur hold (Some (pre ++ (n, na) :: post)))) time0 v)
    = character (_applyAnimation
                   (Some (mkAnimation dur hold (Some (pre ++ post)))) time0 v)
  ∧ (∀ track loopT original p g,
       na_orientation track = None ∨ na_orientation track = Some [] →
       animateOrientation track loopT dur original p g = g)
  ∧ (∀ track loopT original p g,
       na_position track = None ∨ na_position track = Some [] →
       animatePosition track loopT dur original p g = g)
  ∧ (∀ keyframes loopT, keyframes ≠ [] → is_Some (_findKeyframes keyframes loopT dur)).
Proof.
  intros Hch Hi Hn. repeat split.
  - intros loopT o. by apply animateNode_inert.
  - unfold _applyAnimation. rewrite Hch. simpl.
    pose proof (foldl_animateNode_skip (loopTime time0 dur) dur pre (n, na) post ch
                  (originalTransforms v) Hi Hn) as E.
    destruct (foldl _ _ (pre ++ (n, na) :: post)) as [ch1 o1].
    destruct (foldl _ _ (pre ++ post)) as [ch2 o2]. simpl in *. by subst.
  - intros. by apply animateOrientation_absent.
  - intros. by apply animatePosition_absent.
  - intros. by apply _findKeyframes_is_Some.
Qed.

End SamplerFacts.



(** C9 at an instance: between two entries for existing bones, an entry
    for a bone the character does not have. *)
Lemma applyAnimation_never_aborts_witness :
  let H := offlineHost in
  let dud := mkNodeAnim (Some []) None in
  character (_applyAnimation
               (Some (mkAnimation (Qc_of_Z 10) false
                        (Some ([("Head", exHeadTrack)] ++ ("Tail", dud) :: [("Chest", exHeadTrack)]))))
               (QcOf 15 2) exViewer)
  = character (_applyAnimation
                 (Some (mkAnimation (Qc_of_Z 10) false
                          (Some ([("Head", exHeadTrack)] ++ [("Chest", exHeadTrack)]))))
                 (QcOf 15 2) exViewer).
Proof.
  intros H dud.
  apply (applyAnimation_never_aborts (Qc_of_Z 10) false [("Head", exHeadTrack)]
           [("Chest", exHeadTrack)] "Tail" dud (QcOf 15 2) exViewer exCharacter).
  - reflexivity.
  - left. reflexivity.
  - apply (bool_decide_unpack _). by vm_compute.
Defined.

(** ** Body-part occlusion and reloads *)

Lemma legParts_other_disjoint (data : ModelData) : legParts ## otherHidden data.
Proof.
  unfold otherHidden.
  destruct (_ || _), (slotEquipped data "shoes"), (slotEquipped data "haircut");
    apply (bool_decide_unpack _); vm_compute; exact I.
Qed.

(** C6. The hidden set after [_determineHiddenParts] is the set before,
    the five leg bones when pants or overpants are equipped, and the bones
    of the other slots, none of which is a leg bone: pants add exactly
    Pelvis, L-Thigh, R-Thigh, L-Calf and R-Calf, and a descriptor without
    pants adds none of the five. *)
Theorem pants_hide_exactly_the_legs (data : ModelData) (v : Viewer) :
  hiddenBodyParts (_determineHiddenParts data v)
    = hiddenBodyParts v
      ∪ (if slotEquipped data "pants" || slotEquipped data "overpants"
         then legParts else ∅)
      ∪ otherHidden data
  ∧ legParts ## otherHidden data
  ∧ ((slotEquipped data "pants" || slotEquipped data "overpants") = false →
     ∀ x, x ∈ legParts →
       x ∈ hiddenBodyParts (_determineHiddenParts data v) ↔ x ∈ hiddenBodyParts v).
Proof.
  assert (hiddenBodyParts (_determineHiddenParts data v)
    = hiddenBodyParts v
      ∪ (if slotEquipped data "pants" || slotEquipped data "overpants"
         then legParts else ∅)
      ∪ otherHidden data) as Heq.
  { unfold _determineHiddenParts, otherHidden, legParts.
    destruct (slotEquipped data "pants" || slotEquipped data "overpants"),
      (slotEquipped data "overtop" || slotEquipped data "undertop"),
      (slotEquipped data "shoes"), (slotEquipped data "haircut");
      cbv beta iota zeta delta [hiddenBodyParts set_hiddenBodyParts set_polygonOffsetParts];
      rewrite ?union_empty_r_L, ?union_empty_l_L, ?(assoc_L (∪)); reflexivity. }
  pose proof (legParts_other_disjoint data) as Hdis.
  split; [done|]. split; [done|].
  intros Hno x Hx. rewrite Heq, Hno. specialize (Hdis x Hx).
  rewrite !elem_of_union, elem_of_empty. tauto.
Qed.

(** C6 at an instance: a fresh viewer and an avatar without pants. *)
Lemma pants_hide_exactly_the_legs_witness :
  let data := mkModelData "" "02" "Regular" (Some ∅) in
  (slotEquipped data "pants" || slotEquipped data "overpants") = false
  ∧ ("Pelvis" ∈ hiddenBodyParts (_determineHiddenParts data newViewer)
     ↔ "Pelvis" ∈ hiddenBodyParts newViewer).
Proof.
  intros data.
  assert ((slotEquipped data "pants" || slotEquipped data "overpants") = false) as Hno
    by reflexivity.
  split; [exact Hno|].
  apply (proj2 (proj2 (pants_hide_exactly_the_legs data newViewer)) Hno).
  apply (bool_decide_unpack _). by vm_compute.
Defined.

Section Reloads.
Context `{Host}.

Lemma sameSets_trans v1 v2 v3 : sameSets v1 v2 → sameSets v2 v3 → sameSets v1 v3.
Proof. intros (?&?&?) (?&?&?). repeat split; congruence. Qed.

Lemma tryPaths_sameSets path cands v : sameSets v (snd (tryPaths path cands v)).
Proof. induction cands as [|c cands IH]; simpl; [done|]. by destruct (loadImage c). Qed.

Lemma _loadTexture_sameSets path v : sameSets v (snd (_loadTexture path v)).
Proof. unfold _loadTexture. destruct (_ !! _); [done|]. apply tryPaths_sameSets. Qed.

Lemma _loadGradientData_sameSets path v : sameSets v (snd (_loadGradientData path v)).
Proof.
  unfold _loadGradientData. case_decide; [done|].
  pose proof (_loadTexture_sameSets path v). by destruct (_loadTexture path v).
Qed.

Lemma _createTintedTexture_sameSets path c g v :
  sameSets v (snd (_createTintedTexture path c g v)).
Proof.
  unfold _createTintedTexture.
  pose proof (_loadTexture_sameSets path v) as H1.
  destruct (_loadTexture path v) as [tex v1]. simpl in H1.
  destruct (tex ≫= image); [|done].
  pose proof (_loadGradientData_sameSets g v1) as H2.
  destruct (_loadGradientData g v1) as [gd v2]. simpl in *.
  by eapply sameSets_trans.
Qed.

Lemma renderCosmetic_sameSets key z part color tex v v1 :
  sameSets v v1 →
  sameSets v
    match _fetchModel (if String.prefix "Common/" (part_model part) then part_model part
                       else "Common/" +:+ part_model part), character v1 with
    | FetchOk model, Some ch =>
        let shadowTexture :=
          if decide (key = "eyes") then _createEyeShadowTexture tex else None in
        match nodes model with
        | None => v1
        | Some ns =>
            set_character
              (Some (stateOf (_renderCosmeticModel (wireframeMode v1) ns [] color key
                                tex z shadowTexture ch))) v1
        end
    | _, _ => v1
    end.
Proof.
  intros Hv1. destruct (_fetchModel _) as [doc| |]; [|done..].
  destruct (character v1); [|done]. simpl. by destruct (nodes doc).
Qed.

Lemma buildCosmetic_sameSets data key z part sc sch stg v :
  sameSets v (buildCosmetic data key z part sc sch stg v).
Proof.
  unfold buildCosmetic.
  set (color := match _getPartColor part with Some _ => _ | None => _ end). clearbody color.
  destruct (negb (bool_decide (part_texture part = ""))).
  - pose proof (_loadTexture_sameSets (part_texture part) v) as Hs.
    destruct (_loadTexture (part_texture part) v) as [tex v1].
    by apply renderCosmetic_sameSets.
  - destruct (negb (bool_decide (greyscaleTexture part = ""))).
    + destruct (if _ || _ then _ else _) as [[gp bc] c2].
      match goal with |- context [_createTintedTexture ?a ?b ?c v] =>
        pose proof (_createTintedTexture_sameSets a b c v) as Hs;
        destruct (_createTintedTexture a b c v) as [tex v1] end.
      by apply renderCosmetic_sameSets.
    + by apply renderCosmetic_sameSets.
Qed.

(** Assembly touches the graph and the texture cache only. *)
Lemma _buildCharacter_sameSets data v : sameSets v (_buildCharacter data v).
Proof.
  unfold _buildCharacter.
  set (v1 := match _fetchModel _ with FetchOk _ => _ | _ => v end).
  assert (sameSets v v1) as H1.
  { unfold v1. destruct (_fetchModel _); [|done..].
    match goal with |- context [_createTintedTexture ?a ?b ?c v] =>
        pose proof (_createTintedTexture_sameSets a b c v) as Hs;
        destruct (_createTintedTexture a b c v) as [tex v2] end.
    simpl in *. by destruct (character v2). }
  clearbody v1. revert v1 H1.
  induction cosmeticOrder as [|[key z] l IH]; intros v1 H1; [done|].
  cbn [foldl]. apply IH.
  destruct (getPart data key); [|done]. case_decide; [done|].
  eapply sameSets_trans; [done|apply buildCosmetic_sameSets].
Qed.

(** The reload path of the customizer does clear: whatever a viewer with
    a character held, the three collections are empty after
    [loadFromSkinData] (its descriptor has no parts, and nothing has been
    animated yet). *)
Lemma loadFromSkinData_rebuilds sd v :
  is_Some (character v) →
  let v' := stateOf (loadFromSkinData sd v) in
  hiddenBodyParts v' = ∅ ∧ polygonOffsetParts v' = ∅ ∧ originalTransforms v' = ∅.
Proof.
  intros [ch Hch]. cbv zeta. unfold loadFromSkinData. rewrite Hch. cbn [stateOf].
  match goal with |- context [_buildCharacter ?d ?v] =>
    destruct (_buildCharacter_sameSets d v) as (-> & -> & ->) end.
  done.
Qed.

End Reloads.

(** C1, on the code.  [loadAvatar] does not clear: on one viewer, loading
    the avatar "a" (with pants) and then the avatar "b" (without) leaves
    Pelvis in the hidden set, while loading "b" on a fresh viewer leaves
    the hidden set empty.  The hidden set after the second load depends on
    the first. *)
Theorem loadAvatar_keeps_previous_hidden_parts :
  let H := exServer in
  let afterA := stateOf (loadAvatar "a" 0 0 newViewer) in
  let afterAB := stateOf (loadAvatar "b" 1 1 afterA) in
  let afterB := stateOf (loadAvatar "b" 1 1 newViewer) in
  getPart (mkModelData "" "02" "Regular" (Some ∅)) "pants" = None
  ∧ "Pelvis" ∈ hiddenBodyParts afterAB
  ∧ hiddenBodyParts afterB = ∅.
Proof.
  intros H afterA afterAB afterB. split; [reflexivity|]. split.
  - apply (bool_decide_unpack _). vm_compute. exact I.
  - apply (bool_decide_unpack _). vm_compute. exact I.
Qed.

(** ** The sampler over mutable arrays *)

Module ImpFacts.

(** The copy is allocated away from every existing array, and sorting it
    writes to the copy only. *)
Lemma spread_sort_subseteq (a : list Keyframe) (σ : Imp.Store) :
  σ ⊆ Imp.sortInPlace (fst (Imp.spread a σ)) (snd (Imp.spread a σ)).
Proof.
  unfold Imp.spread, Imp.sortInPlace; simpl.
  assert (σ !! fresh (dom σ) = None) as Hfresh
    by (apply not_elem_of_dom, is_fresh).
  apply map_subseteq_spec. intros l b Hl.
  assert (l ≠ fresh (dom σ)) by congruence.
  by rewrite lookup_alter_ne, lookup_insert_ne.
Qed.

Lemma spread_sort_lookup (a : list Keyframe) (σ : Imp.Store) :
  Imp.sortInPlace (fst (Imp.spread a σ)) (snd (Imp.spread a σ)) !! fst (Imp.spread a σ)
  = Some (sortByTime a).
Proof.
  unfold Imp.spread, Imp.sortInPlace; simpl.
  by rewrite lookup_alter_eq, lookup_insert_eq.
Qed.

(** Sorting the array itself would have changed the document. *)
Example sortInPlace_mutates :
  Imp.sortInPlace 1%positive exStore !! 1%positive
    = Some [exKey 0 1 "linear"; exKey 5 0 "smooth"]
  ∧ Imp.sortInPlace 1%positive exStore !! 1%positive ≠ exStore !! 1%positive.
Proof. split; [reflexivity|]. by vm_compute. Qed.

Lemma _findKeyframes_frame keyframes time0 dur (σ : Imp.Store) :
  σ ⊆ snd (Imp._findKeyframes keyframes time0 dur σ).
Proof.
  unfold Imp._findKeyframes.
  destruct (keyframes ≫= (σ !!.)) as [[|k [|k' rest]]|]; try done.
  pose proof (spread_sort_subseteq (k :: k' :: rest) σ).
  by destruct (Imp.spread (k :: k' :: rest) σ).
Qed.

(** Over the store, [Imp._findKeyframes] returns what the function of the
    array contents returns. *)
Lemma _findKeyframes_pure keyframes time0 dur (σ : Imp.Store) :
  fst (Imp._findKeyframes keyframes time0 dur σ)
  = a ← keyframes ≫= (σ !!.); _findKeyframes a time0 dur.
Proof.
  unfold Imp._findKeyframes.
  destruct (keyframes ≫= (σ !!.)) as [[|k [|k' rest]]|]; try done.
  pose proof (spread_sort_lookup (k :: k' :: rest) σ) as Hl.
  destruct (Imp.spread (k :: k' :: rest) σ) as [l σ1]. simpl in *. by rewrite Hl.
Qed.

Section Frames.
Context `{Host}.

Lemma _interpolateQuaternion_frame keyframes time0 dur (σ : Imp.Store) :
  σ ⊆ snd (Imp._interpolateQuaternion keyframes time0 dur σ).
Proof.
  unfold Imp._interpolateQuaternion.
  pose proof (_findKeyframes_frame keyframes time0 dur σ).
  by destruct (Imp._findKeyframes keyframes time0 dur σ).
Qed.

Lemma _interpolatePosition_frame keyframes time0 dur (σ : Imp.Store) :
  σ ⊆ snd (Imp._interpolatePosition keyframes time0 dur σ).
Proof.
  unfold Imp._interpolatePosition.
  pose proof (_findKeyframes_frame keyframes time0 dur σ).
  by destruct (Imp._findKeyframes keyframes time0 dur σ).
Qed.

Lemma animateNode_frame loopT dur ch o (σ : Imp.Store) e :
  σ ⊆ snd (Imp.animateNode loopT dur (ch, o, σ) e).
Proof.
  destruct e as [n na]. unfold Imp.animateNode.
  destruct (getObjectByName ch n) as [p|]; [|done].
  destruct (objectAt ch p) as [node|]; [|done].
  destruct (_ !! n) as [original|]; [|done].
  assert (∀ ch, σ ⊆ snd (if Imp.hasKeyframes (Imp.orientation_ref na) σ
            then let '(animQuat, σ0) := Imp._interpolateQuaternion (Imp.orientation_ref na) loopT dur σ in
                 (from_option (λ q, updateAt (setQuaternion (quat_multiply (t_quaternion original) q)) p ch) ch animQuat, σ0)
            else (ch, σ))) as H1.
  { intros ch0. destruct (Imp.hasKeyframes _ σ); [|done].
    pose proof (_interpolateQuaternion_frame (Imp.orientation_ref na) loopT dur σ).
    by destruct (Imp._interpolateQuaternion _ _ _ σ). }
  specialize (H1 ch).
  destruct (if Imp.hasKeyframes (Imp.orientation_ref na) σ then _ else _) as [ch1 σ1].
  simpl in H1.
  destruct (Imp.hasKeyframes (Imp.position_ref na) σ1); [|done].
  pose proof (_interpolatePosition_frame (Imp.position_ref na) loopT dur σ1).
  destruct (Imp._interpolatePosition _ _ _ σ1). simpl in *. by etrans.
Qed.

Lemma foldl_animateNode_frame loopT dur entries : ∀ ch o (σ : Imp.Store),
  σ ⊆ snd (foldl (Imp.animateNode loopT dur) (ch, o, σ) entries).
Proof.
  induction entries as [|e entries IH]; intros ch o σ; [done|].
  cbn [foldl]. pose proof (animateNode_frame loopT dur ch o σ e) as H1.
  destruct (Imp.animateNode _ _ (ch, o, σ) e) as [[ch1 o1] σ1]. simpl in H1.
  etrans; [exact H1|apply IH].
Qed.

Lemma _applyAnimation_frame a time0 v (σ : Imp.Store) :
  σ ⊆ snd (Imp._applyAnimation a time0 (v, σ)).
Proof.
  unfold Imp._applyAnimation. destruct a as [a|]; [|done].
  destruct (character v) as [ch|]; [|done].
  destruct (Imp.nodeAnimations_ref a) as [entries|]; [|done].
  pose proof (foldl_animateNode_frame (loopTime time0 (Imp.duration_of a)) (Imp.duration_of a)
                entries ch (originalTransforms v) σ) as Hs.
  by destruct (foldl _ _ entries) as [[ch1 o1] σ1].
Qed.

Lemma frames_frame a (times : list Qc) v (σ : Imp.Store) :
  σ ⊆ snd (foldl (λ s time0, Imp._applyAnimation a time0 s) (v, σ) times).
Proof.
  revert v σ. induction times as [|time0 times IH]; intros v σ; [done|].
  cbn [foldl]. pose proof (_applyAnimation_frame a time0 v σ) as H1.
  destruct (Imp._applyAnimation a time0 (v, σ)) as [v1 σ1]. simpl in H1.
  etrans; [exact H1|apply IH].
Qed.

(** C10. Sampling never writes to a keyframe array of the document:
    whatever array the store holds at a location before, it holds the
    same array, in the same order, after any sequence of frames applied
    at any times, and after any single call of [Imp._findKeyframes],
    [Imp._interpolateQuaternion] or [Imp._interpolatePosition]; the sort works on
    a copy allocated for it. *)
Theorem sampling_never_mutates_tracks (a : option Imp.AnimationRef) (times : list Qc)
    (v : Viewer) (σ : Imp.Store) (l : Imp.Loc) (kfs : list Keyframe) :
  σ !! l = Some kfs →
  snd (foldl (λ s time0, Imp._applyAnimation a time0 s) (v, σ) times) !! l = Some kfs
  ∧ (∀ track time0 dur, snd (Imp._findKeyframes track time0 dur σ) !! l = Some kfs)
  ∧ (∀ track time0 dur, snd (Imp._interpolateQuaternion track time0 dur σ) !! l = Some kfs)
  ∧ (∀ track time0 dur, snd (Imp._interpolatePosition track time0 dur σ) !! l = Some kfs).
Proof.
  intros Hl. repeat split; intros;
    eapply (lookup_weaken σ); eauto using frames_frame, _findKeyframes_frame,
      _interpolateQuaternion_frame, _interpolatePosition_frame.
Qed.

Lemma wfNode_weaken (σ σ' : Imp.Store) na : σ ⊆ σ' → wfNode σ na → wfNode σ' na.
Proof.
  intros Hs [H1 H2]. split; intros l Hl.
  - destruct (H1 l Hl) as [a Ha]. exists a. by eapply lookup_weaken.
  - destruct (H2 l Hl) as [a Ha]. exists a. by eapply lookup_weaken.
Qed.

Lemma derefNode_weaken (σ σ' : Imp.Store) na :
  σ ⊆ σ' → wfNode σ na → Imp.derefNode σ' na = Imp.derefNode σ na.
Proof.
  intros Hs [H1 H2]. unfold Imp.derefNode. f_equal.
  - destruct (Imp.position_ref na) as [l|]; [|done]. simpl.
    destruct (H1 l eq_refl) as [a Ha]. rewrite Ha. by eapply lookup_weaken.
  - destruct (Imp.orientation_ref na) as [l|]; [|done]. simpl.
    destruct (H2 l eq_refl) as [a Ha]. rewrite Ha. by eapply lookup_weaken.
Qed.

Lemma hasKeyframes_pure (track : option Imp.Loc) (σ : Imp.Store) :
  Imp.hasKeyframes track σ
  = bool_decide (is_Some (hasKeyframes (track ≫= (σ !!.)))).
Proof.
  unfold Imp.hasKeyframes. destruct (track ≫= (σ !!.)) as [[|k a]|]; simpl; try done.
Qed.

Lemma _interpolateQuaternion_pure track time0 dur (σ : Imp.Store) :
  fst (Imp._interpolateQuaternion track time0 dur σ)
  = a ← track ≫= (σ !!.); _interpolateQuaternion a time0 dur.
Proof.
  unfold Imp._interpolateQuaternion, _interpolateQuaternion.
  pose proof (_findKeyframes_pure track time0 dur σ) as Hp.
  destruct (Imp._findKeyframes track time0 dur σ) as [kf σ1]. simpl in *. subst kf.
  destruct (track ≫= (σ !!.)) as [a|]; [|done]. simpl.
  by destruct (_findKeyframes a time0 dur).
Qed.

Lemma _interpolatePosition_pure track time0 dur (σ : Imp.Store) :
  fst (Imp._interpolatePosition track time0 dur σ)
  = a ← track ≫= (σ !!.); _interpolatePosition a time0 dur.
Proof.
  unfold Imp._interpolatePosition, _interpolatePosition.
  pose proof (_findKeyframes_pure track time0 dur σ) as Hp.
  destruct (Imp._findKeyframes track time0 dur σ) as [kf σ1]. simpl in *. subst kf.
  destruct (track ≫= (σ !!.)) as [a|]; [|done]. simpl.
  by destruct (_findKeyframes a time0 dur).
Qed.

Lemma hasKeyframes_Some_eq (track : option (list Keyframe)) kfs :
  hasKeyframes track = Some kfs → track = Some kfs.
Proof. destruct track as [[|k a]|]; simpl; congruence. Qed.

(** One iteration over the store computes what the iteration over the
    array contents computes. *)
Lemma animateNode_pure loopT dur ch o (σ : Imp.Store) n na :
  wfNode σ na →
  fst (Imp.animateNode loopT dur (ch, o, σ) (n, na))
  = animateNode loopT dur (ch, o) (n, Imp.derefNode σ na).
Proof.
  intros Hwf. unfold Imp.animateNode, animateNode.
  destruct (getObjectByName ch n) as [p|]; [|done].
  destruct (objectAt ch p) as [node|]; [|done].
  destruct (_ !! n) as [original|]; [|done].
  unfold animateOrientation, animatePosition. simpl.
  rewrite (hasKeyframes_pure (Imp.orientation_ref na) σ).
  pose proof (_interpolateQuaternion_pure (Imp.orientation_ref na) loopT dur σ) as Hq.
  pose proof (_interpolateQuaternion_frame (Imp.orientation_ref na) loopT dur σ) as Hqs.
  destruct (Imp._interpolateQuaternion (Imp.orientation_ref na) loopT dur σ) as [q σ1].
  simpl in Hq, Hqs.
  set (ch1 := match hasKeyframes (Imp.orientation_ref na ≫= (σ !!.)) with
              | Some kfs => _ | None => ch end).
  assert ((if bool_decide (is_Some (hasKeyframes (Imp.orientation_ref na ≫= (σ !!.))))
           then (from_option (λ q0, updateAt (setQuaternion (quat_multiply (t_quaternion original) q0)) p ch) ch q, σ1)
           else (ch, σ))
          = (ch1, if bool_decide (is_Some (hasKeyframes (Imp.orientation_ref na ≫= (σ !!.))))
                  then σ1 else σ)) as ->.
  { unfold ch1. destruct (hasKeyframes _) as [kfs|] eqn:E; simpl; [|done].
    apply hasKeyframes_Some_eq in E. rewrite E in Hq. simpl in Hq. rewrite Hq.
    by destruct (_interpolateQuaternion kfs loopT dur). }
  set (σ2 := if bool_decide _ then σ1 else σ).
  assert (σ ⊆ σ2) as Hs2 by (unfold σ2; by case_bool_decide).
  assert (Imp.position_ref na ≫= (σ2 !!.) = Imp.position_ref na ≫= (σ !!.)) as Hp2.
  { destruct (Imp.position_ref na) as [l|] eqn:El; [|done]. simpl.
    destruct Hwf as [Hw _]. destruct (Hw l El) as [a Ha]. rewrite Ha.
    by eapply lookup_weaken. }
  clearbody ch1 σ2.
  rewrite (hasKeyframes_pure (Imp.position_ref na) σ2), Hp2.
  pose proof (_interpolatePosition_pure (Imp.position_ref na) loopT dur σ2) as Hv.
  destruct (Imp._interpolatePosition (Imp.position_ref na) loopT dur σ2) as [d σ3].
  simpl in Hv. rewrite Hp2 in Hv.
  destruct (hasKeyframes (Imp.position_ref na ≫= (σ !!.))) as [kfs|] eqn:E; simpl; [|done].
  apply hasKeyframes_Some_eq in E. rewrite E in Hv. simpl in Hv. rewrite Hv.
  by destruct (_interpolatePosition kfs loopT dur).
Qed.

Lemma foldl_animateNode_pure loopT dur entries (σ0 : Imp.Store) : ∀ ch o (σ : Imp.Store),
  σ0 ⊆ σ → Forall (λ e, wfNode σ0 (snd e)) entries →
  fst (foldl (Imp.animateNode loopT dur) (ch, o, σ) entries)
  = foldl (animateNode loopT dur) (ch, o)
      (map (λ e : string * Imp.NodeAnimRef, (fst e, Imp.derefNode σ0 (snd e))) entries).
Proof.
  induction entries as [|[n na] entries IH]; intros ch o σ Hs Hwf; [done|].
  apply Forall_cons in Hwf as [Hna Hwf]. simpl in Hna.
  cbn [foldl map fst snd].
  pose proof (animateNode_pure loopT dur ch o σ n na (wfNode_weaken _ _ _ Hs Hna)) as Hp.
  pose proof (animateNode_frame loopT dur ch o σ (n, na)) as Hf.
  rewrite (derefNode_weaken σ0 σ na Hs Hna) in Hp.
  destruct (Imp.animateNode loopT dur (ch, o, σ) (n, na)) as [[ch1 o1] σ1].
  cbn [fst snd] in Hp, Hf. rewrite <- Hp. apply IH; [by etrans|done].
Qed.

(** The sampler over the store refines the sampler over array contents:
    on a document whose references are allocated, it leaves the viewer
    that [Imp._applyAnimation] computes from the arrays the store holds. *)
Lemma _applyAnimation_pure (a : Imp.AnimationRef) time0 v (σ : Imp.Store) :
  Forall (λ e, wfNode σ (snd e)) (default [] (Imp.nodeAnimations_ref a)) →
  fst (Imp._applyAnimation (Some a) time0 (v, σ))
  = _applyAnimation (Some (Imp.deref σ a)) time0 v.
Proof.
  intros Hwf. unfold Imp._applyAnimation, _applyAnimation.
  destruct (character v) as [ch|]; [|done]. simpl.
  destruct (Imp.nodeAnimations_ref a) as [entries|]; [|done]. simpl in *.
  pose proof (foldl_animateNode_pure (loopTime time0 (Imp.duration_of a)) (Imp.duration_of a)
                entries σ ch (originalTransforms v) σ (reflexivity _) Hwf) as Hp.
  destruct (foldl (Imp.animateNode _ _) _ entries) as [[ch1 o1] σ1]. cbn [fst snd] in Hp.
  by rewrite <- Hp.
Qed.

End Frames.
End ImpFacts.

(** C10 at an instance: two frames on a document whose head track is
    stored out of time order; the array is still out of order afterwards. *)
Lemma sampling_never_mutates_tracks_witness :
  let H := offlineHost in
  snd (foldl (λ s time0, Imp._applyAnimation (Some exAnimationRef) time0 s)
             (exViewer, exStore) [QcOf 15 2; QcOf 25 2]) !! 1%positive
  = Some [exKey 5 0 "smooth"; exKey 0 1 "linear"].
Proof.
  intros H.
  refine (proj1 (ImpFacts.sampling_never_mutates_tracks (Some exAnimationRef)
                   [QcOf 15 2; QcOf 25 2] exViewer exStore 1%positive
                   [exKey 5 0 "smooth"; exKey 0 1 "linear"] _)).
  reflexivity.
Defined.

(** ** Tinting *)

Lemma Qcround_of_Z (n : Z) : Qcround (Qc_of_Z n) = n.
Proof. unfold Qcround. apply floor_unique; qc_lra. Qed.

Lemma Qcround_mono (x y : Qc) : x ≤ y → (Qcround x ≤ Qcround y)%Z.
Proof. intros Hxy. unfold Qcround. apply Qfloor_resp_le. qc_lra. Qed.

(** Rounding after the clamp is clamping after the round. *)
Lemma Qcround_min_255 (x : Qc) :
  Qcround (Qcmin (Qc_of_Z 255) x) = Z.min 255 (Qcround x).
Proof.
  unfold Qcmin. case_decide as Hx.
  - rewrite Qcround_of_Z. apply Qcround_mono in Hx. rewrite Qcround_of_Z in Hx. lia.
  - apply Qcnot_le_lt in Hx. apply Qclt_le_weak, Qcround_mono in Hx.
    rewrite Qcround_of_Z in Hx. lia.
Qed.

Lemma Qcround_nonneg (x : Qc) : 0 ≤ x → (0 ≤ Qcround x)%Z.
Proof.
  intros Hx. apply Qcround_mono in Hx.
  assert (Qcround 0 = 0%Z) as E by (apply (Qcround_of_Z 0)). lia.
Qed.

(** The flat-colour channel is [min(255, round(c * 2 * grey / 255))]. *)
Lemma tintChannel_spec (c grey : Z) :
  (0 ≤ c)%Z → (0 ≤ grey)%Z →
  tintChannel (Some c) grey
  = Z.min 255 (Qcround (Qc_of_Z c * 2 * Qc_of_Z grey / Qc_of_Z 255)).
Proof.
  intros Hc Hg. unfold tintChannel.
  assert (Qc_of_Z c * (Qc_of_Z grey / Qc_of_Z 255) * 2
          = Qc_of_Z c * 2 * Qc_of_Z grey / Qc_of_Z 255) as -> by (field; done).
  rewrite Qcround_min_255. unfold toUint8Clamp.
  assert (0 ≤ Qcround (Qc_of_Z c * 2 * Qc_of_Z grey / Qc_of_Z 255))%Z; [|lia].
  apply Qcround_nonneg.
  pose proof (Qc_of_Z_nonneg c Hc) as H1. pose proof (Qc_of_Z_nonneg grey Hg) as H2.
  assert (Qc_of_Z c * 2 * Qc_of_Z grey / Qc_of_Z 255
          = (Qc_of_Z c * Qc_of_Z grey) * (2 / Qc_of_Z 255)) as -> by (field; done).
  rewrite <- (Qcmult_0_l (2 / Qc_of_Z 255)). apply Qcmult_le_compat_r; [|done].
  rewrite <- (Qcmult_0_l (Qc_of_Z grey)). by apply Qcmult_le_compat_r.
Qed.

(** The pixel loop, case by case: a transparent or a non-grey pixel keeps
    its R, G, B; a grey pixel takes the gradient column, or the tinted
    channels, or, were the colour absent, its own grey. *)
Lemma tintPixel_spec (gd : option Image) (c : option RGB) (pr pg pb a : Z) :
  ((a ≤ 0)%Z ∨ ¬ (pr = pg ∧ pg = pb) → tintPixel gd c pr pg pb a = (pr, pg, pb))
  ∧ ((0 < a)%Z → pr = pg → pg = pb →
     match gd, c with
     | Some g0, _ =>
         let i := (Z.min pr (width g0 - 1) * 4)%Z in
         tintPixel gd c pr pg pb a
         = (gradientByte g0 i, gradientByte g0 (i + 1), gradientByte g0 (i + 2))
     | None, Some c0 =>
         tintPixel gd c pr pg pb a
         = (tintChannel (r c0) pr, tintChannel (g c0) pr, tintChannel (b c0) pr)
     | None, None => tintPixel gd c pr pg pb a = (pr, pg, pb)
     end).
Proof.
  unfold tintPixel. split.
  - intros [Ha|Hg].
    + by rewrite decide_False by lia.
    + case_decide; [|done]. by rewrite decide_False.
  - intros Ha -> ->. rewrite decide_True by done. rewrite decide_True by done.
    by destruct gd, c.
Qed.

Section Tinting.
Context `{Host}.

(** [_parseColor] has no falsy result: an absent colour is parsed to the
    grey (200, 200, 200). *)
Lemma _parseColor_absent :
  _parseColor CNone = mkRGB (Some 200%Z) (Some 200%Z) (Some 200%Z).
Proof. reflexivity. Qed.

Lemma tryPaths_cache path cands v :
  textureCache v !! path = None →
  textureCache v ⊆ textureCache (snd (tryPaths path cands v)).
Proof.
  intros Hm. induction cands as [|c cands IH]; simpl; [done|].
  destruct (loadImage c); [|done]. simpl. by apply insert_subseteq.
Qed.

(** The cache only grows: an entry is never replaced. *)
Lemma _loadTexture_cache path v :
  textureCache v ⊆ textureCache (snd (_loadTexture path v)).
Proof.
  unfold _loadTexture. destruct (textureCache v !! path) eqn:E; [done|].
  by apply tryPaths_cache.
Qed.

Lemma _loadGradientData_cache g0 v :
  textureCache v ⊆ textureCache (snd (_loadGradientData g0 v)).
Proof.
  unfold _loadGradientData. case_decide; [done|].
  pose proof (_loadTexture_cache g0 v). by destruct (_loadTexture g0 v).
Qed.

Lemma tryPaths_Some path cands v tex :
  fst (tryPaths path cands v) = Some tex →
  ∃ img, tex = mkTexture (Some img) None
         ∧ textureCache (snd (tryPaths path cands v)) = <[path := tex]> (textureCache v).
Proof.
  induction cands as [|c cands IH]; simpl; [done|].
  destruct (loadImage c) as [img|]; [|done]. simpl. intros [= <-]. by exists img.
Qed.

(** A request whose source is cached tints the cached source image. *)
Lemma _createTintedTexture_cached (path : string) (c : JsColor) (g0 : string)
    (v : Viewer) (src : Texture) (img : Image) :
  textureCache v !! path = Some src → image src = Some img →
  _createTintedTexture path c g0 v
  = (Some (_createCanvasTexture
            (mkImage (width img) (height img)
               (tintData (fst (_loadGradientData g0 v)) (Some (_parseColor c)) (data img)))),
     snd (_loadGradientData g0 v)).
Proof.
  intros Hc Hi. unfold _createTintedTexture, _loadTexture. rewrite Hc. simpl.
  rewrite Hi. by destruct (_loadGradientData g0 v).
Qed.

(** C2, as the code has it.  The cache is keyed by source path and holds
    loaded source textures, never tinted results: after a first tinting
    request for a path that was not cached, the cache holds at that path
    the texture of the loaded image, and every later request for the same
    path, whatever its colour and gradient, returns the tint of that image
    by its own colour and gradient and leaves the entry as it is. *)
Theorem tint_requests_share_only_the_source (path : string) (c : JsColor) (g0 : string)
    (v : Viewer) (res : Texture) :
  textureCache v !! path = None →
  fst (_createTintedTexture path c g0 v) = Some res →
  ∃ img,
    let v1 := snd (_createTintedTexture path c g0 v) in
    textureCache v1 !! path = Some (mkTexture (Some img) None)
    ∧ ∀ c' g',
        fst (_createTintedTexture path c' g' v1)
        = Some (_createCanvasTexture
                  (mkImage (width img) (height img)
                     (tintData (fst (_loadGradientData g' v1)) (Some (_parseColor c'))
                        (data img))))
        ∧ textureCache (snd (_createTintedTexture path c' g' v1)) !! path
          = Some (mkTexture (Some img) None).
Proof.
  intros Hmiss Hres.
  assert (∃ img, textureCache (snd (_createTintedTexture path c g0 v)) !! path
                 = Some (mkTexture (Some img) None)) as [img Hc].
  { revert Hres. unfold _createTintedTexture, _loadTexture. rewrite Hmiss.
    pose proof (tryPaths_Some path (uniquePaths path) v) as Ht.
    destruct (tryPaths path (uniquePaths path) v) as [[tex|] v1]; [|done].
    destruct (Ht tex eq_refl) as (img & -> & Hv1). simpl in *.
    pose proof (_loadGradientData_cache g0 v1) as Hs.
    destruct (_loadGradientData g0 v1) as [gd v2]. simpl in *. intros _.
    exists img. eapply lookup_weaken; [|exact Hs]. rewrite Hv1. apply lookup_insert_eq. }
  exists img. simpl. split; [done|]. intros c' g'.
  rewrite (_createTintedTexture_cached path c' g' _ _ img Hc eq_refl).
  split; [done|]. simpl. eapply lookup_weaken; [exact Hc|apply _loadGradientData_cache].
Qed.

End Tinting.

(** C2, as stated, fails: two requests for the same greyscale path, the
    first tinted red and the second blue; the second result is not the
    first. *)
Lemma second_tint_is_not_the_first :
  let H := exImageHost in
  let first := _createTintedTexture "grey.png" (CNum 0xff0000) "" newViewer in
  let second := _createTintedTexture "grey.png" (CNum 0x0000ff) "" (snd first) in
  is_Some (fst first) ∧ fst second ≠ fst first.
Proof.
  intros H first second. split.
  - apply (bool_decide_unpack _). vm_compute. exact I.
  - apply (bool_decide_unpack _). vm_compute. exact I.
Qed.

(** C2 at an instance: after a red request for "grey.png" the cache holds
    the source image under that path. *)
Lemma tint_requests_share_only_the_source_witness :
  let H := exImageHost in
  let v1 := snd (_createTintedTexture "grey.png" (CNum 0xff0000) "" newViewer) in
  ∃ img, textureCache v1 !! "grey.png" = Some (mkTexture (Some img) None).
Proof.
  intros H v1.
  destruct (tint_requests_share_only_the_source "grey.png" (CNum 0xff0000) "" newViewer
              (_createCanvasTexture (mkImage 1 1 [200; 0; 0; 255]%Z)))
    as (img & Hc & _).
  - reflexivity.
  - vm_compute. reflexivity.
  - by exists img.
Defined.

(** C7, on the code.  With neither a gradient nor a base colour the grey
    value does not pass through: [_parseColor] turns the absent colour
    into (200, 200, 200), the loop takes the flat-colour branch, and the
    grey pixel (100, 100, 100, 255) becomes (157, 157, 157, 255). *)
Theorem tint_without_colour_is_not_identity :
  let H := exImageHost in
  tintData None (Some (_parseColor CNone)) [100; 100; 100; 255]%Z
    = [157; 157; 157; 255]%Z
  ∧ (data <$> (fst (_createTintedTexture "grey.png" CNone "" newViewer) ≫= image))
    = Some [157; 157; 157; 255]%Z
  ∧ tintData None None [100; 100; 100; 255]%Z = [100; 100; 100; 255]%Z.
Proof.
  intros H. split; [|split]; vm_compute; reflexivity.
Qed.

(** ** UV layout *)

Lemma resolveUV_plain uv_size layout uv_offset texW texH :
  plainLayout layout →
  resolveUV uv_size layout uv_offset texW texH = plainUV uv_size uv_offset texW texH.
Proof.
  intros (Ha & Hx & Hy). unfold resolveUV, uvResult, plainUV.
  destruct uv_size as [s0 s1], uv_offset as [o0 o1]. rewrite Ha, Hx, Hy. simpl.
  by rewrite !Qcmult_1_r.
Qed.

Lemma resolveUV_length uv_size layout uv_offset texW texH :
  length (resolveUV uv_size layout uv_offset texW texH) = 8%nat.
Proof.
  unfold resolveUV. destruct (uvResult _ _ _) as [[[x1 y1] x2] y2].
  repeat case_decide; reflexivity.
Qed.

Section UV.
Context `{Host}.

Lemma boxFaceUV_length layouts pixel texW texH arr i :
  length (boxFaceUV layouts pixel texW texH arr i) = length arr.
Proof.
  unfold boxFaceUV. repeat case_match; try done; apply length_inserts.
Qed.

Lemma foldl_boxFaceUV_length layouts pixel texW texH js : ∀ arr,
  length (foldl (boxFaceUV layouts pixel texW texH) arr js) = length arr.
Proof.
  induction js as [|j js IH]; intros arr; [done|]. cbn [foldl].
  by rewrite IH, boxFaceUV_length.
Qed.

(** A face writes its own eight slots and no others. *)
Lemma boxFaceUV_other layouts pixel texW texH arr i j (k : nat) :
  i ≠ j → (k < 8)%nat →
  boxFaceUV layouts pixel texW texH arr j !! (i * 8 + k)%nat = arr !! (i * 8 + k)%nat.
Proof.
  intros Hij Hk. unfold boxFaceUV. repeat case_match; try done;
  destruct (decide (i < j)%nat).
  all: try (apply list_lookup_inserts_lt; lia).
  all: apply list_lookup_inserts_ge; rewrite resolveUV_length; lia.
Qed.

Lemma boxFaceUV_same layouts pixel texW texH arr i faceName layout uv_offset (k : nat) :
  faceMap !! i = Some faceName → layouts !! faceName = Some layout →
  layout_offset layout = Some uv_offset →
  (i * 8 + 8 ≤ length arr)%nat → (k < 8)%nat →
  boxFaceUV layouts pixel texW texH arr i !! (i * 8 + k)%nat
  = resolveUV (faceSize faceName pixel) layout uv_offset texW texH !! k.
Proof.
  intros Hf Hl Ho Hlen Hk. unfold boxFaceUV. rewrite Hf, Hl, Ho.
  rewrite list_lookup_inserts by (rewrite ?resolveUV_length; lia).
  f_equal. lia.
Qed.

Lemma boxUV_fold_face layouts pixel texW texH i faceName layout uv_offset (k : nat) :
  faceMap !! i = Some faceName → layouts !! faceName = Some layout →
  layout_offset layout = Some uv_offset →
  length boxGeometryUV = 48%nat → (k < 8)%nat →
  foldl (boxFaceUV layouts pixel texW texH) boxGeometryUV (seq 0 6) !! (i * 8 + k)%nat
  = resolveUV (faceSize faceName pixel) layout uv_offset texW texH !! k.
Proof.
  intros Hf Hl Ho Hlen Hk.
  assert (i < 6)%nat as Hi by (apply lookup_lt_Some in Hf; simpl in Hf; lia).
  assert (∀ js arr, i ∉ js →
            foldl (boxFaceUV layouts pixel texW texH) arr js !! (i * 8 + k)%nat
            = arr !! (i * 8 + k)%nat) as Hskip.
  { induction js as [|j js IH]; intros arr Hn; [done|].
    apply not_elem_of_cons in Hn as [Hij Hn]. cbn [foldl].
    rewrite IH by done. by apply boxFaceUV_other. }
  assert (seq 0 6 = seq 0 i ++ i :: seq (S i) (5 - i)) as ->.
  { clear -Hi. do 6 (destruct i as [|i]; [reflexivity|]). lia. }
  rewrite foldl_app. cbn [foldl].
  rewrite Hskip by (rewrite elem_of_seq; lia).
  eapply boxFaceUV_same; try done.
  rewrite foldl_boxFaceUV_length, Hlen. lia.
Qed.

Lemma _createQuadMesh_uv wire shape color nodeName texture ro settings pixel :
  shape_settings shape = Some settings → settings_size settings = Some pixel →
  uv <$> _createQuadMesh wire shape color nodeName texture ro
  = Some (quadUV shape pixel texture).
Proof.
  intros Hs Hp. unfold _createQuadMesh. rewrite Hs. simpl. rewrite Hp. simpl.
  by destruct (if bool_decide _ then _ else _) as [w h].
Qed.

Lemma _createBoxMesh_uv wire shape color nodeName texture off settings pixel :
  shape_settings shape = Some settings → settings_size settings = Some pixel →
  uv <$> _createBoxMesh wire shape color nodeName texture off
  = Some (boxUV shape pixel texture).
Proof.
  intros Hs Hp. unfold _createBoxMesh. rewrite Hs. simpl. by rewrite Hp.
Qed.

(** C8. For a layout with angle 0 and no mirroring, the resolved UVs are
    the raw offset/size rectangle in normalized coordinates with the
    vertical flip, [(ox / texW, 1 - oy / texH)] and
    [((ox + sx) / texW, 1 - (oy + sy) / texH)], written to the four vertex
    slots in the order bottom-left, bottom-right, top-left, top-right:
    this is the [uv] attribute of the quad mesh for its front layout, and
    the eight slots of the face in the [uv] attribute of the box mesh,
    both meshes being produced for a shape that has a size. *)
Theorem plain_layout_uv (wire : bool) (shape : Shape) (color : Z) (nodeName : string)
    (tex : Texture) (settings : Settings) (pixel : Vec3) (layout : FaceLayout)
    (uv_size uv_offset : Qc * Qc) (texW texH : Z) :
  plainLayout layout → layout_offset layout = Some uv_offset →
  texWidth tex = Some texW → texHeight tex = Some texH →
  shape_settings shape = Some settings → settings_size settings = Some pixel →
  resolveUV uv_size layout uv_offset texW texH = plainUV uv_size uv_offset texW texH
  ∧ (textureLayout shape ≫= (.!! "front") = Some layout →
     uv <$> _createQuadMesh wire shape color nodeName (Some tex) 0
     = Some (plainUV (vx pixel, vy pixel) uv_offset texW texH))
  ∧ (∀ layouts faceIdx faceName usePolygonOffset,
       textureLayout shape = Some layouts → faceMap !! faceIdx = Some faceName →
       layouts !! faceName = Some layout → length boxGeometryUV = 48%nat →
       ∃ m, _createBoxMesh wire shape color nodeName (Some tex) usePolygonOffset = Some m
            ∧ ∀ k : nat, (k < 8)%nat →
                uv m !! (faceIdx * 8 + k)%nat
                = plainUV (faceSize faceName pixel) uv_offset texW texH !! k).
Proof.
  intros Hp Ho Hw Hh Hs Hz. split; [by apply resolveUV_plain|]. split.
  - intros Hf. rewrite (_createQuadMesh_uv _ _ _ _ _ _ settings pixel) by done.
    f_equal. unfold quadUV. rewrite Hf, Hw, Hh, Ho. by apply resolveUV_plain.
  - intros layouts faceIdx faceName off Hl Hf Hlay Hlen.
    pose proof (_createBoxMesh_uv wire shape color nodeName (Some tex) off settings pixel
                  Hs Hz) as Hu.
    destruct (_createBoxMesh wire shape color nodeName (Some tex) off) as [m|]; [|done].
    simpl in Hu. injection Hu as Hu. exists m. split; [done|]. intros k Hk. rewrite Hu.
    unfold boxUV. rewrite Hl, Hw, Hh.
    rewrite decide_True.
    + rewrite <- (resolveUV_plain _ layout) by done. by eapply boxUV_fold_face.
    + assert (size layouts ≠ 0%nat); [|lia].
      apply (map_size_non_empty_iff layouts). intros ->. by rewrite lookup_empty in Hlay.
Qed.

End UV.

(** C8 at an instance: the quad and the front face of the box of the
    example shape on the 64 x 32 atlas. *)
Lemma plain_layout_uv_witness :
  let H := offlineHost in
  uv <$> _createQuadMesh false (exShape "quad") 0 "Eye" (Some exAtlas) 0
  = Some (plainUV (Qc_of_Z 10, Qc_of_Z 12) (Qc_of_Z 8, Qc_of_Z 4) 64 32)
  ∧ ∃ m, _createBoxMesh false (exShape "box") 0 "Head" (Some exAtlas) false = Some m
         ∧ uv m !! (4 * 8 + 2)%nat
           = plainUV (Qc_of_Z 10, Qc_of_Z 12) (Qc_of_Z 8, Qc_of_Z 4) 64 32 !! 2%nat.
Proof.
  intros H.
  assert (plainLayout exLayout) as Hp by (repeat split; reflexivity).
  split.
  - refine (proj1 (proj2 (plain_layout_uv false (exShape "quad") 0 "Eye" exAtlas
              (mkSettings (Some exPixel) None) exPixel exLayout
              (Qc_of_Z 10, Qc_of_Z 12) (Qc_of_Z 8, Qc_of_Z 4) 64 32 Hp _ _ _ _ _)) _);
      reflexivity.
  - assert (length boxGeometryUV = 48%nat) as Hlen by reflexivity.
    destruct (proj2 (proj2 (plain_layout_uv false (exShape "box") 0 "Head" exAtlas
              (mkSettings (Some exPixel) None) exPixel exLayout
              (Qc_of_Z 10, Qc_of_Z 12) (Qc_of_Z 8, Qc_of_Z 4) 64 32 Hp
              eq_refl eq_refl eq_refl eq_refl eq_refl))
              {["front" := exLayout]} 4%nat "front" false eq_refl eq_refl eq_refl Hlen)
      as (m & Hm & Hk).
    exists m. split; [exact Hm|]. apply Hk. lia.
Defined.

(** ** Cosmetic attachment *)

Lemma ModelNode_ind (P : ModelNode → Prop) :
  (∀ nm id pos ori shp cs, Forall P cs → P (mkModelNode nm id pos ori shp cs)) →
  ∀ node, P node.
Proof.
  intros Hrec. fix IH 1. intros [nm id pos ori shp cs]. apply Hrec.
  induction cs as [|c cs IHcs]; constructor; [apply IH|apply IHcs].
Qed.

Lemma sameObject_refl g : sameObject g g.
Proof. by repeat split. Qed.

Lemma sameObject_trans g1 g2 g3 : sameObject g1 g2 → sameObject g2 g3 → sameObject g1 g3.
Proof.
  intros (?&?&?&?&?) (?&?&?&?&?). repeat split; try congruence. lia.
Qed.

Lemma stable_refl ch : stable ch ch.
Proof. intros p g Hg. exists g. split; [done|apply sameObject_refl]. Qed.

Lemma stable_trans ch1 ch2 ch3 : stable ch1 ch2 → stable ch2 ch3 → stable ch1 ch3.
Proof.
  intros H12 H23 p g Hg. destruct (H12 p g Hg) as (g2 & Hg2 & S2).
  destruct (H23 p g2 Hg2) as (g3 & Hg3 & S3). exists g3. split; [done|].
  by eapply sameObject_trans.
Qed.

(** Adding a child somewhere moves no object and changes no transform. *)
Lemma updateAt_addChild_stable (group : Object3D) (q : Path) : ∀ o,
  stable o (updateAt (addChild group) q o).
Proof.
  induction q as [|j q IH]; intros o p g Hg.
  - simpl. destruct p as [|i p]; simpl in *.
    + injection Hg as <-. eexists. split; [done|]. repeat split; simpl; try done.
      rewrite length_app. lia.
    + destruct (children o !! i) as [c|] eqn:Hc; [|done]. simpl in Hg.
      rewrite (lookup_app_l_Some _ _ _ _ Hc). simpl. exists g.
      split; [done|apply sameObject_refl].
  - destruct p as [|i p]; simpl in *.
    + injection Hg as <-. eexists. split; [done|]. repeat split; simpl; try done.
      by rewrite length_alter.
    + destruct (children o !! i) as [c|] eqn:Hc; [|done]. simpl in Hg.
      destruct (decide (i = j)) as [->|Hij].
      * rewrite list_lookup_alter_eq, Hc. simpl. by apply IH.
      * rewrite list_lookup_alter_ne by done. rewrite Hc. simpl.
        exists g. split; [done|apply sameObject_refl].
Qed.

Lemma attach_stable group parent ch : stable ch (fst (attach group parent ch)).
Proof. apply updateAt_addChild_stable. Qed.

(** The attached group is the new last child of the object it is added to. *)
Lemma objectAt_attach (group : Object3D) (bone : Path) : ∀ ch b,
  objectAt ch bone = Some b →
  objectAt (updateAt (addChild group) bone ch) (bone ++ [length (children b)])
  = Some group.
Proof.
  induction bone as [|i bone IH]; intros ch b Hb; simpl in *.
  - injection Hb as <-. by rewrite lookup_app_r, Nat.sub_diag.
  - destruct (children ch !! i) as [c|] eqn:Hc; [|done]. simpl in Hb.
    rewrite list_lookup_alter_eq, Hc. simpl. by apply IH.
Qed.

Section Attachment.
Context `{Host}.

Lemma _renderCosmeticNode_unfold wire node parent color partType texture zOffset
    shadowTexture ch :
  _renderCosmeticNode wire node parent color partType texture zOffset shadowTexture ch
  = let nodeName := nodeNameOf node in
    let matchingBone := _findBoneByName ch nodeName in
    let group := cosmeticGroup node (bool_decide (is_Some matchingBone)) zOffset in
    match cosmeticMesh wire node nodeName color partType texture shadowTexture with
    | Thrown _ => Thrown ch
    | Done m =>
        let group := from_option (λ m, addChild (meshObject m) group) group m in
        let '(ch1, groupRef) := attach group (default parent matchingBone) ch in
        eachCosmeticChild wire color partType texture shadowTexture groupRef zOffset
          (node_children node) ch1
    end.
Proof.
  destruct node as [nm id pos ori shp cs]. cbn [_renderCosmeticNode node_children].
  cbv zeta.
  destruct (cosmeticMesh _ _ _ _ _ _ _) as [m|]; [|done].
  destruct (attach _ _ ch) as [ch1 groupRef].
  revert ch1. induction cs as [|c cs IH]; intros ch1; [done|].
  cbn [eachCosmeticChild]. cbv zeta.
  destruct (match _findBoneByName ch1 (nodeNameOf c) with Some _ => _ | None => _ end);
    [apply IH|done].
Qed.

(** Instantiating a cosmetic node, with all its descendants, leaves every
    object already in the graph where and as it is. *)
Lemma _renderCosmeticNode_stable wire color partType texture shadowTexture node :
  ∀ parent zOffset ch,
    stable ch (stateOf (_renderCosmeticNode wire node parent color partType texture
                          zOffset shadowTexture ch)).
Proof.
  induction node as [nm id pos ori shp cs IH] using ModelNode_ind.
  intros parent zOffset ch. rewrite _renderCosmeticNode_unfold. cbv zeta.
  destruct (cosmeticMesh _ _ _ _ _ _ _) as [m|]; [|apply stable_refl].
  match goal with
  | |- context [attach ?group ?target ch] =>
      pose proof (attach_stable group target ch) as Hs;
      destruct (attach group target ch) as [ch1 groupRef]
  end.
  simpl in Hs. eapply stable_trans; [exact Hs|]. clear Hs.
  cbn [node_children].
  revert ch1. induction cs as [|c cs IHcs]; intros ch1; [apply stable_refl|].
  apply Forall_cons in IH as [Hc Hcs].
  cbn [eachCosmeticChild]. cbv zeta.
  set (res := match _findBoneByName ch1 (nodeNameOf c) with Some _ => _ | None => _ end).
  assert (stable ch1 (stateOf res)) as Hr.
  { unfold res. destruct (_findBoneByName ch1 (nodeNameOf c)); apply Hc. }
  destruct res as [ch2|ch2]; simpl in Hr; [|done].
  eapply stable_trans; [exact Hr|]. by apply IHcs.
Qed.

Lemma eachCosmeticChild_stable wire color partType texture shadowTexture groupRef z cs :
  ∀ ch, stable ch (stateOf (eachCosmeticChild wire color partType texture shadowTexture
                              groupRef z cs ch)).
Proof.
  induction cs as [|c cs IH]; intros ch; [apply stable_refl|].
  cbn [eachCosmeticChild]. cbv zeta.
  set (res := match _findBoneByName ch (nodeNameOf c) with Some _ => _ | None => _ end).
  assert (stable ch (stateOf res)) as Hr.
  { unfold res. destruct (_findBoneByName ch (nodeNameOf c));
      apply _renderCosmeticNode_stable. }
  destruct res as [ch2|ch2]; simpl in Hr; [|done].
  eapply stable_trans; [exact Hr|]. by apply IH.
Qed.

(** The group of a node that attaches to a bone: its orientation is the
    authored one, its position is the z-offset alone. *)
Lemma cosmeticGroup_attached node zOffset :
  name (cosmeticGroup node true zOffset) = nodeNameOf node +:+ "_cosmetic"
  ∧ quaternion (cosmeticGroup node true zOffset)
    = default quat_identity (node_orientation node)
  ∧ position (cosmeticGroup node true zOffset) = mkVec3 0 0 zOffset
  ∧ mesh (cosmeticGroup node true zOffset) = None.
Proof.
  unfold cosmeticGroup. case_decide as Hz.
  - subst zOffset. by destruct (node_orientation node).
  - destruct (node_orientation node); simpl; by rewrite Qcplus_0_l.
Qed.

(** One call of [_renderCosmeticNode].  When the (non-empty) name of a
    cosmetic node is the name of an object of the live graph, [bone] being
    the first such object, and building the node's mesh does not throw,
    then after the node and its descendants are instantiated the graph
    has, as the child added last to [bone] at that moment, a group named
    [<name>_cosmetic] whose quaternion is the node's authored orientation
    (the identity when it has none) and whose position is [(0, 0, z)] for
    the z-offset [z] the call received.  The authored position and the
    shape offset do not enter. *)
Lemma cosmetic_node_on_matching_bone wire node parent color partType texture zOffset
    shadowTexture ch bone b m :
  _findBoneByName ch (nodeNameOf node) = Some bone →
  objectAt ch bone = Some b →
  cosmeticMesh wire node (nodeNameOf node) color partType texture shadowTexture = Done m →
  ∃ g,
    objectAt (stateOf (_renderCosmeticNode wire node parent color partType texture zOffset
                         shadowTexture ch))
             (bone ++ [length (children b)]) = Some g
    ∧ name g = nodeNameOf node +:+ "_cosmetic"
    ∧ quaternion g = default quat_identity (node_orientation node)
    ∧ position g = mkVec3 0 0 zOffset.
Proof.
  intros Hbone Hb Hm. rewrite _renderCosmeticNode_unfold. cbv zeta.
  rewrite Hm, Hbone. simpl default.
  set (group := from_option _ _ m).
  pose proof (objectAt_attach group bone ch b Hb) as Hat.
  unfold attach. rewrite Hb. simpl from_option.
  destruct (eachCosmeticChild_stable wire color partType texture shadowTexture
              (bone ++ [length (children b)]) zOffset (node_children node)
              (updateAt (addChild group) bone ch) _ _ Hat) as (g & Hg & Hn & Hp & Hq & _).
  exists g. split; [done|].
  destruct (cosmeticGroup_attached node zOffset) as (Gn & Gq & Gp & _).
  rewrite Hn, Hp, Hq. unfold group. destruct m; simpl; by rewrite ?Gn, ?Gq, ?Gp.
Qed.

End Attachment.

(** C5, on the code.  The z-offset of the slot reaches a node that
    attaches to a bone when the node is at the top of the cosmetic model
    or directly below a node at the top; below a second node that matches
    no bone it is lost.  In the pants slot (z-offset 0.001), on the
    skeleton with the bone Pelvis, the node Pelvis of the models [Pelvis]
    and [Wrap > Pelvis] attaches to the bone at [(0, 0, 0.001)], and the
    node Pelvis of the model [Wrap > Deco > Pelvis] attaches to the bone
    at [(0, 0, 0)].  In the three cases the group is the child of the
    bone, and the authored position (1, 2, 3) of the node is not
    applied. *)
Theorem cosmetic_offset_is_lost_below_two_unmatched_nodes :
  let H := offlineHost in
  let render nodes0 :=
    stateOf (_renderCosmeticModel false nodes0 [] 0x2c3e50 "pants" None (QcOf 1 1000) None
               exSkeleton) in
  let attached ch := (λ g, (name g, position g)) <$> objectAt ch [0%nat; 0%nat] in
  _findBoneByName exSkeleton "Pelvis" = Some [0%nat]
  ∧ node_position exPelvisNode = Some (mkVec3 1 2 (Qc_of_Z 3))
  ∧ attached (render [exPelvisNode])
    = Some ("Pelvis_cosmetic", mkVec3 0 0 (QcOf 1 1000))
  ∧ attached (render [exNode "Wrap" (mkVec3 0 1 0) [exPelvisNode]])
    = Some ("Pelvis_cosmetic", mkVec3 0 0 (QcOf 1 1000))
  ∧ attached (render exNestedModel) = Some ("Pelvis_cosmetic", mkVec3 0 0 0)
  ∧ mkVec3 0 0 0 ≠ mkVec3 0 0 (QcOf 1 1000).
Proof.
  intros H render attached. split; [reflexivity|]. split; [reflexivity|].
  repeat split; apply (bool_decide_unpack _); vm_compute; exact I.
Qed.

(** ** Keyframe selection and easing *)

Lemma insertByTime_ascending k l : ascending l → ascending (insertByTime k l).
Proof.
  induction l as [|k' l IH]; simpl.
  - by split.
  - intros [Hall Hs]. case_decide as Hk; simpl.
    + split; [|done]. constructor; [done|].
      eapply Forall_impl; [exact Hall|]. intros x Hx. simpl in Hx. qc_lra.
    + split; [|by apply IH].
      apply Qcnot_le_lt in Hk.
      rewrite Forall_forall. intros x Hx.
      rewrite (insertByTime_Permutation k l) in Hx.
      apply elem_of_cons in Hx as [->|Hx].
      * qc_lra.
      * by rewrite Forall_forall in Hall; apply Hall.
Qed.

Lemma sortByTime_ascending l : ascending (sortByTime l).
Proof.
  induction l as [|k l IH]; simpl; [done|]. by apply insertByTime_ascending.
Qed.

Lemma scanIdx_ascending l time0 :
  ascending l → ∀ i idx1 : Z,
  let j := scanIdx l time0 i idx1 in
  (j = idx1 ∧ ∀ k, k ∈ l → time0 < time k)
  ∨ ((i ≤ j < i + Z.of_nat (length l))%Z
     ∧ ∀ (m : nat) k, l !! m = Some k → (Z.of_nat m ≤ j - i)%Z ↔ time k ≤ time0).
Proof.
  induction l as [|k l IH]; intros Hs i idx1; simpl.
  - left. split; [done|]. intros k Hk. by apply elem_of_nil in Hk.
  - destruct Hs as [Hall Hs]. case_decide as Hk.
    + right. destruct (IH Hs (i + 1)%Z i) as [[Hj Hgt]|[Hj Hm]].
      * rewrite Hj. split; [lia|]. intros [|m] k' Hk'; simpl in Hk'.
        -- injection Hk' as <-. split; [done|lia].
        -- split; [lia|]. intros Hle.
           assert (time0 < time k') by (apply Hgt; by eapply list_elem_of_lookup_2).
           qc_lra.
      * split; [lia|]. intros [|m] k' Hk'; simpl in Hk'.
        -- injection Hk' as <-. split; [done|lia].
        -- rewrite <- (Hm m k' Hk'). lia.
    + left. split; [done|]. apply Qcnot_le_lt in Hk. intros k' [->|Hk']%elem_of_cons; [done|].
      rewrite Forall_forall in Hall. specialize (Hall _ Hk'). simpl in Hall. qc_lra.
Qed.

Lemma ascending_lookup l (m n : nat) a b :
  ascending l → l !! m = Some a → l !! n = Some b → (m ≤ n)%nat → time a ≤ time b.
Proof.
  revert m n. induction l as [|k l IH]; intros m n Hs Ha Hb Hmn; [done|].
  destruct Hs as [Hall Hs]. destruct m as [|m], n as [|n]; simpl in *; try lia.
  - injection Ha as <-. injection Hb as <-. apply Qcle_refl.
  - injection Ha as <-. rewrite Forall_forall in Hall. apply Hall.
    by eapply list_elem_of_lookup_2.
  - eapply (IH m n); eauto with lia.
Qed.


(** The three brackets of [bracketOf] on an ascending list: which keyframes
    are selected, and the fraction before it is clamped *)
Lemma bracketOf_cases sorted time0 dur b :
  ascending sorted → bracketOf sorted time0 dur = Some b →
  ((∀ k, k ∈ sorted → time0 < time k)
   ∧ latestOf sorted (k1 b) ∧ earliestOf sorted (k2 b)
   ∧ t b = clamp01 (if decide (0 < time (k2 b) + dur - time (k1 b))
                    then (time0 + dur - time (k1 b)) / (time (k2 b) + dur - time (k1 b))
                    else 0))
  ∨ ((∀ k, k ∈ sorted → time k ≤ time0)
     ∧ latestOf sorted (k1 b) ∧ earliestOf sorted (k2 b)
     ∧ t b = clamp01 (if decide (0 < dur - time (k1 b) + time (k2 b))
                      then (time0 - time (k1 b)) / (dur - time (k1 b) + time (k2 b))
                      else 0))
  ∨ (latestOf (filter (λ k, time k ≤ time0) sorted) (k1 b)
     ∧ earliestOf (filter (λ k, time0 < time k) sorted) (k2 b)
     ∧ t b = clamp01 (if decide (0 < time (k2 b) - time (k1 b))
                      then (time0 - time (k1 b)) / (time (k2 b) - time (k1 b))
                      else 0)).
Proof.
  intros Hs. unfold bracketOf.
  pose proof (scanIdx_ascending sorted time0 Hs 0 (-1)) as Hscan. simpl in Hscan.
  set (idx1 := scanIdx sorted time0 0 (-1)) in *.
  set (len := Z.of_nat (length sorted)).
  assert (∀ i x, nthZ sorted i = Some x → ∃ m : nat, i = Z.of_nat m ∧ sorted !! m = Some x)
    as Hnth.
  { intros i x. unfold nthZ. case_decide; [|done]. intros Hx.
    exists (Z.to_nat i). split; [lia|done]. }
  assert (∀ ka kb (ma : nat), sorted !! ma = Some ka → sorted !! 0%nat = Some kb →
            Z.of_nat ma = (len - 1)%Z → latestOf sorted ka ∧ earliestOf sorted kb) as Hends.
  { intros ka kb ma Ea Eb Hma. split; (split; [by eapply list_elem_of_lookup_2|]).
    - intros k (m & Hk)%list_elem_of_lookup. eapply (ascending_lookup sorted m ma); eauto.
      apply lookup_lt_Some in Hk. unfold len in Hma. lia.
    - intros k (m & Hk)%list_elem_of_lookup. eapply (ascending_lookup sorted 0 m); eauto. lia. }
  destruct Hscan as [[Hj Hgt]|[Hj Hm]].
  - (* every keyframe is later than [time0] *)
    rewrite decide_True by done.
    destruct (nthZ sorted (len - 1)) as [ka|] eqn:Ea; [|done].
    destruct (nthZ sorted 0) as [kb|] eqn:Eb; [|done]. simpl. intros [= <-]. simpl.
    apply Hnth in Ea as (ma & Hma & Ea). apply Hnth in Eb as (mb & Hmb & Eb).
    assert (mb = 0%nat) as -> by lia.
    destruct (Hends ka kb ma Ea Eb) as [Hl He]; [lia|].
    left. by repeat split; try apply Hl; try apply He.
  - rewrite decide_False by lia.
    case_decide as Hlast.
    + (* every keyframe is at or before [time0] *)
      destruct (nthZ sorted idx1) as [ka|] eqn:Ea; [|done].
      destruct (nthZ sorted 0) as [kb|] eqn:Eb; [|done]. simpl. intros [= <-]. simpl.
      apply Hnth in Ea as (ma & Hma & Ea). apply Hnth in Eb as (mb & Hmb & Eb).
      assert (mb = 0%nat) as -> by lia.
      destruct (Hends ka kb ma Ea Eb) as [? ?]; [lia|].
      right; left. split; [|done].
      intros k (m & Hk)%list_elem_of_lookup. apply (Hm m k Hk).
      apply lookup_lt_Some in Hk. unfold len in Hlast. lia.
    + (* the ordinary bracket *)
      destruct (nthZ sorted idx1) as [ka|] eqn:Ea; [|done].
      destruct (nthZ sorted (idx1 + 1)) as [kb|] eqn:Eb; [|done]. simpl. intros [= <-]. simpl.
      apply Hnth in Ea as (ma & Hma & Ea). apply Hnth in Eb as (mb & Hmb & Eb).
      assert (time ka ≤ time0) as Hka by (apply (Hm ma ka Ea); lia).
      assert (time0 < time kb) as Hkb.
      { apply Qcnot_le_lt. intros Hle. apply (Hm mb kb Eb) in Hle. lia. }
      right; right. split; [|split; [|done]].
      * split.
        { apply list_elem_of_filter. split; [done|]. by eapply list_elem_of_lookup_2. }
        intros k [Hle (m & Hk)%list_elem_of_lookup]%list_elem_of_filter.
        apply (Hm m k Hk) in Hle. eapply (ascending_lookup sorted m ma); eauto. lia.
      * split.
        { apply list_elem_of_filter. split; [done|]. by eapply list_elem_of_lookup_2. }
        intros k [Hlt (m & Hk)%list_elem_of_lookup]%list_elem_of_filter.
        eapply (ascending_lookup sorted mb m); eauto.
        destruct (decide (mb ≤ m)%nat); [done|].
        assert (time k ≤ time0) by (apply (Hm m k Hk); lia). qc_lra.
Qed.

Lemma clamp01_range (x : Qc) : 0 ≤ clamp01 x ∧ clamp01 x ≤ 1.
Proof.
  unfold clamp01, Qcmax, Qcmin. repeat case_decide; split; qc_lra.
Qed.

(** Smoothstep stays in the unit interval *)
Lemma smoothstep_range (x : Qc) :
  0 ≤ x → x ≤ 1 → 0 ≤ x * x * (Qc_of_Z 3 - 2 * x) ∧ x * x * (Qc_of_Z 3 - 2 * x) ≤ 1.
Proof.
  intros H0 H1.
  assert (Qc_of_Z 3 = 1 + 1 + 1) as -> by (by apply Qc_is_canon).
  split.
  - apply Qcmult_nonneg; [by apply Qcmult_nonneg|]. qc_lra.
  - assert (0 ≤ (1 - x) * (1 - x) * (1 + 2 * x)) as Hp.
    { apply Qcmult_nonneg; [apply Qcmult_nonneg|]; qc_lra. }
    assert ((1 - x) * (1 - x) * (1 + 2 * x) = 1 - x * x * (1 + 1 + 1 - 2 * x)) as E by ring.
    rewrite E in Hp. qc_lra.
Qed.

Lemma bracketOf_fraction sorted time0 dur b :
  bracketOf sorted time0 dur = Some b → 0 ≤ t b ∧ t b ≤ 1.
Proof.
  unfold bracketOf. intros Hb.
  repeat case_decide;
    repeat (match type of Hb with context [nthZ ?l ?i] => destruct (nthZ l i); [|done] end);
    simpl in Hb; injection Hb as <-; apply clamp01_range.
Qed.

(** X1. Whatever the track, the time and the duration, the fraction [t]
    of a bracket returned by [_findKeyframes] lies between 0 and 1, and so
    does the eased fraction the interpolators blend with (smoothstep for a
    smooth keyframe, [t] itself otherwise); the easing keeps the two ends:
    0 goes to 0 and 1 goes to 1. *)
Theorem bracket_fraction_in_unit_interval (keyframes : list Keyframe) (time0 dur : Qc)
    (b : Bracket) :
  _findKeyframes keyframes time0 dur = Some b →
  (0 ≤ t b ∧ t b ≤ 1) ∧ (0 ≤ ease b ∧ ease b ≤ 1)
  ∧ (t b = 0 → ease b = 0) ∧ (t b = 1 → ease b = 1).
Proof.
  intros Hb.
  assert (0 ≤ t b ∧ t b ≤ 1) as [H0 H1].
  { destruct keyframes as [|ka [|kb rest]]; [done| |by eapply bracketOf_fraction].
    injection Hb as <-. simpl. split; qc_lra. }
  split; [done|]. unfold ease. destruct (smooth b); [|done].
  split; [by apply smoothstep_range|]. split; intros ->.
  - ring.
  - by apply Qc_is_canon.
Qed.

Lemma Qcdiv_unit (a b : Qc) : 0 ≤ a → a < b → 0 ≤ a / b ∧ a / b < 1.
Proof.
  intros Ha Hab. assert (0 < b) as Hb by qc_lra.
  assert (b ≠ 0) as Hb0 by (intros ->; by apply (Qclt_not_eq 0 0)).
  assert (a / b * b = a) as E by (field; done).
  split.
  - apply Qcnot_lt_le. intros Hneg.
    pose proof (Qcmult_lt_compat_r _ _ _ Hb Hneg) as X.
    rewrite E, Qcmult_0_l in X. qc_lra.
  - apply Qcnot_le_lt. intros Hge.
    pose proof (Qcmult_le_compat_r _ _ b Hge) as X.
    rewrite E, Qcmult_1_l in X. assert (b ≤ a) by (apply X; qc_lra). qc_lra.
Qed.

Lemma clamp01_id (x : Qc) : 0 ≤ x → x ≤ 1 → clamp01 x = x.
Proof.
  intros H0 H1. unfold clamp01, Qcmax, Qcmin.
  repeat case_decide; try done; apply Qcle_antisym; qc_lra.
Qed.

Lemma latestOf_Permutation l l' k : l ≡ₚ l' → latestOf l k → latestOf l' k.
Proof. intros Hp [Hk Hall]. split; [by rewrite <- Hp|]. intros k'. rewrite <- Hp. apply Hall. Qed.

Lemma earliestOf_Permutation l l' k : l ≡ₚ l' → earliestOf l k → earliestOf l' k.
Proof. intros Hp [Hk Hall]. split; [by rewrite <- Hp|]. intros k'. rewrite <- Hp. apply Hall. Qed.

(** The cases of [_findKeyframes], on the track as given *)
Lemma _findKeyframes_cases keyframes time0 dur b :
  _findKeyframes keyframes time0 dur = Some b →
  ((∀ k, k ∈ keyframes → time0 < time k)
   ∧ latestOf keyframes (k1 b) ∧ earliestOf keyframes (k2 b))
  ∨ ((∀ k, k ∈ keyframes → time k ≤ time0)
     ∧ latestOf keyframes (k1 b) ∧ earliestOf keyframes (k2 b)
     ∧ (time (k1 b) = time0 → t b = 0))
  ∨ (latestOf (filter (λ k, time k ≤ time0) keyframes) (k1 b)
     ∧ earliestOf (filter (λ k, time0 < time k) keyframes) (k2 b)
     ∧ t b = (time0 - time (k1 b)) / (time (k2 b) - time (k1 b))).
Proof.
  destruct keyframes as [|ka [|kb rest]].
  - done.
  - simpl. intros [= <-]. simpl.
    assert (latestOf [ka] ka ∧ earliestOf [ka] ka) as [Hl He].
    { split; (split; [apply list_elem_of_here|]);
        intros k ->%list_elem_of_singleton; apply Qcle_refl. }
    destruct (decide (time ka ≤ time0)) as [Hle|Hgt%Qcnot_le_lt].
    + right; left. repeat split; try apply Hl; try apply He; try done.
      by intros k ->%list_elem_of_singleton.
    + left. repeat split; try apply Hl; try apply He; try done.
      by intros k ->%list_elem_of_singleton.
  - intros Hb. change (bracketOf (sortByTime (ka :: kb :: rest)) time0 dur = Some b) in Hb.
    pose proof (sortByTime_Permutation (ka :: kb :: rest)) as Hp.
    destruct (bracketOf_cases _ _ _ _ (sortByTime_ascending _) Hb)
      as [(Hall & Hl & He & Ht)|[(Hall & Hl & He & Ht)|(Hl & He & Ht)]].
    + left. split; [by intros k; rewrite <- Hp; apply Hall|].
      split; [by eapply latestOf_Permutation|by eapply earliestOf_Permutation].
    + right; left. split; [by intros k; rewrite <- Hp; apply Hall|].
      split; [by eapply latestOf_Permutation|]. split; [by eapply earliestOf_Permutation|].
      intros E. rewrite Ht, E.
      replace (time0 - time0) with 0 by ring.
      assert (∀ x, 0 / x = 0) as Hz by (intros x; unfold Qcdiv; apply Qcmult_0_l).
      rewrite Hz. clear Ht. destruct (decide _); apply clamp01_id; qc_lra.
    + right; right.
      split; [eapply latestOf_Permutation; [|exact Hl]; by rewrite Hp|].
      split; [eapply earliestOf_Permutation; [|exact He]; by rewrite Hp|].
      destruct Hl as [[H1 _]%list_elem_of_filter _].
      destruct He as [[H2 _]%list_elem_of_filter _].
      rewrite Ht. clear Ht. rewrite decide_True by qc_lra.
      assert (0 ≤ (time0 - time (k1 b)) / (time (k2 b) - time (k1 b))
              ∧ (time0 - time (k1 b)) / (time (k2 b) - time (k1 b)) < 1) as [? ?]
        by (apply Qcdiv_unit; qc_lra).
      apply clamp01_id; qc_lra.
Qed.

(** X2. Whatever the order of the track given to [_findKeyframes]: when
    the track has a keyframe at or before the time and a keyframe after
    it, [k1] is a latest keyframe among those at or before the time, [k2]
    an earliest keyframe among those after it, and [t] is the elapsed
    share of the interval between them.  When every keyframe is after the
    time, or every keyframe is at or before it, the bracket wraps around:
    [k1] is a latest keyframe of the track and [k2] an earliest one. *)
Theorem bracket_selects_neighbours (keyframes : list Keyframe) (time0 dur : Qc)
    (b : Bracket) :
  _findKeyframes keyframes time0 dur = Some b →
  ((∃ k, k ∈ keyframes ∧ time k ≤ time0) → (∃ k, k ∈ keyframes ∧ time0 < time k) →
   latestOf (filter (λ k, time k ≤ time0) keyframes) (k1 b)
   ∧ earliestOf (filter (λ k, time0 < time k) keyframes) (k2 b)
   ∧ t b = (time0 - time (k1 b)) / (time (k2 b) - time (k1 b)))
  ∧ ((∀ k, k ∈ keyframes → time0 < time k) ∨ (∀ k, k ∈ keyframes → time k ≤ time0) →
     latestOf keyframes (k1 b) ∧ earliestOf keyframes (k2 b)).
Proof.
  intros Hb.
  destruct (_findKeyframes_cases _ _ _ _ Hb)
    as [(Hall & Hl & He)|[(Hall & Hl & He & _)|(Hl & He & Ht)]].
  - split; [|done]. intros (k & Hk & Hle) _. specialize (Hall k Hk). qc_lra.
  - split; [|done]. intros _ (k & Hk & Hlt). specialize (Hall k Hk). qc_lra.
  - split; [done|].
    destruct Hl as [[H1 Hin1]%list_elem_of_filter _].
    destruct He as [[H2 Hin2]%list_elem_of_filter _].
    intros [Hall|Hall].
    + specialize (Hall _ Hin1). qc_lra.
    + specialize (Hall _ Hin2). qc_lra.
Qed.

Lemma lerpVectors_0 v1 v2 : lerpVectors v1 v2 0 = v1.
Proof.
  destruct v1, v2. unfold lerpVectors. simpl. f_equal; ring.
Qed.

Section AtKeyframe.
Context `{Host}.

(** X3. Sampling a track at the time of one of its keyframes gives that
    keyframe: the position is the keyframe's delta scaled by [SCALE], and
    the orientation is the blend at fraction 0 that starts from the
    keyframe's delta (for some keyframe [k] of the track with that time,
    when several share it). *)
Theorem sampling_at_a_keyframe_time (keyframes : list Keyframe) (time0 dur : Qc) :
  (∃ k, k ∈ keyframes ∧ time k = time0) →
  ∃ k k', k ∈ keyframes ∧ time k = time0 ∧ k' ∈ keyframes
    ∧ _interpolatePosition keyframes time0 dur = Some (multiplyScalar (deltaVec k) SCALE)
    ∧ _interpolateQuaternion keyframes time0 dur
      = Some (slerpQuaternions (deltaQuat k) (deltaQuat k') 0).
Proof.
  intros (k & Hk & Ht).
  destruct (_findKeyframes_is_Some keyframes time0 dur) as [b Hb].
  { intros ->. by apply elem_of_nil in Hk. }
  assert (time (k1 b) = time0 ∧ t b = 0 ∧ k1 b ∈ keyframes ∧ k2 b ∈ keyframes)
    as (H1 & H0 & Hin1 & Hin2).
  { destruct (_findKeyframes_cases _ _ _ _ Hb)
      as [(Hall & Hl & He)|[(Hall & Hl & He & Hz)|(Hl & He & Hf)]].
    - specialize (Hall k Hk). qc_lra.
    - assert (time (k1 b) = time0) as E.
      { apply Qcle_antisym; [apply Hall, Hl|]. rewrite <- Ht. by apply Hl. }
      split; [done|]. split; [by apply Hz|]. split; [apply Hl|apply He].
    - destruct Hl as [[H1 Hin1]%list_elem_of_filter Hmax].
      destruct He as [[H2 Hin2]%list_elem_of_filter _].
      assert (time (k1 b) = time0) as E.
      { apply Qcle_antisym; [done|]. rewrite <- Ht. apply Hmax.
        apply list_elem_of_filter. split; [|done]. rewrite Ht. apply Qcle_refl. }
      split; [done|]. split; [|done].
      rewrite Hf, E. replace (time0 - time0) with 0 by ring.
      unfold Qcdiv. apply Qcmult_0_l. }
  assert (ease b = 0) as He.
  { unfold ease. rewrite H0. destruct (smooth b); [ring|done]. }
  exists (k1 b), (k2 b). split; [done|]. split; [done|]. split; [done|].
  unfold _interpolatePosition, _interpolateQuaternion. rewrite Hb. simpl.
  by rewrite He, lerpVectors_0.
Qed.

End AtKeyframe.

Lemma js_rem_small (time0 d : Qc) : 0 ≤ time0 → time0 < d → js_rem time0 d = time0.
Proof.
  intros H0 H1. destruct (Qcdiv_unit time0 d H0 H1) as [F0 F1].
  unfold js_rem, Qctrunc. rewrite decide_True by done.
  assert (Qc_of_Z 0 = 0) as Z0 by (by apply Qc_is_canon).
  rewrite (floor_unique _ 0); rewrite ?Z0; [ring| |]; qc_lra.
Qed.

(** X4. For a positive duration the loop time
    [((time % duration) + duration) % duration] of [_applyAnimation] lies
    in the half-open interval from 0 to the duration, for negative times
    too and whatever the rounding of the sum.  A time already in that
    interval is its own loop time when [time + duration] is a binary64
    number, and taking the loop time twice is taking it once when the
    second sum is not rounded.  Neither holds in general: in a period of
    10 the loop time of the binary64 number 0.1 is 0.09999999999999964,
    and the loop time of [-(5 + 2^-50)] is [5 - 2^-50], whose loop time
    is 5. *)
Theorem loop_time_within_the_period (time0 dur : Qc) :
  0 < dur →
  (0 ≤ loopTime time0 dur ∧ loopTime time0 dur < dur)
  ∧ (0 ≤ time0 → time0 < dur → fl (time0 + dur) = time0 + dur →
     loopTime time0 dur = time0)
  ∧ (fl (loopTime time0 dur + dur) = loopTime time0 dur + dur →
     loopTime (loopTime time0 dur) dur = loopTime time0 dur)
  ∧ (let tenth := fl (QcOf 1 10) in
     loopTime tenth (Qc_of_Z 10) = QcOf 56294995342131 562949953421312
     ∧ loopTime tenth (Qc_of_Z 10) ≠ tenth)
  ∧ (let once := loopTime (- (Qc_of_Z 5 + pow2 (-50))) (Qc_of_Z 10) in
     once = Qc_of_Z 5 - pow2 (-50) ∧ loopTime once (Qc_of_Z 10) = Qc_of_Z 5).
Proof.
  intros Hd.
  assert (dur ≠ 0) as Hd0 by (intros ->; by apply (Qclt_not_eq 0 0)).
  assert (∀ x, 0 ≤ x → x < dur → fl (x + dur) = x + dur → loopTime x dur = x) as Hid.
  { intros x H0 H1 He. unfold loopTime. rewrite (js_rem_small x dur H0 H1), He.
    destruct (Qcdiv_unit x dur H0 H1) as [F0 F1].
    unfold js_rem, Qctrunc.
    assert ((x + dur) / dur = x / dur + 1) as -> by (field; done).
    rewrite decide_True by qc_lra.
    rewrite (floor_unique _ 1); rewrite ?Qc_of_Z_1; [ring| |]; qc_lra. }
  pose proof (loopTime_range time0 dur Hd) as [R0 R1].
  split; [done|]. split; [apply Hid|]. split; [by apply Hid|].
  cbv zeta. split; [split|split]; try (by apply Qc_is_canon).
  apply (bool_decide_unpack _). by vm_compute.
Qed.

(** ** The frame clock *)

(** [qc_lra] with the integer constants evaluated *)
Ltac qc_lra_num :=
  intros; qc_hyps;
  try apply Qc_is_canon;
  unfold Qcle, Qclt in *;
  repeat (rewrite ?this_minus, ?this_plus, ?this_mult, ?this_opp, ?this_of_Z,
            ?this_QcOf, ?this_0, ?this_1 in * );
  unfold inject_Z in *;
  lra.

Lemma Qcdiv_1000 (x : Qc) : x / Qc_of_Z 1000 = x * QcOf 1 1000.
Proof. unfold Qcdiv. f_equal; by apply Qc_is_canon. Qed.

Section FrameClock.
Context `{Host}.

Lemma _applyAnimation_times a time0 v :
  animationTime (_applyAnimation a time0 v) = animationTime v
  ∧ lastFrameTime (_applyAnimation a time0 v) = lastFrameTime v
  ∧ currentAnimation (_applyAnimation a time0 v) = currentAnimation v.
Proof.
  unfold _applyAnimation. destruct a as [a|]; [|done].
  destruct (character v); [|done]. destruct (nodeAnimations a); [|done].
  by destruct (foldl _ _ _).
Qed.

Lemma _applyAnimation_fields a time0 v :
  let v' := _applyAnimation a time0 v in
  modelData v' = modelData v ∧ textureCache v' = textureCache v
  ∧ hiddenBodyParts v' = hiddenBodyParts v ∧ polygonOffsetParts v' = polygonOffsetParts v
  ∧ currentAnimation v' = currentAnimation v ∧ lastFrameTime v' = lastFrameTime v
  ∧ animationTime v' = animationTime v ∧ autoRotate v' = autoRotate v
  ∧ (character v' = None ↔ character v = None).
Proof.
  cbv zeta. unfold _applyAnimation. destruct a as [a|]; [|done].
  destruct (character v) eqn:E; [|by rewrite E]. destruct (nodeAnimations a); [|by rewrite E].
  by destruct (foldl _ _ _).
Qed.

(** A frame is its animation part, then the turn of the character *)
Lemma _animate_unfold now v :
  _animate now v
  = match character (frameAnimation now v) with
    | None => Thrown (frameAnimation now v)
    | Some ch =>
        if autoRotate (frameAnimation now v)
        then Done (set_character (Some (turned ch)) (frameAnimation now v))
        else Done (frameAnimation now v)
    end.
Proof. reflexivity. Qed.

Lemma frameAnimation_fields now v :
  let w := frameAnimation now v in
  modelData w = modelData v ∧ textureCache w = textureCache v
  ∧ hiddenBodyParts w = hiddenBodyParts v ∧ polygonOffsetParts w = polygonOffsetParts v
  ∧ currentAnimation w = currentAnimation v ∧ lastFrameTime w = now
  ∧ autoRotate w = autoRotate v
  ∧ (character w = None ↔ character v = None).
Proof.
  cbv zeta. unfold frameAnimation. cbn -[_applyAnimation].
  destruct (animationEnabled v), (currentAnimation v) as [a|] eqn:E; try done.
  match goal with |- context [_applyAnimation ?x ?y ?z] =>
    destruct (_applyAnimation_fields x y z) as (-> & -> & -> & -> & -> & -> & _ & -> & ->) end.
  done.
Qed.

(** What a frame leaves as it was, whether it returns or throws *)
Lemma _animate_fields now v :
  let v' := stateOf (_animate now v) in
  modelData v' = modelData v ∧ textureCache v' = textureCache v
  ∧ hiddenBodyParts v' = hiddenBodyParts v ∧ polygonOffsetParts v' = polygonOffsetParts v
  ∧ currentAnimation v' = currentAnimation v ∧ lastFrameTime v' = now
  ∧ (_animate now v = Done v' ↔ is_Some (character v)).
Proof.
  cbv zeta. rewrite _animate_unfold.
  destruct (frameAnimation_fields now v) as (Hm & Ht & Hh & Hp & Ha & Hl & _ & Hc).
  destruct (character (frameAnimation now v)) as [ch|] eqn:E.
  - assert (is_Some (character v)) as Hs.
    { destruct (character v); [by eexists|]. destruct Hc as [_ Hc]. by specialize (Hc eq_refl). }
    destruct (autoRotate (frameAnimation now v)); simpl; by repeat split.
  - simpl. repeat split; try done. intros [ch Hch].
    destruct Hc as [Hc _]. specialize (Hc eq_refl). congruence.
Qed.

Lemma frameAnimation_clock (now : Qc) (v : Viewer) :
  let v' := frameAnimation now v in
  animationTime v' ≤ animationTime v + Qc_of_Z 6
  ∧ (animationEnabled v = false ∨ currentAnimation v = None →
     animationTime v' = animationTime v ∧ character v' = character v)
  ∧ (∀ a, animationEnabled v = true → currentAnimation v = Some a →
     (holdLastKeyframe a = true → animationTime v' ≤ duration a)
     ∧ (holdLastKeyframe a = false → lastFrameTime v ≤ now →
        animationTime v ≤ animationTime v')
     ∧ (holdLastKeyframe a = false → lastFrameTime v + Qc_of_Z 100 ≤ now →
        animationTime v' = animationTime v + Qc_of_Z 6)).
Proof.
  cbv zeta. unfold frameAnimation. simpl.
  destruct (animationEnabled v) eqn:Hen, (currentAnimation v) as [a|] eqn:Han; simpl.
  2-4: (split; [qc_lra_num|]; split; [done|]; intros; congruence).
  destruct (_applyAnimation_times (Some a)
              (frameTime a (animationTime v + Qcmin ((now - lastFrameTime v) / Qc_of_Z 1000)
                                                (QcOf 1 10) * FPS))
              (set_animationTime
                 (frameTime a (animationTime v + Qcmin ((now - lastFrameTime v) / Qc_of_Z 1000)
                                                   (QcOf 1 10) * FPS))
                 (set_lastFrameTime now v))) as (Ht & Hl & _).
  simpl in Ht, Hl. rewrite Ht. clear Ht Hl.
  set (delta := (now - lastFrameTime v) / Qc_of_Z 1000).
  assert (Qcmin delta (QcOf 1 10) * FPS ≤ Qc_of_Z 6) as Hstep.
  { unfold Qcmin, FPS. case_decide; qc_lra_num. }
  assert (lastFrameTime v ≤ now → 0 ≤ Qcmin delta (QcOf 1 10) * FPS) as Hpos.
  { intros Hle. assert (0 ≤ delta).
    { unfold delta. rewrite Qcdiv_1000. qc_lra_num. }
    unfold Qcmin, FPS. case_decide; qc_lra_num. }
  assert (lastFrameTime v + Qc_of_Z 100 ≤ now → Qcmin delta (QcOf 1 10) * FPS = Qc_of_Z 6)
    as Hfull.
  { intros Hle. assert (QcOf 1 10 ≤ delta).
    { unfold delta. rewrite Qcdiv_1000. qc_lra_num. }
    unfold Qcmin, FPS. case_decide; apply Qcle_antisym; qc_lra_num. }
  set (step := Qcmin delta (QcOf 1 10) * FPS) in *. clearbody step.
  split; [|split].
  - unfold frameTime, Qcmin. destruct (holdLastKeyframe a); [case_decide|]; qc_lra_num.
  - intros [?|?]; congruence.
  - intros a' _ [= <-]. unfold frameTime. split; [|split].
    + intros ->. unfold Qcmin. case_decide; qc_lra_num.
    + intros -> Hle. specialize (Hpos Hle). qc_lra_num.
    + intros -> Hle. by rewrite (Hfull Hle).
Qed.

(** X5. One frame of [_animate] throws exactly on a viewer without a
    character (before [init()]); returning or not, it records the present
    time as the last frame time and never advances the animation clock by
    more than 6 (0.1 s at 60 frames per second).  With animation disabled
    or no animation loaded the clock is left alone, and the scene graph
    too unless [autoRotate] is set: then the only change is the turn of
    the character root by 0.005.  Otherwise, with [holdLastKeyframe] the
    clock ends at or below the duration; without it the clock does not go
    back when the present time is not before the last frame time, and
    advances by exactly 6 when 100 ms or more have passed. *)
Theorem frame_advances_the_clock_by_at_most_six (now : Qc) (v : Viewer) :
  let v' := stateOf (_animate now v) in
  (_animate now v = Done v' ↔ is_Some (character v))
  ∧ (_animate now v = Thrown v' ↔ character v = None)
  ∧ lastFrameTime v' = now
  ∧ animationTime v' ≤ animationTime v + Qc_of_Z 6
  ∧ (animationEnabled v = false ∨ currentAnimation v = None →
     animationTime v' = animationTime v
     ∧ (autoRotate v = false → character v' = character v)
     ∧ (autoRotate v = true → character v' = turned <$> character v))
  ∧ (∀ a, animationEnabled v = true → currentAnimation v = Some a →
     (holdLastKeyframe a = true → animationTime v' ≤ duration a)
     ∧ (holdLastKeyframe a = false → lastFrameTime v ≤ now →
        animationTime v ≤ animationTime v')
     ∧ (holdLastKeyframe a = false → lastFrameTime v + Qc_of_Z 100 ≤ now →
        animationTime v' = animationTime v + Qc_of_Z 6)).
Proof.
  cbv zeta.
  destruct (_animate_fields now v) as (_ & _ & _ & _ & _ & Hl & Hdone).
  split; [exact Hdone|]. split.
  { destruct (_animate now v) as [s|s] eqn:E; simpl in *.
    - split; [done|]. intros Hc. destruct Hdone as [Hd _]. specialize (Hd eq_refl).
      rewrite Hc in Hd. by destruct Hd.
    - split; [|done]. intros _. destruct (character v) eqn:Hc; [|done].
      destruct Hdone as [_ Hd]. by specialize (Hd (ltac:(by eexists))). }
  split; [exact Hl|]. clear Hl Hdone.
  destruct (frameAnimation_clock now v) as (Hstep & Hidle & Hrun).
  destruct (frameAnimation_fields now v) as (_ & _ & _ & _ & _ & _ & Hauto & _).
  rewrite _animate_unfold. rewrite Hauto.
  assert (animationTime
            (stateOf match character (frameAnimation now v) with
                     | Some ch =>
                         if autoRotate v
                         then Done (set_character (Some (turned ch)) (frameAnimation now v))
                         else Done (frameAnimation now v)
                     | None => Thrown (frameAnimation now v)
                     end) = animationTime (frameAnimation now v)) as ->.
  { destruct (character (frameAnimation now v)); [|done]. by destruct (autoRotate v). }
  split; [exact Hstep|]. split; [|exact Hrun].
  intros Hno. destruct (Hidle Hno) as [Ht Hc]. split; [exact Ht|].
  destruct (character (frameAnimation now v)) as [ch|] eqn:E; rewrite <- Hc;
    split; intros Ha; rewrite ?Ha; simpl; by rewrite ?E.
Qed.

End FrameClock.

(** ** Poses and the rest-pose cache *)

Lemma writesPose_setPosition v : writesPose (setPosition v).
Proof. by intros o. Qed.
Lemma writesPose_setQuaternion q : writesPose (setQuaternion q).
Proof. by intros o. Qed.

Lemma unposed_updateAt f p : writesPose f → ∀ o, unposed (updateAt f p o) = unposed o.
Proof.
  intros Hf. induction p as [|i p IH]; intros o.
  - destruct o as [n pos q m cs]. destruct (Hf (mkObject3D n pos q m cs)) as (Hn & Hm & Hc).
    simpl in *. destruct (f _); simpl in *. by subst.
  - destruct o as [n pos q m cs]. simpl. f_equal.
    rewrite (list_fmap_alter unposed _ id); [by apply list_alter_id|].
    apply Forall_forall. intros x _. apply IH.
Qed.

Lemma objectAt_updateAt_eq f p : ∀ o, objectAt (updateAt f p o) p = f <$> objectAt o p.
Proof.
  induction p as [|i p IH]; intros o; [done|]. simpl.
  rewrite list_lookup_alter_eq. destruct (children o !! i) as [c|]; [|done]. simpl. apply IH.
Qed.

Lemma poseAt_updateAt_ne f p : writesPose f → ∀ p' o,
  p' ≠ p → poseAt (updateAt f p o) p' = poseAt o p'.
Proof.
  intros Hf. unfold poseAt. induction p as [|i p IH]; intros p' o Hne.
  - destruct p' as [|j p']; [done|]. simpl. by destruct (Hf o) as (_ & _ & ->).
  - destruct p' as [|j p']; [done|]. simpl.
    rewrite list_lookup_alter. case_decide as Hij; [|done]. subst j.
    destruct (children o !! i) as [c|]; [|done]. simpl. apply IH. congruence.
Qed.

(** Two graphs with the same tree and the same transform at every path
    are the same graph. *)
Lemma graph_ext (a : Object3D) : ∀ b,
  unposed a = unposed b → (∀ p, poseAt a p = poseAt b p) → a = b.
Proof.
  induction a as [n pos q m cs IH] using Object3D_ind. intros [n' pos' q' m' cs'] Hu Hp.
  simpl in Hu. injection Hu as -> -> Hcs.
  pose proof (Hp []) as H0. unfold poseAt, poseOf in H0. simpl in H0.
  injection H0 as -> ->. f_equal.
  assert (∀ i p, poseAt (mkObject3D n' pos' q' m' cs) (i :: p)
                 = poseAt (mkObject3D n' pos' q' m' cs') (i :: p)) as Hp' by (intros; apply Hp).
  clear Hp. unfold poseAt in Hp'. simpl in Hp'.
  revert cs' Hcs Hp'. induction cs as [|c cs IHcs]; intros [|c' cs'] Hcs Hp'; try done.
  apply Forall_cons in IH as [Hc Hrest]. simpl in Hcs. injection Hcs as Hc' Hcs'.
  f_equal.
  - apply Hc; [done|]. intros p. apply (Hp' 0%nat p).
  - apply IHcs; [done..|]. intros i p. apply (Hp' (S i) p).
Qed.

(** Two names refer to two objects *)
Lemma getObjectByName_inj ch n m p :
  getObjectByName ch n = Some p → getObjectByName ch m = Some p → n = m.
Proof.
  intros (b & Hb & <-)%getObjectByName_objectAt (b' & Hb' & <-)%getObjectByName_objectAt.
  congruence.
Qed.

Lemma graphInv_refl ch o : graphInv ch o ch.
Proof. done. Qed.

Lemma graphInv_mono ch o o' ch' : o ⊆ o' → graphInv ch o ch' → graphInv ch o' ch'.
Proof.
  intros Hs (Hn & Hu & Hr). split; [done|]. split; [done|].
  intros p Hp. apply Hr. intros n [tr Hn']. apply Hp. exists tr.
  by eapply lookup_weaken.
Qed.

Lemma graphInv_updateAt ch o ch' f m p :
  writesPose f → getObjectByName ch m = Some p → is_Some (o !! m) →
  graphInv ch o ch' → graphInv ch o (updateAt f p ch').
Proof.
  intros Hf Hp Hm (Hn & Hu & Hr). split; [|split].
  - intros n. rewrite getObjectByName_updateAt; [done|].
    intros o'. by destruct (Hf o') as (? & _ & ?).
  - by rewrite unposed_updateAt.
  - intros p' Hp'. rewrite poseAt_updateAt_ne; [by apply Hr|done|].
    intros ->. by apply (Hp' m).
Qed.

Section Poses.
Context `{Host}.

Lemma frameInv_init ch o : frameInv ch o (ch, o).
Proof.
  split; [apply graphInv_refl|]. split; [done|]. simpl. intros n tr H1 H2. congruence.
Qed.

Lemma animateNode_frameInv loopT dur ch o st e :
  frameInv ch o st → frameInv ch o (animateNode loopT dur st e).
Proof.
  destruct st as [ch1 o1], e as [m na]. intros Hinv.
  pose proof Hinv as (Hg & Hs & Hnew).
  simpl in Hg, Hs, Hnew. cbn [animateNode].
  destruct (getObjectByName ch1 m) as [p|] eqn:Hp; [|exact Hinv].
  destruct (objectAt ch1 p) as [node|] eqn:Hnode; [|exact Hinv].
  clear Hinv.
  set (o2 := match o1 !! m with Some _ => o1 | None => _ end).
  assert (o1 ⊆ o2) as Ho12.
  { unfold o2. destruct (o1 !! m) eqn:E; [done|]. by apply insert_subseteq. }
  assert (is_Some (o2 !! m)) as [orig Horig].
  { unfold o2. destruct (o1 !! m) eqn:E; [by rewrite E|]. rewrite lookup_insert_eq. by eexists. }
  rewrite Horig.
  assert (∀ n tr, o2 !! n = Some tr → o1 !! n = None → n = m ∧ tr = poseOf node) as Ho2.
  { unfold o2. intros n tr. destruct (o1 !! m) eqn:E; [congruence|].
    destruct (decide (n = m)) as [->|Hne].
    - rewrite lookup_insert_eq. by intros [= <-].
    - rewrite lookup_insert_ne by done. congruence. }
  destruct Hg as (Hn & Hu & Hr). rewrite Hn in Hp.
  assert (graphInv ch o2 ch1) as Hg2 by (by eapply graphInv_mono).
  split; [|split]; simpl.
  - unfold animatePosition, animateOrientation.
    repeat case_match; try done;
      repeat (eapply graphInv_updateAt;
              [apply writesPose_setPosition || apply writesPose_setQuaternion
              |exact Hp|by eexists|]); done.
  - by etrans.
  - intros n tr Hn2 Hno. destruct (o1 !! n) as [tr1|] eqn:E1.
    + apply (Hnew n tr); [|done].
      pose proof (lookup_weaken _ _ _ _ E1 Ho12) as E2. congruence.
    + destruct (Ho2 n tr Hn2 E1) as [-> ->]. exists p. split; [done|].
      rewrite <- Hr.
      * unfold poseAt. by rewrite Hnode.
      * intros n' [tr' Hn'] Hp'. assert (n' = m) as -> by (by eapply getObjectByName_inj).
        congruence.
Qed.

Lemma foldl_animateNode_frameInv loopT dur ch o entries : ∀ st,
  frameInv ch o st → frameInv ch o (foldl (animateNode loopT dur) st entries).
Proof.
  induction entries as [|e entries IH]; intros st Hst; [done|].
  cbn [foldl]. by apply IH, animateNode_frameInv.
Qed.

(** X6. A frame of [_applyAnimation] only writes transforms: the scene
    graph with the transforms erased is the same before and after, every
    name refers to the same object, and the texture cache, the hidden set
    and the offset set are untouched. *)
Theorem frame_only_writes_transforms (a : Animation) (time0 : Qc) (v : Viewer) :
  let v' := _applyAnimation (Some a) time0 v in
  unposed <$> character v' = unposed <$> character v
  ∧ (∀ ch ch' n, character v = Some ch → character v' = Some ch' →
       getObjectByName ch' n = getObjectByName ch n)
  ∧ textureCache v' = textureCache v
  ∧ hiddenBodyParts v' = hiddenBodyParts v
  ∧ polygonOffsetParts v' = polygonOffsetParts v.
Proof.
  cbv zeta. unfold _applyAnimation. destruct (character v) as [ch|] eqn:Hch.
  2: { rewrite Hch. repeat split; try done; intros; congruence. }
  destruct (nodeAnimations a) as [entries|].
  2: { rewrite Hch. repeat split; try done; intros; congruence. }
  pose proof (foldl_animateNode_frameInv (loopTime time0 (duration a)) (duration a) ch
                (originalTransforms v) entries _ (frameInv_init _ _))
    as ((Hn & Hu & _) & _ & _).
  destruct (foldl _ _ entries) as [ch' o']. simpl in *.
  split; [by rewrite Hu|]. split; [|done]. intros ? ? n [= <-] [= <-]. apply Hn.
Qed.

(** X7. A frame of [_applyAnimation] never overwrites or removes an entry
    of the rest-pose cache [originalTransforms]: it only adds entries, and
    an entry it adds for a name is the transform that the object of that
    name had before the frame. *)
Theorem rest_pose_cache_only_grows (a : Animation) (time0 : Qc) (v : Viewer)
    (ch : Object3D) :
  character v = Some ch →
  let v' := _applyAnimation (Some a) time0 v in
  originalTransforms v ⊆ originalTransforms v'
  ∧ (∀ n tr, originalTransforms v' !! n = Some tr → originalTransforms v !! n = None →
       ∃ p, getObjectByName ch n = Some p ∧ poseAt ch p = Some tr).
Proof.
  intros Hch. cbv zeta. unfold _applyAnimation. rewrite Hch.
  destruct (nodeAnimations a) as [entries|].
  2: { split; [done|]. intros; congruence. }
  pose proof (foldl_animateNode_frameInv (loopTime time0 (duration a)) (duration a) ch
                (originalTransforms v) entries _ (frameInv_init _ _))
    as (_ & Hs & Hnew).
  destruct (foldl _ _ entries) as [ch' o']. done.
Qed.

Lemma writesPose_reset tr :
  writesPose (λ node, setQuaternion (t_quaternion tr) (setPosition (t_position tr) node)).
Proof. by intros o. Qed.

(** After the loop over a cache [m], an object a name of [m] refers to has
    the cached transform, and every other object the transform it had *)
Lemma reset_fold ch (m : gmap string Transform) :
  let r := map_fold resetNode ch m in
  (∀ n, getObjectByName r n = getObjectByName ch n)
  ∧ unposed r = unposed ch
  ∧ (∀ n tr p, m !! n = Some tr → getObjectByName ch n = Some p → poseAt r p = Some tr)
  ∧ (∀ p, (∀ n, is_Some (m !! n) → getObjectByName ch n ≠ Some p) →
       poseAt r p = poseAt ch p).
Proof.
  cbv zeta. apply (map_fold_weak_ind (λ r m,
    (∀ n, getObjectByName r n = getObjectByName ch n)
    ∧ unposed r = unposed ch
    ∧ (∀ n tr p, m !! n = Some tr → getObjectByName ch n = Some p → poseAt r p = Some tr)
    ∧ (∀ p, (∀ n, is_Some (m !! n) → getObjectByName ch n ≠ Some p) →
         poseAt r p = poseAt ch p))).
  - split; [done|]. split; [done|]. split; [|done]. intros n tr p Hn. by rewrite lookup_empty in Hn.
  - intros i x m0 r Hi (Hn & Hu & Hin & Hout). unfold resetNode. rewrite Hn.
    destruct (getObjectByName ch i) as [p0|] eqn:Hp0.
    + split; [|split; [|split]].
      * intros n. rewrite getObjectByName_updateAt; [done|]. by intros o'.
      * rewrite unposed_updateAt; [done|apply writesPose_reset].
      * intros n tr p Hlook Hp. destruct (decide (n = i)) as [->|Hne].
        -- rewrite lookup_insert_eq in Hlook. injection Hlook as ->.
           assert (p = p0) as -> by congruence.
           unfold poseAt. rewrite objectAt_updateAt_eq.
           destruct (getObjectByName_objectAt ch i p0 Hp0) as (b & Hb & _).
           assert (is_Some (objectAt r p0)) as [b' Hb'].
           { destruct (objectAt r p0) eqn:E; [by eexists|].
             assert (poseAt r p0 = poseAt ch p0) as X.
             { apply Hout. intros n' [tr' Hn'] Hp'.
               assert (n' = i) as -> by (by eapply getObjectByName_inj). congruence. }
             unfold poseAt in X. rewrite E, Hb in X. done. }
           rewrite Hb'. simpl. unfold poseOf. simpl. by destruct tr.
        -- rewrite lookup_insert_ne in Hlook by done.
           rewrite poseAt_updateAt_ne; [by eapply Hin|apply writesPose_reset|].
           intros ->. apply Hne. by eapply getObjectByName_inj.
      * intros p Hp. rewrite poseAt_updateAt_ne; [|apply writesPose_reset|].
        -- apply Hout. intros n [tr Hn']. apply Hp. exists tr.
           rewrite lookup_insert_ne; [done|]. intros <-. congruence.
        -- intros ->. apply (Hp i); [|done]. rewrite lookup_insert_eq. by eexists.
    + split; [done|]. split; [done|]. split.
      * intros n tr p Hlook Hp. destruct (decide (n = i)) as [->|Hne]; [congruence|].
        rewrite lookup_insert_ne in Hlook by done. by eapply Hin.
      * intros p Hp. apply Hout. intros n [tr Hn']. apply Hp. exists tr.
        rewrite lookup_insert_ne; [done|]. intros <-. congruence.
Qed.

Lemma _applyAnimation_runInv ch a time0 v :
  runInv ch v → runInv ch (_applyAnimation (Some a) time0 v).
Proof.
  intros (ch1 & Hch & (Hn & Hu & Hr) & Hc). unfold _applyAnimation. rewrite Hch.
  destruct (nodeAnimations a) as [entries|]; [|by exists ch1].
  pose proof (foldl_animateNode_frameInv (loopTime time0 (duration a)) (duration a) ch1
                (originalTransforms v) entries _ (frameInv_init _ _))
    as ((Hn' & Hu' & Hr') & Hs & Hnew).
  destruct (foldl _ _ entries) as [ch2 o2]. simpl in *.
  exists ch2. split; [done|]. split; [split; [|split]|].
  - intros n. by rewrite Hn', Hn.
  - by rewrite Hu', Hu.
  - intros p Hp. rewrite Hr'.
    + apply Hr. intros n [tr Hn1]. apply Hp. exists tr. by eapply lookup_weaken.
    + intros n Hn2. rewrite Hn. by apply Hp.
  - intros n tr p Hn2 Hp. simpl in Hn2.
    destruct (originalTransforms v !! n) as [tr1|] eqn:E1.
    + pose proof (lookup_weaken _ _ _ _ E1 Hs) as E2.
      assert (tr1 = tr) as -> by (rewrite E2 in Hn2; by injection Hn2). by eapply Hc.
    + destruct (Hnew n tr Hn2 E1) as (p' & Hp' & Hpose). rewrite Hn in Hp'.
      assert (p' = p) as -> by congruence.
      rewrite <- Hr; [done|]. intros n' [tr' Hin'] Hq.
      assert (n' = n) as -> by (by eapply getObjectByName_inj). congruence.
Qed.

(** After any run of frames, of any animations at any times, resetting
    gives back the graph the run started from *)
Lemma reset_after_frames (frames : list (Animation * Qc)) (v : Viewer) (ch : Object3D) :
  character v = Some ch →
  cacheAgrees ch (originalTransforms v) →
  let v' := foldl (λ v '(a, time0), _applyAnimation (Some a) time0 v) v frames in
  character (_resetToOriginalPose v') = Some ch
  ∧ cacheAgrees ch (originalTransforms (_resetToOriginalPose v')).
Proof.
  intros Hch Hc. cbv zeta.
  assert (runInv ch (foldl (λ v '(a, time0), _applyAnimation (Some a) time0 v) v frames))
    as (ch' & Hch' & (Hn & Hu & Hr) & Hc').
  { assert (runInv ch v) as Hv by (exists ch; split; [done|]; split; [apply graphInv_refl|done]).
    clear Hch Hc. revert v Hv. induction frames as [|[a time0] frames IH]; intros v Hv; [done|].
    cbn [foldl]. by apply IH, _applyAnimation_runInv. }
  set (v' := foldl _ v frames) in *.
  unfold _resetToOriginalPose. rewrite Hch'. simpl. split; [|done]. f_equal.
  pose proof (reset_fold ch' (originalTransforms v')) as (Rn & Ru & Rin & Rout).
  change (map_fold _ ch' (originalTransforms v'))
    with (map_fold resetNode ch' (originalTransforms v')).
  apply graph_ext; [by rewrite Ru, Hu|].
  intros p.
  destruct (objectAt ch p) as [b|] eqn:Hb.
  - destruct (originalTransforms v' !! name b) as [tr|] eqn:Hcache.
    + destruct (decide (getObjectByName ch (name b) = Some p)) as [Hp|Hp].
      * rewrite (Rin (name b) tr p Hcache); [|by rewrite Hn].
        symmetry. by eapply Hc'.
      * rewrite Rout.
        -- apply Hr. intros n Hin Hq. destruct (getObjectByName_objectAt _ _ _ Hq) as (b' & Hb' & <-).
           congruence.
        -- intros n Hin Hq. rewrite Hn in Hq.
           destruct (getObjectByName_objectAt _ _ _ Hq) as (b' & Hb' & <-). congruence.
    + rewrite Rout.
      * apply Hr. intros n [tr Hin] Hq.
        destruct (getObjectByName_objectAt _ _ _ Hq) as (b' & Hb' & <-). congruence.
      * intros n [tr Hin] Hq. rewrite Hn in Hq.
        destruct (getObjectByName_objectAt _ _ _ Hq) as (b' & Hb' & <-). congruence.
  - rewrite Rout.
    + apply Hr. intros n _ Hq.
      destruct (getObjectByName_objectAt _ _ _ Hq) as (b' & Hb' & _). congruence.
    + intros n _ Hq. rewrite Hn in Hq.
      destruct (getObjectByName_objectAt _ _ _ Hq) as (b' & Hb' & _). congruence.
Qed.

(** X8. Clearing the animation undoes the frames.  From a viewer whose
    rest-pose cache holds the present transform of every object it names
    (an empty cache, for one), after any number of frames of any
    animations at any times, [setAnimation] with the empty path gives back
    exactly the scene graph the frames started from, with no current
    animation and the clock at 0; and the cache again holds the present
    transforms. *)
Theorem clearing_the_animation_restores_the_rest_pose (frames : list (Animation * Qc))
    (v : Viewer) (ch : Object3D) :
  character v = Some ch →
  cacheAgrees ch (originalTransforms v) →
  let v' := foldl (λ v '(a, time0), _applyAnimation (Some a) time0 v) v frames in
  character (setAnimation "" v') = Some ch
  ∧ currentAnimation (setAnimation "" v') = None
  ∧ animationTime (setAnimation "" v') = 0
  ∧ cacheAgrees ch (originalTransforms (setAnimation "" v')).
Proof.
  intros Hch Hc. cbv zeta.
  destruct (reset_after_frames frames v ch Hch Hc) as [Hr Ha]. cbv zeta in Hr, Ha.
  set (v' := foldl _ v frames) in *.
  unfold setAnimation. rewrite decide_True by done.
  unfold _resetToOriginalPose in *. simpl in *.
  destruct (character v'); simpl in *; done.
Qed.

End Poses.

(** ** Occlusion sets *)

Lemma _determineHiddenParts_adds (data : ModelData) (v : Viewer) :
  _determineHiddenParts data v
  = set_polygonOffsetParts (polygonOffsetParts v ∪ offsetFor data)
      (set_hiddenBodyParts (hiddenBodyParts v ∪ hiddenFor data) v).
Proof.
  unfold _determineHiddenParts, hiddenFor, offsetFor, otherHidden, legParts.
  destruct (slotEquipped data "pants" || slotEquipped data "overpants"),
    (slotEquipped data "overtop" || slotEquipped data "undertop"),
    (slotEquipped data "shoes"), (slotEquipped data "haircut");
    cbv beta iota zeta;
    rewrite ?union_empty_r_L, ?union_empty_l_L, ?(assoc_L (∪)); reflexivity.
Qed.

(** X9. [_determineHiddenParts] only adds to the hidden set and to the
    offset set, and touches nothing else of the viewer (scene graph,
    texture cache, rest-pose cache).  Applying it twice with the same
    descriptor is applying it once, and the result for two descriptors
    does not depend on their order. *)
Theorem hidden_parts_only_grow (data : ModelData) (v : Viewer) :
  let v' := _determineHiddenParts data v in
  hiddenBodyParts v ⊆ hiddenBodyParts v'
  ∧ polygonOffsetParts v ⊆ polygonOffsetParts v'
  ∧ _determineHiddenParts data v' = v'
  ∧ (∀ data', _determineHiddenParts data' (_determineHiddenParts data v)
              = _determineHiddenParts data (_determineHiddenParts data' v))
  ∧ character v' = character v ∧ textureCache v' = textureCache v
  ∧ originalTransforms v' = originalTransforms v.
Proof.
  cbv zeta. rewrite !_determineHiddenParts_adds.
  split; [apply union_subseteq_l|]. split; [apply union_subseteq_l|].
  split; [|split; [|done]].
  - unfold set_polygonOffsetParts, set_hiddenBodyParts; simpl. destruct v; simpl.
    f_equal; rewrite <- (assoc_L (∪)); by rewrite union_idemp_L.
  - intros data'. rewrite !_determineHiddenParts_adds.
    unfold set_polygonOffsetParts, set_hiddenBodyParts; simpl. destruct v; simpl.
    f_equal; rewrite <- !(assoc_L (∪)); f_equal; apply (comm_L (∪)).
Qed.

(** ** Texture loading and tinting *)

Lemma removeFirst_absent (pat s : string) :
  (∀ m, String.substring m (String.length pat) s ≠ pat) → removeFirst pat s = s.
Proof.
  induction s as [|c s IH]; intros Hno.
  - by destruct pat.
  - cbn [removeFirst]. destruct (String.prefix pat (String c s)) eqn:E.
    + apply String.prefix_correct in E. by destruct (Hno 0%nat).
    + f_equal. apply IH. intros m. apply (Hno (S m)).
Qed.

Lemma substring_all (s : string) (m : nat) :
  (String.length s ≤ m)%nat → String.substring 0 m s = s.
Proof.
  revert m. induction s as [|c s IH]; intros [|m] Hm; simpl in *; try done; try lia.
  rewrite IH; [done|lia].
Qed.

Lemma length_append (p s : string) :
  String.length (p +:+ s) = (String.length p + String.length s)%nat.
Proof.
  induction p as [|c p IH]; [done|].
  change (String c p +:+ s) with (String c (p +:+ s)). simpl. by rewrite IH.
Qed.

Lemma substring_append_drop (p s : string) (m : nat) :
  (String.length s ≤ m)%nat → String.substring (String.length p) m (p +:+ s) = s.
Proof.
  intros Hm. induction p as [|c p IH].
  - change ("" +:+ s) with s. by apply substring_all.
  - change (String c p +:+ s) with (String c (p +:+ s)). simpl. apply IH.
Qed.

Lemma prefix_append (p s : string) : String.prefix p (p +:+ s) = true.
Proof.
  induction p as [|c p IH]; [by destruct s|].
  change (String c p +:+ s) with (String c (p +:+ s)). simpl.
  destruct (Ascii.ascii_dec c c); [done|congruence].
Qed.

Lemma removeFirst_prefix (pat s : string) : removeFirst pat (pat +:+ s) = s.
Proof.
  assert (∀ x, removeFirst pat x
               = if String.prefix pat x
                 then String.substring (String.length pat) (String.length x) x
                 else match x with
                      | EmptyString => EmptyString
                      | String c x' => String c (removeFirst pat x')
                      end) as Hunf by (by intros [|c x']).
  rewrite Hunf, prefix_append, substring_append_drop; [done|]. rewrite length_append. lia.
Qed.

Lemma asset_paths_differ (x : string) : "/asset/Common/" +:+ x ≠ "/asset/" +:+ x.
Proof.
  change ("/asset/Common/" +:+ x) with ("/asset/" +:+ ("Common/" +:+ x)).
  intros E%(inj (String.append "/asset/")). apply (f_equal String.length) in E.
  rewrite length_append in E. simpl in E. lia.
Qed.

Lemma dedupe_abba (a b : string) : a ≠ b → dedupe [] [a; a; b; a] = [a; b].
Proof.
  intros Hab. cbn [dedupe].
  rewrite (decide_False (P := a ∈ [])) by (by intros ?%elem_of_nil).
  rewrite (decide_True (P := a ∈ [a])) by (apply list_elem_of_here).
  rewrite (decide_False (P := b ∈ [a])) by (by intros ?%list_elem_of_singleton).
  rewrite (decide_True (P := a ∈ [b; a])) by (apply list_elem_of_further, list_elem_of_here).
  done.
Qed.

Lemma dedupe_abba' (a b : string) : a ≠ b → dedupe [] [a; b; b; a] = [a; b].
Proof.
  intros Hab. cbn [dedupe].
  rewrite (decide_False (P := a ∈ [])) by (by intros ?%elem_of_nil).
  rewrite (decide_False (P := b ∈ [a])) by (by intros ?%list_elem_of_singleton).
  rewrite (decide_True (P := b ∈ [b; a])) by (apply list_elem_of_here).
  rewrite (decide_True (P := a ∈ [b; a])) by (apply list_elem_of_further, list_elem_of_here).
  done.
Qed.

(** X10. For a path in which Common/ does not occur, [_loadTexture] tries
    two URLs, in this order: /asset/Common/ followed by the path, then
    /asset/ followed by the path; and it tries the same two URLs, in the
    same order, for the path prefixed with Common/. *)
Theorem texture_urls_ignore_the_Common_prefix (x : string) :
  includes x "Common/" = false →
  uniquePaths x = ["/asset/Common/" +:+ x; "/asset/" +:+ x]
  ∧ uniquePaths ("Common/" +:+ x) = uniquePaths x.
Proof.
  intros Hno. unfold includes in Hno. apply bool_decide_eq_false in Hno.
  assert (String.index 0 "Common/" x = None) as Hidx.
  { destruct (String.index 0 "Common/" x); [|done]. destruct Hno. by eexists. }
  assert (∀ m, String.substring m (String.length "Common/") x ≠ "Common/") as Hsub.
  { intros m. apply (String.index_correct3 0); [done|done|lia]. }
  assert (String.prefix "Common/" x = false) as Hpre.
  { destruct (String.prefix "Common/" x) eqn:E; [|done].
    apply String.prefix_correct in E. by destruct (Hsub 0%nat). }
  assert (uniquePaths x = ["/asset/Common/" +:+ x; "/asset/" +:+ x]) as Hx.
  { unfold uniquePaths. rewrite Hpre, removeFirst_absent by done.
    apply dedupe_abba', asset_paths_differ. }
  split; [done|]. rewrite Hx. unfold uniquePaths.
  rewrite prefix_append, removeFirst_prefix.
  change ("/asset/" +:+ ("Common/" +:+ x)) with ("/asset/Common/" +:+ x).
  apply dedupe_abba, asset_paths_differ.
Qed.

Lemma toUint8Clamp_range z : (0 ≤ toUint8Clamp z ≤ 255)%Z.
Proof. unfold toUint8Clamp. lia. Qed.

Lemma tintChannel_range c grey : (0 ≤ tintChannel c grey ≤ 255)%Z.
Proof. unfold tintChannel. destruct c; [apply toUint8Clamp_range|lia]. Qed.

Lemma tintPixel_range gd c pr pg pb a :
  (0 ≤ pr ≤ 255)%Z → (0 ≤ pg ≤ 255)%Z → (0 ≤ pb ≤ 255)%Z →
  let '(r', g', b') := tintPixel gd c pr pg pb a in
  (0 ≤ r' ≤ 255)%Z ∧ (0 ≤ g' ≤ 255)%Z ∧ (0 ≤ b' ≤ 255)%Z.
Proof.
  intros Hr Hg Hb. unfold tintPixel. repeat case_decide; try done.
  destruct gd as [gd|], c as [c|]; try done;
    repeat split; try apply toUint8Clamp_range; try apply tintChannel_range; lia.
Qed.

(** Induction on a pixel array, four bytes at a time *)
Lemma pixels_ind (P : list Z → Prop) :
  (∀ l, (length l < 4)%nat → P l) →
  (∀ r0 g0 b0 a rest, P rest → P (r0 :: g0 :: b0 :: a :: rest)) →
  ∀ l, P l.
Proof.
  intros Hshort Hstep l. remember (length l) as n eqn:Hn.
  revert l Hn. induction n as [n IH] using lt_wf_ind. intros l ->.
  destruct l as [|r0 [|g0 [|b0 [|a rest]]]]; try (apply Hshort; simpl; lia).
  apply Hstep. apply (IH (length rest)); [simpl; lia|done].
Qed.

Lemma tintData_length gd c pixels : length (tintData gd c pixels) = length pixels.
Proof.
  induction pixels as [l Hl|r0 g0 b0 a rest IH] using pixels_ind.
  - by destruct l as [|? [|? [|? [|? ?]]]]; simpl in *; try lia.
  - simpl. destruct (tintPixel gd c r0 g0 b0 a) as [[r' g'] b']. simpl. by rewrite IH.
Qed.

Lemma tintData_alpha gd c pixels (i : nat) :
  (i mod 4 = 3)%nat → tintData gd c pixels !! i = pixels !! i.
Proof.
  revert i. induction pixels as [l Hl|r0 g0 b0 a rest IH] using pixels_ind; intros i Hi.
  - by destruct l as [|? [|? [|? [|? ?]]]]; simpl in *; try lia.
  - simpl. destruct (tintPixel gd c r0 g0 b0 a) as [[r' g'] b'].
    destruct i as [|[|[|[|i]]]]; try done. simpl. apply IH.
    replace (S (S (S (S i)))) with (i + 1 * 4)%nat in Hi by lia.
    by rewrite Nat.Div0.mod_add in Hi.
Qed.

Lemma tintData_bytes gd c pixels : bytes pixels → bytes (tintData gd c pixels).
Proof.
  unfold bytes.
  induction pixels as [l Hl|r0 g0 b0 a rest IH] using pixels_ind; intros Hb.
  - by destruct l as [|? [|? [|? [|? ?]]]]; simpl in *; try lia.
  - simpl. apply Forall_cons in Hb as [H1 Hb]. apply Forall_cons in Hb as [H2 Hb].
    apply Forall_cons in Hb as [H3 Hb]. apply Forall_cons in Hb as [H4 Hb].
    pose proof (tintPixel_range gd c r0 g0 b0 a H1 H2 H3) as Hp.
    destruct (tintPixel gd c r0 g0 b0 a) as [[r' g'] b']. destruct Hp as (? & ? & ?).
    repeat (constructor; [done|]). by apply IH.
Qed.

Lemma tintData_gradient gd c c' pixels :
  tintData (Some gd) c pixels = tintData (Some gd) c' pixels.
Proof.
  induction pixels as [l Hl|r0 g0 b0 a rest IH] using pixels_ind.
  - by destruct l as [|? [|? [|? [|? ?]]]]; simpl in *; try lia.
  - simpl. rewrite IH.
    assert (tintPixel (Some gd) c r0 g0 b0 a = tintPixel (Some gd) c' r0 g0 b0 a) as ->; [|done].
    unfold tintPixel. by repeat case_decide.
Qed.

Section Tints.
Context `{Host}.

(** X11. A texture returned by [_createTintedTexture] has the width and
    height of the source image the path loads to, records them as
    [userData], has as many pixel numbers as the source, and has the
    source's alpha at every pixel; if every number of the source is a byte,
    so is every number of the result. *)
Theorem tinting_keeps_size_and_alpha (path : string) (c : JsColor) (g0 : string)
    (v : Viewer) (res : Texture) :
  fst (_createTintedTexture path c g0 v) = Some res →
  ∃ src img out,
    fst (_loadTexture path v) = Some src ∧ image src = Some img ∧ image res = Some out
    ∧ width out = width img ∧ height out = height img
    ∧ userData res = Some (width img, height img)
    ∧ length (data out) = length (data img)
    ∧ (∀ i : nat, (i mod 4 = 3)%nat → data out !! i = data img !! i)
    ∧ (bytes (data img) → bytes (data out)).
Proof.
  unfold _createTintedTexture.
  destruct (_loadTexture path v) as [[src|] v1]; [|done]. simpl.
  destruct (image src) as [img|] eqn:Hi; [|done].
  destruct (_loadGradientData g0 v1) as [gd v2]. simpl. intros [= <-].
  exists src, img. eexists. split; [done|]. split; [done|]. split; [done|]. simpl.
  split; [done|]. split; [done|]. split; [done|].
  split; [apply tintData_length|]. split; [apply tintData_alpha|apply tintData_bytes].
Qed.

(** X12. When the gradient of a tint request loads, the base colour of the
    request plays no part: two requests for the same path and gradient
    give the same texture and the same viewer, whatever their base
    colours. *)
Theorem gradient_overrides_the_base_colour (path : string) (c c' : JsColor) (g0 : string)
    (v : Viewer) :
  is_Some (fst (_loadGradientData g0 (snd (_loadTexture path v)))) →
  _createTintedTexture path c g0 v = _createTintedTexture path c' g0 v.
Proof.
  unfold _createTintedTexture.
  destruct (_loadTexture path v) as [[src|] v1]; [|done]. simpl.
  destruct (image src) as [img|]; [|done].
  destruct (_loadGradientData g0 v1) as [gd v2]. simpl. intros [gd' ->].
  by rewrite (tintData_gradient gd' _ (Some (_parseColor c'))).
Qed.

(** X13. When [_loadTexture] returns a texture for a path, the texture
    cache holds that texture under the path afterwards, a second call for
    the path returns the same texture and changes nothing, no other entry
    of the cache is changed, and the scene graph, the hidden and offset
    sets and the rest-pose cache are untouched. *)
Theorem loaded_texture_is_memoised (path : string) (v : Viewer) (tex : Texture) :
  fst (_loadTexture path v) = Some tex →
  let v1 := snd (_loadTexture path v) in
  textureCache v1 !! path = Some tex
  ∧ _loadTexture path v1 = (Some tex, v1)
  ∧ (∀ other, other ≠ path → textureCache v1 !! other = textureCache v !! other)
  ∧ character v1 = character v ∧ sameSets v v1.
Proof.
  unfold _loadTexture. generalize (uniquePaths path) as cands. intros cands.
  destruct (textureCache v !! path) as [t|] eqn:Hc; cbn [fst snd].
  - intros [= ->]. by rewrite Hc.
  - intros Ht. destruct (tryPaths_Some path cands v tex Ht) as (img & -> & Hv1).
    pose proof (tryPaths_sameSets path cands v) as Hsets.
    assert (character (snd (tryPaths path cands v)) = character v) as Hch.
    { clear. induction cands as [|u us IH]; simpl; [done|]. by destruct (loadImage u). }
    destruct (tryPaths path cands v) as [t v1]. cbn [fst snd] in *. subst t.
    cbv zeta. rewrite Hv1, !lookup_insert_eq. split; [done|]. split; [done|].
    split; [by intros; rewrite lookup_insert_ne|done].
Qed.

Lemma tryPaths_None path cands v :
  fst (tryPaths path cands v) = None ↔ ∀ url, url ∈ cands → loadImage url = None.
Proof.
  induction cands as [|u us IH]; simpl.
  - split; [|done]. by intros _ url ?%elem_of_nil.
  - destruct (loadImage u) eqn:E; simpl.
    + split; [done|]. intros Hall. rewrite Hall in E; [done|apply list_elem_of_here].
    + rewrite IH. split.
      * intros Hall url [->|?]%elem_of_cons; [done|by apply Hall].
      * intros Hall url ?. by apply Hall, list_elem_of_further.
Qed.

Lemma tryPaths_None_state path cands v :
  fst (tryPaths path cands v) = None → snd (tryPaths path cands v) = v.
Proof.
  induction cands as [|u us IH]; simpl; [done|]. by destruct (loadImage u).
Qed.

(** X14. [_loadTexture] returns [null] exactly when the path is not in the
    texture cache and none of its candidate URLs loads; in that case it
    leaves the viewer as it was, so a failure is not cached and a later
    call tries the network again. *)
Theorem failed_texture_load_is_not_cached (path : string) (v : Viewer) :
  (fst (_loadTexture path v) = None ↔
   textureCache v !! path = None ∧ ∀ url, url ∈ uniquePaths path → loadImage url = None)
  ∧ (fst (_loadTexture path v) = None → snd (_loadTexture path v) = v).
Proof.
  unfold _loadTexture. generalize (uniquePaths path) as cands. intros cands.
  destruct (textureCache v !! path) as [t|] eqn:Hc; cbn [fst snd].
  - split; [|done]. split; [done|]. by intros [? _].
  - split; [|apply tryPaths_None_state].
    rewrite tryPaths_None. split; [done|]. by intros [_ ?].
Qed.

End Tints.

(** ** Colours *)

Lemma land_255 (x : Z) : Z.land x 255 = (x mod 256)%Z.
Proof. apply (Z.land_ones x 8). lia. Qed.

Lemma shiftr_16 (x : Z) : Z.shiftr x 16 = (x / 65536)%Z.
Proof. apply (Z.shiftr_div_pow2 x 16). lia. Qed.

Lemma shiftr_8 (x : Z) : Z.shiftr x 8 = (x / 256)%Z.
Proof. apply (Z.shiftr_div_pow2 x 8). lia. Qed.

Section Colours.
Context `{Host}.

(** X15. For a colour given as a number, [_parseColor] returns three
    channels between 0 and 255 that are the three low bytes of the number:
    red times 65536 plus green times 256 plus blue is the number modulo
    2^24. *)
Theorem number_colour_channels (n : Z) :
  ∃ r0 g0 b0,
    _parseColor (CNum n) = mkRGB (Some r0) (Some g0) (Some b0)
    ∧ (0 ≤ r0 ≤ 255)%Z ∧ (0 ≤ g0 ≤ 255)%Z ∧ (0 ≤ b0 ≤ 255)%Z
    ∧ (65536 * r0 + 256 * g0 + b0 = n mod 16777216)%Z.
Proof.
  eexists _, _, _. split; [reflexivity|].
  rewrite !land_255, shiftr_16, shiftr_8.
  repeat split; try (apply Z.mod_pos_bound; lia);
    try (pose proof (Z.mod_pos_bound (n / 65536) 256); lia);
    try (pose proof (Z.mod_pos_bound (n / 256) 256); lia);
    try (pose proof (Z.mod_pos_bound n 256); lia).
  Z.div_mod_to_equations. lia.
Qed.

End Colours.

Lemma hexDigit_char (d : Z) : (0 ≤ d < 16)%Z → ∃ c, hexDigit d = String c "".
Proof.
  intros Hd.
  assert (d = 0 ∨ d = 1 ∨ d = 2 ∨ d = 3 ∨ d = 4 ∨ d = 5 ∨ d = 6 ∨ d = 7 ∨ d = 8 ∨ d = 9
          ∨ d = 10 ∨ d = 11 ∨ d = 12 ∨ d = 13 ∨ d = 14 ∨ d = 15)%Z as Hc by lia.
  repeat (destruct Hc as [->|Hc]; [by eexists|]). subst. by eexists.
Qed.

Lemma append_assoc (a b c : string) : (a +:+ b) +:+ c = a +:+ (b +:+ c).
Proof.
  induction a as [|x a IH]; [done|].
  change ((String x a +:+ b) +:+ c) with (String x ((a +:+ b) +:+ c)).
  change (String x a +:+ (b +:+ c)) with (String x (a +:+ (b +:+ c))). by rewrite IH.
Qed.

Lemma hexOf_length k n : (0 ≤ n)%Z → String.length (hexOf k n) = k.
Proof.
  revert n. induction k as [|k IH]; intros n Hn; [done|]. simpl.
  rewrite length_append, IH by (apply Z.div_pos; lia).
  destruct (hexDigit_char (n mod 16)) as [c ->]; [apply Z.mod_pos_bound; lia|]. simpl. lia.
Qed.

(** [toString(16)] gives the digits of [hexOf] without the leading zeros *)
Lemma toHexFuel_hexOf fuel : ∀ n,
  (0 ≤ n < 16 ^ Z.of_nat fuel)%Z → (1 ≤ fuel)%nat →
  ∃ j, (1 ≤ j)%nat ∧ String.length (toHexFuel fuel n) = j
       ∧ (j = 1%nat ∨ 16 ^ (Z.of_nat j - 1) ≤ n)%Z
       ∧ ∀ k, hexOf (k + j) n = hexOf k 0 +:+ toHexFuel fuel n.
Proof.
  induction fuel as [|fuel IH]; intros n Hn Hf; [lia|].
  cbn [toHexFuel]. case_decide as Hsmall.
  - exists 1%nat. split; [done|].
    destruct (hexDigit_char n) as [c Hc]; [lia|]. split; [by rewrite Hc|]. split; [by left|].
    intros k. rewrite Nat.add_1_r. simpl.
    by rewrite Z.div_small, Z.mod_small by lia.
  - assert (0 ≤ n / 16 < 16 ^ Z.of_nat fuel)%Z as Hq.
    { split; [apply Z.div_pos; lia|]. apply Z.div_lt_upper_bound; [lia|].
      rewrite Nat2Z.inj_succ, Z.pow_succ_r in Hn by lia. lia. }
    assert (1 ≤ fuel)%nat as Hf'.
    { destruct fuel; [|lia]. simpl in Hq. assert (n / 16 = 0)%Z by lia.
      apply Z.div_small_iff in H; lia. }
    destruct (IH (n / 16)%Z Hq Hf') as (j & Hj & Hlen & Hlow & Hk).
    exists (S j). split; [lia|]. split; [|split].
    + rewrite length_append, Hlen.
      destruct (hexDigit_char (n mod 16)) as [c ->]; [apply Z.mod_pos_bound; lia|]. simpl. lia.
    + right. rewrite Nat2Z.inj_succ. replace (Z.succ (Z.of_nat j) - 1)%Z with (Z.of_nat j) by lia.
      destruct Hlow as [->|Hlow]; [simpl; lia|].
      replace (Z.of_nat j) with (Z.succ (Z.of_nat j - 1)) by lia.
      rewrite Z.pow_succ_r by lia.
      pose proof (Z.mul_div_le n 16). lia.
    + intros k. rewrite Nat.add_succ_r. simpl. rewrite Hk. apply append_assoc.
Qed.

Lemma toHex6_hexOf (n : Z) : (0 ≤ n < 16777216)%Z → toHex6 n = hexOf 6 n.
Proof.
  intros Hn. unfold toHex6.
  set (fuel := S (Z.to_nat (Z.log2 n))).
  assert (0 ≤ n < 16 ^ Z.of_nat fuel)%Z as Hfuel.
  { split; [lia|]. unfold fuel. rewrite Nat2Z.inj_succ, Z2Nat.id by apply Z.log2_nonneg.
    destruct (decide (n = 0)%Z) as [->|Hn0]; [done|].
    pose proof (Z.log2_spec n) as [_ Hlt]; [lia|].
    eapply Z.lt_le_trans; [exact Hlt|].
    apply Z.pow_le_mono_l. lia. }
  destruct (toHexFuel_hexOf fuel n Hfuel) as (j & Hj & Hlen & Hlow & Hk); [unfold fuel; lia|].
  assert (j ≤ 6)%nat as Hj6.
  { destruct Hlow as [->|Hlow]; [lia|].
    destruct (decide (j ≤ 6)%nat); [done|].
    assert (16 ^ 6 ≤ 16 ^ (Z.of_nat j - 1))%Z by (apply Z.pow_le_mono_r; lia). lia. }
  unfold padStart6. rewrite Hlen.
  replace 6%nat with ((6 - j) + j)%nat at 2 by lia. rewrite Hk.
  f_equal. clear -Hj Hj6.
  do 7 (destruct j as [|j]; [try lia; try done|]). lia.
Qed.

Section HexColours.
Context `{Host}.

(** X16. For a colour number below 2^24, the string that [_buildCharacter]
    makes of it (# followed by [toString(16)] padded to six digits) is
    parsed back by [_parseColor] to the channels of the number itself,
    provided [parseInt(s, 16)] reads two hexadecimal digits as their
    value. *)
Theorem hex_colour_round_trip (n : Z) :
  (∀ a b, (0 ≤ a < 16)%Z → (0 ≤ b < 16)%Z →
          parseInt16 (hexDigit a +:+ hexDigit b) = Some (16 * a + b)%Z) →
  (0 ≤ n < 16777216)%Z →
  _parseColor (CStr ("#" +:+ toHex6 n)) = _parseColor (CNum n).
Proof.
  intros Hparse Hn. rewrite toHex6_hexOf by done.
  cbn [hexOf].
  set (d0 := (n mod 16)%Z).
  set (d1 := (n / 16 mod 16)%Z).
  set (d2 := (n / 16 / 16 mod 16)%Z).
  set (d3 := (n / 16 / 16 / 16 mod 16)%Z).
  set (d4 := (n / 16 / 16 / 16 / 16 mod 16)%Z).
  set (d5 := (n / 16 / 16 / 16 / 16 / 16 mod 16)%Z).
  assert (0 ≤ d0 < 16 ∧ 0 ≤ d1 < 16 ∧ 0 ≤ d2 < 16 ∧ 0 ≤ d3 < 16 ∧ 0 ≤ d4 < 16
          ∧ 0 ≤ d5 < 16)%Z as (R0 & R1 & R2 & R3 & R4 & R5)
    by (unfold d0, d1, d2, d3, d4, d5; repeat split; apply Z.mod_pos_bound; lia).
  pose proof (Hparse d5 d4 R5 R4) as P54.
  pose proof (Hparse d3 d2 R3 R2) as P32.
  pose proof (Hparse d1 d0 R1 R0) as P10.
  destruct (hexDigit_char d0 R0) as [c0 E0]. destruct (hexDigit_char d1 R1) as [c1 E1].
  destruct (hexDigit_char d2 R2) as [c2 E2]. destruct (hexDigit_char d3 R3) as [c3 E3].
  destruct (hexDigit_char d4 R4) as [c4 E4]. destruct (hexDigit_char d5 R5) as [c5 E5].
  rewrite E0, E1, E2, E3, E4, E5 in *.
  cbv [String.append] in P54, P32, P10.
  cbv [String.append]. cbn [_parseColor String.prefix String.substring String.length].
  destruct (Ascii.ascii_dec _ _) as [_|Hne]; [|done].
  cbn [_parseColor String.prefix String.substring String.length].
  rewrite P54, P32, P10. rewrite !land_255, shiftr_16, shiftr_8.
  unfold d0, d1, d2, d3, d4, d5.
  f_equal; f_equal; Z.div_mod_to_equations; lia.
Qed.

End HexColours.

(** ** UV rotation and box meshes *)

Lemma Qc_of_Z_inj (a b : Z) : Qc_of_Z a = Qc_of_Z b → a = b.
Proof.
  intros E. apply (f_equal this) in E. rewrite !this_of_Z in E.
  by injection E.
Qed.

Lemma mirrorSign_negb (m : bool) : mirrorSign (negb m) = - mirrorSign m.
Proof. destruct m; simpl; by apply Qc_is_canon. Qed.

(** X17. In the UV resolution shared by the box and quad meshes, a layout
    angle of 180 gives the coordinates of angle 0 with both mirror flags
    negated, and an angle of 270 the coordinates of angle 90 with both
    mirror flags negated. *)
Theorem half_turn_is_a_double_mirror (uv_size uv_offset : Qc * Qc) (off : option (Qc * Qc))
    (mx my : bool) (texW texH : Z) :
  resolveUV uv_size (mkFaceLayout off (Qc_of_Z 180) mx my) uv_offset texW texH
  = resolveUV uv_size (mkFaceLayout off 0 (negb mx) (negb my)) uv_offset texW texH
  ∧ resolveUV uv_size (mkFaceLayout off (Qc_of_Z 270) mx my) uv_offset texW texH
    = resolveUV uv_size (mkFaceLayout off (Qc_of_Z 90) (negb mx) (negb my)) uv_offset
        texW texH.
Proof.
  assert (Qc_of_Z 180 ≠ Qc_of_Z 90) as H1 by (by intros ?%Qc_of_Z_inj).
  assert (Qc_of_Z 270 ≠ Qc_of_Z 90) as H2 by (by intros ?%Qc_of_Z_inj).
  assert (Qc_of_Z 270 ≠ Qc_of_Z 180) as H3 by (by intros ?%Qc_of_Z_inj).
  assert (0 ≠ Qc_of_Z 90) as H4 by (intros E; apply (f_equal this) in E; by vm_compute in E).
  assert (0 ≠ Qc_of_Z 180) as H5 by (intros E; apply (f_equal this) in E; by vm_compute in E).
  assert (0 ≠ Qc_of_Z 270) as H6 by (intros E; apply (f_equal this) in E; by vm_compute in E).
  destruct uv_size as [s0 s1], uv_offset as [o0 o1].
  unfold resolveUV, uvResult. cbn [layout_angle mirror_x mirror_y].
  rewrite !mirrorSign_negb.
  repeat (rewrite ?(decide_True (P := Qc_of_Z 180 = Qc_of_Z 180)),
            ?(decide_True (P := Qc_of_Z 270 = Qc_of_Z 270)),
            ?(decide_True (P := Qc_of_Z 90 = Qc_of_Z 90)),
            ?(decide_False (P := Qc_of_Z 180 = Qc_of_Z 90)),
            ?(decide_False (P := Qc_of_Z 270 = Qc_of_Z 90)),
            ?(decide_False (P := Qc_of_Z 270 = Qc_of_Z 180)),
            ?(decide_False (P := 0 = Qc_of_Z 90)),
            ?(decide_False (P := 0 = Qc_of_Z 180)),
            ?(decide_False (P := 0 = Qc_of_Z 270)) by done).
  split; repeat f_equal; ring.
Qed.

Section BoxFaces.
Context `{Host}.

Lemma boxFaceUV_outside layouts pixel texW texH arr j (idx : nat) :
  (idx < j * 8 ∨ j * 8 + 8 ≤ idx)%nat →
  boxFaceUV layouts pixel texW texH arr j !! idx = arr !! idx.
Proof.
  intros Hidx. unfold boxFaceUV. repeat case_match; try done;
    (destruct Hidx;
     [apply list_lookup_inserts_lt; lia
     |apply list_lookup_inserts_ge; rewrite resolveUV_length; lia]).
Qed.

Lemma boxFaceUV_absent layouts pixel texW texH arr i faceName :
  faceMap !! i = Some faceName → layouts !! faceName ≫= layout_offset = None →
  boxFaceUV layouts pixel texW texH arr i = arr.
Proof.
  intros Hf Hl. unfold boxFaceUV. rewrite Hf.
  destruct (layouts !! faceName) as [l|]; [|done]. simpl in Hl. by rewrite Hl.
Qed.

Lemma foldl_boxFaceUV_keep layouts pixel texW texH (idx : nat) js : ∀ arr,
  (∀ j, j ∈ js → (idx < j * 8 ∨ j * 8 + 8 ≤ idx)%nat
                 ∨ ∃ fn, faceMap !! j = Some fn ∧ layouts !! fn ≫= layout_offset = None) →
  foldl (boxFaceUV layouts pixel texW texH) arr js !! idx = arr !! idx.
Proof.
  induction js as [|j js IH]; intros arr Hjs; [done|]. cbn [foldl].
  rewrite IH by (intros j' Hj'; apply Hjs; by apply list_elem_of_further).
  destruct (Hjs j (list_elem_of_here _ _)) as [Hout|(fn & Hfn & Hno)].
  - by apply boxFaceUV_outside.
  - by rewrite (boxFaceUV_absent _ _ _ _ _ _ fn).
Qed.

(** X18. The [uv] attribute of a box mesh has the length of the geometry's
    own; its numbers are the geometry's beyond the six faces, and on every
    face whose layout is absent or has no offset; without a texture the
    whole attribute is the geometry's own. *)
Theorem box_faces_without_layout_keep_their_uv (shape : Shape) (pixel : Vec3)
    (texture : option Texture) :
  length (boxUV shape pixel texture) = length boxGeometryUV
  ∧ (∀ idx : nat, (48 ≤ idx)%nat → boxUV shape pixel texture !! idx = boxGeometryUV !! idx)
  ∧ (∀ (i k : nat) faceName, faceMap !! i = Some faceName →
       (textureLayout shape ≫= (.!! faceName)) ≫= layout_offset = None → (k < 8)%nat →
       boxUV shape pixel texture !! (i * 8 + k)%nat = boxGeometryUV !! (i * 8 + k)%nat)
  ∧ (texture = None → boxUV shape pixel texture = boxGeometryUV).
Proof.
  unfold boxUV. destruct texture as [tex|]; [|done].
  destruct (textureLayout shape) as [layouts|]; [|done].
  case_decide; [|done].
  destruct (texWidth tex) as [texW|]; [|done]. destruct (texHeight tex) as [texH|]; [|done].
  split; [apply foldl_boxFaceUV_length|]. split; [|split; [|done]].
  - intros idx Hidx. apply foldl_boxFaceUV_keep. intros j Hj%elem_of_seq. left. lia.
  - intros i k fn Hfn Hno Hk. apply foldl_boxFaceUV_keep. intros j Hj.
    destruct (decide (j = i)) as [->|Hne].
    + right. by exists fn.
    + left. lia.
Qed.

(** X19. [_createBoxMesh] returns [null] exactly when the shape has no
    size.  Otherwise each dimension of the box is the size times the
    magnitude of the stretch factor times [SCALE], the sign of the stretch
    factor becoming the flip flag of the axis: dimension times flip sign is
    size times stretch times [SCALE], a non-negative size gives a
    non-negative dimension, and a flipped mesh is always double-sided. *)
Theorem stretch_sign_becomes_a_flip (wire : bool) (shape : Shape) (color : Z)
    (nodeName : string) (texture : option Texture) (usePolygonOffset : bool) :
  (_createBoxMesh wire shape color nodeName texture usePolygonOffset = None ↔
   shape_settings shape ≫= settings_size = None)
  ∧ ∀ m pixel, _createBoxMesh wire shape color nodeName texture usePolygonOffset = Some m →
      shape_settings shape ≫= settings_size = Some pixel →
      let stretch := default (mkVec3 1 1 1) (shape_stretch shape) in
      ∃ w h d, geometry m = BoxGeometry w h d
        ∧ w * mirrorSign (flipX m) = vx pixel * orOne (vx stretch) * SCALE
        ∧ h * mirrorSign (flipY m) = vy pixel * orOne (vy stretch) * SCALE
        ∧ d * mirrorSign (flipZ m) = vz pixel * orOne (vz stretch) * SCALE
        ∧ (0 ≤ vx pixel → 0 ≤ w) ∧ (0 ≤ vy pixel → 0 ≤ h) ∧ (0 ≤ vz pixel → 0 ≤ d)
        ∧ (flipX m || flipY m || flipZ m = true → doubleSide (material m) = true).
Proof.
  unfold _createBoxMesh. destruct (shape_settings shape) as [settings|]; [|done]. simpl.
  destruct (settings_size settings) as [px|]; [|done]. simpl.
  split; [done|]. intros m pixel [= <-] [= <-]. cbv zeta.
  set (stretch := default (mkVec3 1 1 1) (shape_stretch shape)).
  eexists _, _, _. split; [reflexivity|]. cbn [flipX flipY flipZ material].
  assert (∀ p s, p * Math_abs s * SCALE * mirrorSign (bool_decide (s < 0)) = p * s * SCALE)
    as Hsign.
  { intros p s. unfold Math_abs, mirrorSign. case_bool_decide; case_decide; try qc_lra; ring. }
  assert (∀ p s, 0 ≤ p → 0 ≤ p * Math_abs s * SCALE) as Hpos.
  { intros p s Hp. assert (0 ≤ Math_abs s) by (unfold Math_abs; case_decide; qc_lra).
    assert (0 ≤ SCALE) by (by unfold Qcle).
    rewrite <- (Qcmult_0_l SCALE). apply Qcmult_le_compat_r; [|done].
    rewrite <- (Qcmult_0_l (Math_abs s)). by apply Qcmult_le_compat_r. }
  rewrite !Hsign. repeat split; try apply Hpos.
  destruct texture; cbn [doubleSide];
    destruct (bool_decide (orOne (vx stretch) < 0)), (bool_decide (orOne (vy stretch) < 0)),
      (bool_decide (orOne (vz stretch) < 0)), (doubleSided shape); done.
Qed.

End BoxFaces.

(** ** Bones and model assembly *)

Lemma findInChildren_first (n : string) (cs : list Object3D) :
  Forall (λ c, ∀ p q b, getObjectByName c n = Some p → objectAt c q = Some b →
                        name b = n → visitedBefore p q) cs →
  Forall (λ c, ∀ q b, objectAt c q = Some b → name b = n → is_Some (getObjectByName c n)) cs →
  ∀ k,
  (∀ j c q b, cs !! j = Some c → objectAt c q = Some b → name b = n →
     ∃ p, findInChildren n cs k = Some p ∧ visitedBefore p ((k + j)%nat :: q)).
Proof.
  intros Hfirst Hcomp. induction cs as [|c cs IH]; intros k j c' q b Hj Hq Hn; [done|].
  apply Forall_cons in Hfirst as [Hf1 Hfirst]. apply Forall_cons in Hcomp as [Hc1 Hcomp].
  simpl. destruct (getObjectByName c n) as [p|] eqn:Hp.
  - exists (k :: p). split; [done|]. simpl. destruct j as [|j].
    + right. split; [lia|]. simpl in Hj. injection Hj as <-. by eapply Hf1.
    + left. lia.
  - destruct j as [|j]; simpl in Hj.
    + injection Hj as <-. destruct (Hc1 q b Hq Hn) as [? ?]. congruence.
    + destruct (IH Hfirst Hcomp (S k) j c' q b Hj Hq Hn) as (p & Hp' & Hv).
      exists p. split; [done|]. by replace (k + S j)%nat with (S k + j)%nat by lia.
Qed.

Lemma getObjectByName_first (o : Object3D) (n : string) :
  (∀ q b, objectAt o q = Some b → name b = n →
     ∃ p, getObjectByName o n = Some p ∧ visitedBefore p q).
Proof.
  induction o as [nm pos qt m cs IH] using Object3D_ind. intros q b Hq Hn.
  rewrite getObjectByName_unfold. simpl. case_decide as Hnm.
  - by exists [].
  - destruct q as [|j q]; simpl in Hq.
    + injection Hq as <-. simpl in Hn. done.
    + destruct (cs !! j) as [c|] eqn:Hj; [|done]. simpl in Hq.
      rewrite Forall_forall in IH.
      apply (findInChildren_first n cs) with (k := 0%nat) (c := c) (b := b); try done.
      * apply Forall_forall. intros c' Hc p q' b' Hp Hq' Hn'.
        destruct (IH c' Hc q' b' Hq' Hn') as (p' & Hp' & Hv). congruence.
      * apply Forall_forall. intros c' Hc q' b' Hq' Hn'.
        destruct (IH c' Hc q' b' Hq' Hn') as (p' & Hp' & Hv). by eexists.
Qed.

(** X20. [_findBoneByName] never finds the empty name.  For a non-empty
    name it returns an object of that name when the graph has one, and
    then the first one in traversal order (an object before its
    descendants, a child before its later siblings); it returns [null]
    exactly when the name is empty or no object of the graph has it. *)
Theorem bone_lookup_finds_the_first_match (ch : Object3D) (n : string) :
  _findBoneByName ch "" = None
  ∧ (∀ p, _findBoneByName ch n = Some p →
       n ≠ "" ∧ ∃ b, objectAt ch p = Some b ∧ name b = n)
  ∧ (∀ q b, n ≠ "" → objectAt ch q = Some b → name b = n →
       ∃ p, _findBoneByName ch n = Some p ∧ visitedBefore p q)
  ∧ (_findBoneByName ch n = None ↔
     n = "" ∨ ∀ q b, objectAt ch q = Some b → name b ≠ n).
Proof.
  unfold _findBoneByName. split; [done|]. split; [|split].
  - intros p. case_decide; [done|]. intros Hp. split; [done|].
    by apply getObjectByName_objectAt.
  - intros q b Hn Hq Hb. rewrite decide_False by done. by eapply getObjectByName_first.
  - case_decide as Hn; [by split; [left|]|]. split.
    + intros Hnone. right. intros q b Hq Hb.
      destruct (getObjectByName_first ch n q b Hq Hb) as (p & Hp & _). congruence.
    + intros [?|Hall]; [done|]. destruct (getObjectByName ch n) as [p|] eqn:Hp; [|done].
      destruct (getObjectByName_objectAt ch n p Hp) as (b & Hb & Hnm). by destruct (Hall p b Hb).
Qed.

Section Cosmetics.
Context `{Host}.

Lemma _renderCosmeticModel_stable wire color partType texture shadowTexture parent z nodes :
  ∀ ch, stable ch (stateOf (_renderCosmeticModel wire nodes parent color partType texture z
                              shadowTexture ch)).
Proof.
  induction nodes as [|node nodes IH]; intros ch; [apply stable_refl|]. simpl.
  pose proof (_renderCosmeticNode_stable wire color partType texture shadowTexture node
                parent z ch) as Hs.
  destruct (_renderCosmeticNode _ _ _ _ _ _ _ _ _) as [ch1|ch1]; simpl in *; [|done].
  eapply stable_trans; [exact Hs|apply IH].
Qed.


End Cosmetics.

Lemma onlyAdds_refl v : onlyAdds v v.
Proof.
  split; [destruct (character v); [apply stable_refl|done]|]. by repeat split.
Qed.

Lemma onlyAdds_trans v1 v2 v3 : onlyAdds v1 v2 → onlyAdds v2 v3 → onlyAdds v1 v3.
Proof.
  intros (Hc & Ht & Hs & Hm & Hw & Ha & Hn & Hp & He & Hl)
    (Hc' & Ht' & Hs' & Hm' & Hw' & Ha' & Hn' & Hp' & He' & Hl').
  split.
  { destruct (character v1), (character v2), (character v3); try done.
    by eapply stable_trans. }
  split; [by etrans|]. split; [by eapply sameSets_trans|]. repeat split; congruence.
Qed.

Section Building.
Context `{Host}.

Lemma set_textureCache_onlyAdds v m :
  textureCache v ⊆ m → onlyAdds v (set_textureCache m v).
Proof.
  intros Hm. unfold onlyAdds. simpl.
  split; [destruct (character v); [apply stable_refl|done]|]. by repeat split.
Qed.

Lemma tryPaths_onlyAdds path cands v :
  textureCache v !! path = None → onlyAdds v (snd (tryPaths path cands v)).
Proof.
  intros Hm. induction cands as [|c cands IH]; simpl; [apply onlyAdds_refl|].
  destruct (loadImage c); [|done]. simpl.
  by apply set_textureCache_onlyAdds, insert_subseteq.
Qed.

Lemma _loadTexture_onlyAdds path v : onlyAdds v (snd (_loadTexture path v)).
Proof.
  unfold _loadTexture. destruct (textureCache v !! path) eqn:E; [apply onlyAdds_refl|].
  by apply tryPaths_onlyAdds.
Qed.

Lemma _loadGradientData_onlyAdds g0 v : onlyAdds v (snd (_loadGradientData g0 v)).
Proof.
  unfold _loadGradientData. case_decide; [apply onlyAdds_refl|].
  pose proof (_loadTexture_onlyAdds g0 v). by destruct (_loadTexture g0 v).
Qed.

Lemma _createTintedTexture_onlyAdds path c g0 v :
  onlyAdds v (snd (_createTintedTexture path c g0 v)).
Proof.
  unfold _createTintedTexture.
  pose proof (_loadTexture_onlyAdds path v) as H1.
  destruct (_loadTexture path v) as [tex v1]. simpl in H1.
  destruct (tex ≫= image); [|done].
  pose proof (_loadGradientData_onlyAdds g0 v1) as H2.
  destruct (_loadGradientData g0 v1) as [gd v2]. simpl in *.
  by eapply onlyAdds_trans.
Qed.

Lemma _renderPlayerNode_stable v skinColor bodyTexture node :
  ∀ parent ch, stable ch (_renderPlayerNode v node parent skinColor bodyTexture ch).
Proof.
  induction node as [nm id pos ori shp cs IH] using ModelNode_ind.
  intros parent ch. cbn [_renderPlayerNode node_children]. cbv zeta.
  match goal with
  | |- context [attach ?group ?target ch] =>
      pose proof (attach_stable group target ch) as Hs;
      destruct (attach group target ch) as [ch1 groupRef]
  end.
  simpl in Hs. eapply stable_trans; [exact Hs|]. clear Hs.
  revert ch1. induction cs as [|c cs IHcs]; intros ch1; [apply stable_refl|].
  apply Forall_cons in IH as [Hc Hcs].
  eapply stable_trans; [apply Hc|]. by apply IHcs.
Qed.

Lemma _renderPlayerModel_stable v nodes0 parent skinColor bodyTexture :
  ∀ ch, stable ch (_renderPlayerModel v nodes0 parent skinColor bodyTexture ch).
Proof.
  unfold _renderPlayerModel. induction (default [] nodes0) as [|node l IH]; intros ch.
  - apply stable_refl.
  - cbn [foldl]. eapply stable_trans; [apply _renderPlayerNode_stable|apply IH].
Qed.

Lemma set_character_onlyAdds v ch ch' :
  character v = Some ch → stable ch ch' → onlyAdds v (set_character (Some ch') v).
Proof.
  intros Hch Hs. unfold onlyAdds. simpl. rewrite Hch. by repeat split.
Qed.

Lemma renderCosmetic_onlyAdds key z part color tex v :
  onlyAdds v
    match _fetchModel (if String.prefix "Common/" (part_model part) then part_model part
                       else "Common/" +:+ part_model part), character v with
    | FetchOk model, Some ch =>
        let shadowTexture :=
          if decide (key = "eyes") then _createEyeShadowTexture tex else None in
        match nodes model with
        | None => v
        | Some ns =>
            set_character
              (Some (stateOf (_renderCosmeticModel (wireframeMode v) ns [] color key
                                tex z shadowTexture ch))) v
        end
    | _, _ => v
    end.
Proof.
  destruct (_fetchModel _) as [doc| |]; [|apply onlyAdds_refl..].
  destruct (character v) as [ch|] eqn:Hch; [|apply onlyAdds_refl]. simpl.
  destruct (nodes doc); [|apply onlyAdds_refl].
  apply (set_character_onlyAdds v ch); [done|]. apply _renderCosmeticModel_stable.
Qed.

Lemma buildCosmetic_onlyAdds data key z part sc sch stg v :
  onlyAdds v (buildCosmetic data key z part sc sch stg v).
Proof.
  unfold buildCosmetic.
  set (color := match _getPartColor part with Some _ => _ | None => _ end). clearbody color.
  destruct (negb (bool_decide (part_texture part = ""))).
  - pose proof (_loadTexture_onlyAdds (part_texture part) v) as Hs.
    destruct (_loadTexture (part_texture part) v) as [tex v1].
    eapply onlyAdds_trans; [exact Hs|]. apply renderCosmetic_onlyAdds.
  - destruct (negb (bool_decide (greyscaleTexture part = ""))).
    + destruct (if _ || _ then _ else _) as [[gp bc] c2].
      match goal with |- context [_createTintedTexture ?a ?b ?c v] =>
        pose proof (_createTintedTexture_onlyAdds a b c v) as Hs;
        destruct (_createTintedTexture a b c v) as [tex v1] end.
      eapply onlyAdds_trans; [exact Hs|]. apply renderCosmetic_onlyAdds.
    + apply renderCosmetic_onlyAdds.
Qed.

Lemma _buildCharacter_onlyAdds (data : ModelData) (v : Viewer) :
  onlyAdds v (_buildCharacter data v).
Proof.
  unfold _buildCharacter.
  set (v1 := match _fetchModel _ with FetchOk _ => _ | _ => v end).
  assert (onlyAdds v v1) as H1.
  { unfold v1. destruct (_fetchModel _); [|apply onlyAdds_refl..].
    match goal with |- context [_createTintedTexture ?a ?b ?c v] =>
        pose proof (_createTintedTexture_onlyAdds a b c v) as Hs;
        destruct (_createTintedTexture a b c v) as [tex v2] end.
    simpl in *. destruct (character v2) as [ch2|] eqn:Hch2; [|exact Hs].
    eapply onlyAdds_trans; [exact Hs|].
    apply (set_character_onlyAdds v2 ch2); [done|]. apply _renderPlayerModel_stable. }
  clearbody v1. revert v1 H1.
  induction cosmeticOrder as [|[key z] l IH]; intros v1 H1; [done|].
  cbn [foldl]. apply IH.
  destruct (getPart data key); [|done]. case_decide; [done|].
  eapply onlyAdds_trans; [done|apply buildCosmetic_onlyAdds].
Qed.

(** X21. [_buildCharacter] only adds: every object of the scene graph it
    started from is still at its place with its name, transform and mesh
    (a load on top of an earlier avatar keeps the earlier objects), every
    cached texture is still cached, and the hidden set, the offset set, the
    rest-pose cache, the descriptor, the wireframe flag and the animation
    state are untouched. *)
Theorem building_only_adds (data : ModelData) (v : Viewer) :
  let v' := _buildCharacter data v in
  (∀ ch, character v = Some ch → ∃ ch', character v' = Some ch' ∧ stable ch ch')
  ∧ (character v = None → character v' = None)
  ∧ textureCache v ⊆ textureCache v'
  ∧ hiddenBodyParts v' = hiddenBodyParts v
  ∧ polygonOffsetParts v' = polygonOffsetParts v
  ∧ originalTransforms v' = originalTransforms v
  ∧ modelData v' = modelData v ∧ wireframeMode v' = wireframeMode v
  ∧ currentAnimation v' = currentAnimation v ∧ animationTime v' = animationTime v
  ∧ currentAnimationPath v' = currentAnimationPath v.
Proof.
  cbv zeta.
  destruct (_buildCharacter_onlyAdds data v)
    as (Hc & Ht & (Hh & Ho & Hr) & Hm & Hw & Ha & Hn & Hp & _).
  split; [|split].
  - intros ch Hch. rewrite Hch in Hc.
    destruct (character (_buildCharacter data v)) as [ch'|]; [|done]. by exists ch'.
  - intros Hch. rewrite Hch in Hc. by destruct (character (_buildCharacter data v)).
  - done.
Qed.

End Building.

Lemma bonesOf_unfold o :
  bonesOf o = mkObject3D (name o) (position o) (quaternion o) None (bonesOfList (children o)).
Proof.
  by destruct o.
Qed.

Lemma bonesOfList_app cs cs' : bonesOfList (cs ++ cs') = bonesOfList cs ++ bonesOfList cs'.
Proof.
  induction cs as [|c cs IH]; [done|]. simpl. destruct (mesh c); by rewrite IH.
Qed.

Lemma updateAt_addChild_in (c g : Object3D) (p : Path) : ∀ ch b,
  objectAt ch p = Some b →
  updateAt (addChild c) (p ++ [length (children b)]) (updateAt (addChild g) p ch)
  = updateAt (addChild (addChild c g)) p ch.
Proof.
  induction p as [|i p IH]; intros ch b Hb; simpl in *.
  - injection Hb as <-. destruct ch as [n pos q m cs]. simpl. f_equal.
    replace (length cs) with (length cs + 0)%nat by lia.
    by rewrite alter_app_r.
  - destruct (children ch !! i) as [c0|] eqn:Hc; [|done]. simpl in Hb.
    f_equal. rewrite list_alter_alter_eq. apply list_alter_ext; [|done].
    intros x Hx. assert (x = c0) as -> by congruence. simpl. by eapply IH.
Qed.

Section Subtree.
Context `{Host}.

Lemma children_foldl_addChild g subs :
  children (foldl (λ g sub, addChild sub g) g subs) = children g ++ subs.
Proof.
  revert g. induction subs as [|s subs IH]; intros g; simpl; [by rewrite app_nil_r|].
  rewrite IH. simpl. by rewrite <- app_assoc.
Qed.

Lemma _renderPlayerNode_subtree v skinColor bodyTexture node : ∀ parent ch,
  is_Some (objectAt ch parent) →
  _renderPlayerNode v node parent skinColor bodyTexture ch
  = updateAt (addChild (playerSubtree v skinColor bodyTexture node)) parent ch.
Proof.
  induction node as [nm id pos ori shp cs IH] using ModelNode_ind.
  intros parent ch [b Hb]. cbn [_renderPlayerNode playerSubtree node_children]. cbv zeta.
  set (group := if decide _ then _ else _). clearbody group.
  unfold attach. rewrite Hb. cbn [from_option].
  revert group. induction cs as [|c cs IHcs]; intros group; [done|].
  apply Forall_cons in IH as [Hc Hcs]. cbn [fmap list_fmap foldl].
  rewrite Hc.
  - rewrite (updateAt_addChild_in _ _ _ _ b Hb). 
    rewrite <- (IHcs Hcs (addChild (playerSubtree v skinColor bodyTexture c) group)).
    done.
  - rewrite (objectAt_attach group parent ch b Hb). by eexists.
Qed.

Lemma foldl_addChild_own g subs :
  let g' := foldl (λ g sub, addChild sub g) g subs in
  name g' = name g ∧ position g' = position g ∧ quaternion g' = quaternion g
  ∧ mesh g' = mesh g ∧ children g' = children g ++ subs.
Proof.
  cbv zeta. revert g. induction subs as [|s subs IH]; intros g.
  - simpl. by rewrite app_nil_r.
  - cbn [foldl]. destruct (IH (addChild s g)) as (-> & -> & -> & -> & ->).
    simpl. by rewrite <- app_assoc.
Qed.

Lemma _applyTransform_own group node :
  name (_applyTransform group node) = name group
  ∧ mesh (_applyTransform group node) = mesh group
  ∧ children (_applyTransform group node) = children group.
Proof. unfold _applyTransform. by destruct (node_orientation node). Qed.

Lemma playerSubtree_own v skinColor bodyTexture node :
  let g := playerSubtree v skinColor bodyTexture node in
  let base := _applyTransform (setName (nodeNameOf node) newGroup) node in
  name g = nodeNameOf node ∧ mesh g = None
  ∧ position g = position base ∧ quaternion g = quaternion base
  ∧ bonesOfList (children g)
    = bonesOfList (playerSubtree v skinColor bodyTexture <$> node_children node).
Proof.
  destruct node as [nm id pos ori shp cs]. cbn [playerSubtree node_children]. cbv zeta.
  set (node := mkModelNode nm id pos ori shp cs).
  set (base := _applyTransform (setName (nodeNameOf node) newGroup) node).
  assert (name base = nodeNameOf node ∧ mesh base = None ∧ children base = [])
    as (Bn & Bm & Bc)
    by exact (_applyTransform_own (setName (nodeNameOf node) newGroup) node).
  set (group := if decide _ then _ else _).
  assert (name group = nodeNameOf node ∧ mesh group = None ∧ position group = position base
          ∧ quaternion group = quaternion base ∧ bonesOfList (children group) = [])
    as (Hn & Hm & Hp & Hq & Hc).
  { unfold group. clear group.
    destruct (decide (nodeNameOf node ∈ hiddenBodyParts v)); [by rewrite Bc|].
    destruct (playerMesh _ _ _ _ _); [|by rewrite Bc].
    cbn [children addChild name mesh position quaternion]. by rewrite Bc. }
  destruct (foldl_addChild_own group (playerSubtree v skinColor bodyTexture <$> cs))
    as (-> & -> & -> & -> & ->).
  by rewrite bonesOfList_app, Hc.
Qed.

Lemma bonesOf_playerSubtree v v' sc sc' tex tex' node :
  bonesOf (playerSubtree v sc tex node) = bonesOf (playerSubtree v' sc' tex' node).
Proof.
  induction node as [nm id pos ori shp cs IH] using ModelNode_ind.
  rewrite !bonesOf_unfold.
  destruct (playerSubtree_own v sc tex (mkModelNode nm id pos ori shp cs))
    as (-> & _ & -> & -> & ->).
  destruct (playerSubtree_own v' sc' tex' (mkModelNode nm id pos ori shp cs))
    as (-> & _ & -> & -> & ->).
  f_equal. cbn [node_children].
  induction cs as [|c cs IHcs]; [done|]. apply Forall_cons in IH as [Hc Hcs].
  cbn [fmap list_fmap bonesOfList].
  destruct (playerSubtree_own v sc tex c) as (_ & -> & _).
  destruct (playerSubtree_own v' sc' tex' c) as (_ & -> & _).
  by rewrite Hc, IHcs.
Qed.

Lemma updateAt_compose (f g : Object3D → Object3D) (p : Path) : ∀ ch,
  updateAt f p (updateAt g p ch) = updateAt (f ∘ g) p ch.
Proof.
  induction p as [|i p IH]; intros ch; [done|]. simpl. f_equal.
  rewrite list_alter_alter_eq. apply list_alter_ext; [|done]. intros x _. apply IH.
Qed.

Lemma objectAt_updateAt_is_Some f p : ∀ ch,
  is_Some (objectAt ch p) → is_Some (objectAt (updateAt f p ch) p).
Proof.
  induction p as [|i p IH]; intros ch; [by eexists|]. simpl.
  rewrite list_lookup_alter_eq. destruct (children ch !! i) as [c|]; [|done]. simpl. apply IH.
Qed.

Lemma updateAt_id (p : Path) : ∀ ch, updateAt (λ o, o) p ch = ch.
Proof.
  induction p as [|i p IH]; intros ch; [done|].
  destruct ch as [n pos q m cs]. simpl. f_equal. apply list_alter_id. intros x. apply IH.
Qed.

(** The loop of [_renderPlayerModel], started after an update [f] of the
    parent *)
Lemma foldl__renderPlayerNode_subtrees v skinColor bodyTexture parent ch nodes : ∀ f,
  is_Some (objectAt ch parent) →
  foldl (λ ch node, _renderPlayerNode v node parent skinColor bodyTexture ch)
        (updateAt f parent ch) nodes
  = updateAt (λ o, foldl (λ g sub, addChild sub g) (f o)
                     (playerSubtree v skinColor bodyTexture <$> nodes)) parent ch.
Proof.
  induction nodes as [|node nodes IH]; intros f Hp; [done|]. cbn [foldl fmap list_fmap].
  rewrite _renderPlayerNode_subtree by (by apply objectAt_updateAt_is_Some).
  rewrite updateAt_compose. by rewrite IH.
Qed.

(** X22. Rendering the player model under an existing parent adds, after
    the children the parent already has, one subtree per top-level node in
    document order, each subtree being the node's group with its mesh
    (unless the part is hidden) followed by the subtrees of its children;
    nothing else of the graph changes. *)
Theorem player_model_renders_as_subtrees (v : Viewer) (nodes0 : option (list ModelNode))
    (parent : Path) (skinColor : Z) (bodyTexture : option Texture) (ch : Object3D) :
  is_Some (objectAt ch parent) →
  _renderPlayerModel v nodes0 parent skinColor bodyTexture ch
  = updateAt (λ o, foldl (λ g sub, addChild sub g) o
                     (playerSubtree v skinColor bodyTexture <$> default [] nodes0))
             parent ch.
Proof.
  intros Hp. unfold _renderPlayerModel.
  pose proof (foldl__renderPlayerNode_subtrees v skinColor bodyTexture parent ch
                (default [] nodes0) (λ o, o) Hp) as Hloop.
  by rewrite updateAt_id in Hloop.
Qed.

(** X23. The skeleton that [_renderPlayerModel] builds (the groups with
    their names and transforms, the meshes left out) depends only on the
    model document: hidden parts, wireframe mode, skin colour and body
    texture change the meshes, never the bones. *)
Theorem skeleton_does_not_depend_on_hidden_parts (v v' : Viewer)
    (nodes0 : option (list ModelNode)) (sc sc' : Z) (tex tex' : option Texture)
    (ch : Object3D) :
  bonesOf (_renderPlayerModel v nodes0 [] sc tex ch)
  = bonesOf (_renderPlayerModel v' nodes0 [] sc' tex' ch).
Proof.
  unfold _renderPlayerModel. generalize (default [] nodes0) as nodes. intros nodes.
  assert (is_Some (objectAt ch [])) as Hp by (by eexists).
  pose proof (foldl__renderPlayerNode_subtrees v sc tex [] ch nodes (λ o, o) Hp) as E.
  pose proof (foldl__renderPlayerNode_subtrees v' sc' tex' [] ch nodes (λ o, o) Hp) as E'.
  cbn [updateAt] in E, E'. rewrite E, E'. clear E E'.
  rewrite !bonesOf_unfold.
  destruct (foldl_addChild_own ch (playerSubtree v sc tex <$> nodes))
    as (-> & -> & -> & _ & ->).
  destruct (foldl_addChild_own ch (playerSubtree v' sc' tex' <$> nodes))
    as (-> & -> & -> & _ & ->).
  f_equal. rewrite !bonesOfList_app. f_equal.
  induction nodes as [|c cs IH]; [done|]. cbn [fmap list_fmap bonesOfList].
  destruct (playerSubtree_own v sc tex c) as (_ & -> & _).
  destruct (playerSubtree_own v' sc' tex' c) as (_ & -> & _).
  by rewrite IH, (bonesOf_playerSubtree v v' sc sc' tex tex' c).
Qed.

End Subtree.

Section Throws.
Context `{Host}.

Lemma cosmeticMesh_Done wire node nodeName color partType texture shadowTexture :
  partType ≠ "eyes" ∨ shadowTexture = None →
  ∃ m, cosmeticMesh wire node nodeName color partType texture shadowTexture = Done m.
Proof.
  intros Hno. unfold cosmeticMesh. destruct (node_shape node) as [shape|]; [|by eexists].
  destruct (_ && _); [|by eexists].
  case_decide; [by eexists|]. case_decide; [|by eexists].
  destruct (bool_decide (partType = "eyes") && includes nodeName "Background"
            && bool_decide (is_Some shadowTexture)) eqn:E; [|by eexists].
  apply andb_prop in E as [E1 E2]. apply andb_prop in E1 as [E1 _].
  apply bool_decide_eq_true in E1, E2.
  destruct Hno as [?| ->]; [done|]. by destruct E2.
Qed.

Lemma _renderCosmeticNode_Done wire color partType texture shadowTexture node :
  partType ≠ "eyes" ∨ shadowTexture = None →
  ∀ parent z ch, ∃ ch',
    _renderCosmeticNode wire node parent color partType texture z shadowTexture ch = Done ch'.
Proof.
  intros Hno. induction node as [nm id pos ori shp cs IH] using ModelNode_ind.
  intros parent z ch. rewrite _renderCosmeticNode_unfold. cbv zeta.
  destruct (cosmeticMesh_Done wire (mkModelNode nm id pos ori shp cs)
              (nodeNameOf (mkModelNode nm id pos ori shp cs)) color partType texture
              shadowTexture Hno) as [m ->].
  destruct (attach _ _ ch) as [ch1 groupRef]. cbn [node_children].
  revert ch1. induction cs as [|c cs IHcs]; intros ch1; [by eexists|].
  apply Forall_cons in IH as [Hc Hcs]. cbn [eachCosmeticChild]. cbv zeta.
  destruct (_findBoneByName ch1 (nodeNameOf c)) as [bone|].
  - destruct (Hc bone z ch1) as [ch2 ->]. by apply IHcs.
  - destruct (Hc groupRef 0 ch1) as [ch2 ->]. by apply IHcs.
Qed.

(** X24. Rendering a cosmetic model can only throw in the eye-shadow
    branch: for a slot other than eyes, or without a shadow texture,
    [_renderCosmeticModel] completes on every list of nodes, every parent
    and every scene graph. *)
Theorem cosmetic_render_throws_only_for_eye_shadows (wire : bool) (nodes0 : list ModelNode)
    (parent : Path) (color : Z) (partType : string) (texture shadowTexture : option Texture)
    (zOffset : Qc) (ch : Object3D) :
  partType ≠ "eyes" ∨ shadowTexture = None →
  ∃ ch', _renderCosmeticModel wire nodes0 parent color partType texture zOffset
           shadowTexture ch = Done ch'.
Proof.
  intros Hno. revert ch. induction nodes0 as [|node nodes IH]; intros ch; [by eexists|].
  simpl.
  destruct (_renderCosmeticNode_Done wire color partType texture shadowTexture node Hno
              parent zOffset ch) as [ch1 ->].
  apply IH.
Qed.

End Throws.

(** ** Loading an avatar *)

Section LoadOutcome.
Context `{Host}.

(** X25. [loadAvatar] throws when the descriptor cannot be fetched, and
    then changes nothing; it throws when the descriptor carries an error,
    and then has replaced [modelData] by that descriptor but kept the
    scene graph, the three collections, the texture cache and the
    animation of the avatar shown before.  With a descriptor without
    error it returns exactly when the viewer has a character (without
    one, before [init()], the first frame throws); returning or not, it
    leaves the descriptor as [modelData], the animation of the current
    animation path loaded, the present time as last frame time, a hidden
    set and an offset set that contain the earlier ones, and every
    texture cached before still cached. *)
Theorem failed_load_keeps_the_previous_avatar (uuid : string) (now now' : Qc) (v : Viewer) :
  (fetchAvatar uuid = FetchNotOk ∨ fetchAvatar uuid = FetchRejected →
   loadAvatar uuid now now' v = Thrown v)
  ∧ (∀ data, fetchAvatar uuid = FetchOk data → md_error data ≠ "" →
     ∃ v', loadAvatar uuid now now' v = Thrown v'
           ∧ modelData v' = Some data
           ∧ character v' = character v ∧ sameSets v v'
           ∧ textureCache v' = textureCache v
           ∧ currentAnimation v' = currentAnimation v
           ∧ lastFrameTime v' = lastFrameTime v)
  ∧ (∀ data, fetchAvatar uuid = FetchOk data → md_error data = "" →
     let v' := stateOf (loadAvatar uuid now now' v) in
     (loadAvatar uuid now now' v = Done v' ↔ is_Some (character v))
     ∧ (loadAvatar uuid now now' v = Thrown v' ↔ character v = None)
     ∧ modelData v' = Some data
     ∧ currentAnimation v' = _loadAnimation (currentAnimationPath v)
     ∧ lastFrameTime v' = now'
     ∧ hiddenBodyParts v ⊆ hiddenBodyParts v'
     ∧ polygonOffsetParts v ⊆ polygonOffsetParts v'
     ∧ textureCache v ⊆ textureCache v').
Proof.
  unfold loadAvatar. split; [|split].
  - by intros [-> | ->].
  - intros data -> Herr. rewrite decide_False by done. eexists. split; [done|]. by repeat split.
  - intros data -> Herr. rewrite decide_True by done. cbv zeta.
    set (v0 := set_modelData (Some data) v).
    pose proof (_determineHiddenParts_adds data v0) as E1.
    set (v1 := _determineHiddenParts data v0) in *.
    assert (character v1 = character v ∧ textureCache v1 = textureCache v
            ∧ hiddenBodyParts v ⊆ hiddenBodyParts v1
            ∧ polygonOffsetParts v ⊆ polygonOffsetParts v1
            ∧ modelData v1 = Some data
            ∧ currentAnimationPath v1 = currentAnimationPath v)
      as (C1 & T1 & H1 & P1 & M1 & A1).
    { rewrite E1. cbn. repeat split; try done; apply union_subseteq_l. }
    clearbody v1. clear E1 v0.
    pose proof (_buildCharacter_onlyAdds data v1)
      as (Hc & Ht & (Hh & Ho & _) & Hm & _ & _ & _ & Hpath & _).
    set (v2 := _buildCharacter data v1) in *. clearbody v2.
    set (v3 := set_lastFrameTime now
                 (set_currentAnimation (_loadAnimation (currentAnimationPath v2)) v2)).
    assert (character v3 = character v2 ∧ textureCache v3 = textureCache v2
            ∧ hiddenBodyParts v3 = hiddenBodyParts v2
            ∧ polygonOffsetParts v3 = polygonOffsetParts v2
            ∧ modelData v3 = modelData v2
            ∧ currentAnimation v3 = _loadAnimation (currentAnimationPath v2))
      as (C3 & T3 & H3 & P3 & M3 & A3) by done.
    destruct (_animate_fields now' v3) as (Fm & Ft & Fh & Fp & Fa & Fl & Fd).
    cbv zeta in Fm, Ft, Fh, Fp, Fa, Fl, Fd.
    set (r := _animate now' v3) in *. clearbody r v3.
    assert (is_Some (character v3) ↔ is_Some (character v)) as Hsome.
    { rewrite C3, <- C1. by destruct (character v1), (character v2). }
    rewrite Fm, Fa, Fl, Fh, Fp, Ft, M3, A3, H3, P3, T3, Hm, Hh, Ho, Hpath, M1, A1.
    split; [by rewrite Fd|]. split.
    { destruct r as [s|s]; simpl in *.
      - split; [done|]. intros Hn. destruct Fd as [Fd _]. specialize (Fd eq_refl).
        apply Hsome in Fd. rewrite Hn in Fd. by destruct Fd.
      - split; [|done]. intros _. destruct (character v) eqn:Hn; [|done].
        destruct Fd as [_ Fd]. by specialize (Fd (proj2 Hsome ltac:(by eexists))). }
    split; [done|]. split; [done|]. split; [done|].
    split; [done|]. split; [done|]. by rewrite <- T1.
Qed.

(** X26. [loadFromSkinData] throws on a viewer without a character, and
    then changes nothing.  On a viewer with a character it returns and
    starts from scratch: afterwards the hidden set, the offset set and the
    rest-pose cache are empty and [modelData] is the descriptor without
    parts made of the skin tone and body type given (01 and Regular when
    absent); every texture cached before is still cached; and the outcome
    is the same whatever children the character root had and whatever the
    descriptor, the hidden set, the offset set and the rest-pose cache
    were before the call. *)
Theorem preview_starts_from_scratch (skinData : SkinData) (v : Viewer) :
  (character v = None → loadFromSkinData skinData v = Thrown v)
  ∧ (∀ ch, character v = Some ch →
     ∃ v', loadFromSkinData skinData v = Done v'
       ∧ hiddenBodyParts v' = ∅ ∧ polygonOffsetParts v' = ∅ ∧ originalTransforms v' = ∅
       ∧ modelData v'
         = Some (mkModelData ""
                   (if decide (sd_skinTone skinData = "") then "01"
                    else sd_skinTone skinData)
                   (if decide (sd_bodyType skinData = "") then "Regular"
                    else sd_bodyType skinData)
                   (Some ∅))
       ∧ textureCache v ⊆ textureCache v'
       ∧ ∀ cs md hs ps ot,
           loadFromSkinData skinData
             (set_originalTransforms ot (set_polygonOffsetParts ps (set_hiddenBodyParts hs
                (set_modelData md
                   (set_character
                      (Some (mkObject3D (name ch) (position ch) (quaternion ch) (mesh ch) cs))
                      v)))))
           = Done v').
Proof.
  split.
  { intros Hc. unfold loadFromSkinData. by rewrite Hc. }
  intros ch Hc.
  destruct (loadFromSkinData_rebuilds skinData v) as (Hh & Hp & Ho); [by eexists|].
  cbv zeta in Hh, Hp, Ho. revert Hh Hp Ho.
  unfold loadFromSkinData. rewrite Hc. cbn [character set_character set_modelData
    set_hiddenBodyParts set_polygonOffsetParts set_originalTransforms stateOf]. cbv zeta.
  set (data := mkModelData _ _ _ _).
  set (v0 := set_modelData _ _).
  intros Hh Hp Ho. eexists. split; [reflexivity|].
  split; [exact Hh|]. split; [exact Hp|]. split; [exact Ho|].
  pose proof (_buildCharacter_onlyAdds data (_determineHiddenParts data v0))
      as (_ & Ht & _ & Hm & _).
  rewrite Hm.
  rewrite _determineHiddenParts_adds in Ht |- *.
  split; [done|]. split; [exact Ht|].
  intros cs md hs ps ot. done.
Qed.

End LoadOutcome.

(** ** The head pre-render worker *)

(** [dedupe] keeps one copy of each element that has not been seen *)
Lemma dedupe_spec (l : list string) : ∀ seen,
  NoDup (dedupe seen l)
  ∧ ∀ x, x ∈ dedupe seen l ↔ x ∈ l ∧ x ∉ seen.
Proof.
  induction l as [|y l IH]; intros seen; simpl.
  - split; [constructor|]. intros x. rewrite elem_of_nil. tauto.
  - case_decide as Hy.
    + destruct (IH seen) as [Hnd Hin]. split; [done|]. intros x. rewrite Hin, elem_of_cons.
      split; [tauto|]. intros [[->|?] ?]; tauto.
    + destruct (IH (y :: seen)) as [Hnd Hin]. split.
      * constructor; [|done]. rewrite Hin, elem_of_cons. tauto.
      * intros x. rewrite !elem_of_cons, Hin, elem_of_cons.
        destruct (decide (x = y)) as [->|]; tauto.
Qed.

Lemma chunks_spec (n fuel : nat) : ∀ l,
  (1 ≤ n)%nat → (length l < fuel)%nat →
  concat (chunks fuel n l) = l
  ∧ Forall (λ b, (1 ≤ length b ≤ n)%nat) (chunks fuel n l)
  ∧ (∀ k b, chunks fuel n l !! k = Some b → (S k < length (chunks fuel n l))%nat →
       length b = n)
  ∧ (length (chunks fuel n l) = (length l + n - 1) / n)%nat.
Proof.
  induction fuel as [|fuel IH]; intros l Hn Hf; [lia|].
  cbn [chunks]. destruct l as [|x l]; [|].
  - repeat split; try done. simpl. symmetry. apply Nat.div_small. lia.
  - set (l0 := x :: l) in *.
    assert (length (drop n l0) < fuel)%nat as Hd by (rewrite length_drop; simpl in *; lia).
    destruct (IH (drop n l0) Hn Hd) as (Hc & Hall & Hfull & Hlen).
    split; [|split; [|split]].
    + cbn [concat]. rewrite Hc. apply take_drop.
    + constructor; [|done]. rewrite length_take. simpl. lia.
    + intros [|k] b Hk Hlast; simpl in Hk, Hlast.
      * injection Hk as <-. rewrite length_take.
        destruct (chunks fuel n (drop n l0)) as [|b' bs] eqn:E; [simpl in Hlast; lia|].
        assert (drop n l0 ≠ []) as Hne.
        { intros E0. rewrite E0 in E. by destruct fuel. }
        assert (n < length l0)%nat.
        { destruct (decide (n < length l0)%nat); [done|]. destruct Hne. apply drop_ge. lia. }
        lia.
      * apply (Hfull k b Hk). lia.
    + cbn [length]. rewrite Hlen, length_drop.
      destruct (decide (length l0 ≤ n)%nat) as [Hle|Hgt].
      * assert ((length l0 - n + n - 1) / n = 0)%nat as -> by (apply Nat.div_small; lia).
        apply (Nat.div_unique _ n 1 (length l0 - 1)); simpl in *; lia.
      * replace (length l0 + n - 1)%nat with ((length l0 - n + n - 1) + 1 * n)%nat by lia.
        rewrite Nat.div_add by lia. lia.
Qed.

Section WorkerFacts.
Variable cacheFile : string → string.
Variable BG_COLOR : string.
Variable parsedBatchSize : option Z.
Variable scan : string → Worker.Reply (string * list string).
Variable smembers : string → Worker.Reply (list string).

Local Abbreviation fileOf := (Worker.fileOf cacheFile BG_COLOR).
Local Abbreviation isCached := (Worker.isCached cacheFile BG_COLOR).
Local Abbreviation filterUncached := (Worker.filterUncached cacheFile BG_COLOR).
Local Abbreviation BATCH_SIZE := (Worker.BATCH_SIZE parsedBatchSize).
Local Abbreviation batchesFrom := (Worker.batchesFrom parsedBatchSize).

(** X27. [isCached] answers true only for a file that exists and is no
    older than [HEAD_CACHE_TTL], and then leaves the directory alone.
    When it answers false the file does not exist afterwards (an expired
    file is deleted), and no other file is touched.  Asked again at the
    same time, it gives the same answer and changes nothing more. *)
Theorem cache_check_is_sound_and_deletes_only_expired (uuid : string) (now : Qc)
    (fs : Worker.Files) :
  let '(cached, fs') := isCached uuid now fs in
  (cached = true →
     fs' = fs ∧ ∃ mtime, fs !! fileOf uuid = Some mtime ∧ now - mtime ≤ Worker.HEAD_CACHE_TTL)
  ∧ (cached = false → fs' = delete (fileOf uuid) fs ∧ fs' !! fileOf uuid = None)
  ∧ fs' ⊆ fs
  ∧ isCached uuid now fs' = (cached, fs').
Proof.
  unfold Worker.isCached. cbv zeta.
  change (cacheFile ((uuid +:+ "_" +:+ BG_COLOR) +:+ ".png")) with (fileOf uuid).
  destruct (fs !! fileOf uuid) as [mtime|] eqn:Hf.
  - case_decide as Hage.
    + split; [done|]. split; [by rewrite lookup_delete_eq|]. split; [apply delete_subseteq|].
      by rewrite lookup_delete_eq.
    + split; [|split; [done|]].
      * intros _. split; [done|]. exists mtime. split; [done|]. by apply Qcnot_lt_le.
      * split; [done|]. by rewrite Hf, decide_False.
  - split; [done|]. split; [|split; [done|by rewrite Hf]].
    intros _. split; [|done]. symmetry. by apply delete_id.
Qed.

Lemma BATCH_SIZE_default :
  (∀ n, parsedBatchSize = Some n → (0 ≤ n)%Z) → (1 ≤ BATCH_SIZE)%Z.
Proof.
  intros Hp. unfold Worker.BATCH_SIZE. destruct parsedBatchSize as [n|]; [|lia].
  specialize (Hp n eq_refl). case_decide; lia.
Qed.

Lemma slice_chunk (l : list string) (i : nat) (size : Z) :
  (1 ≤ size)%Z → (i < length l)%nat →
  Worker.slice l (Z.of_nat i) (Z.of_nat i + size) = take (Z.to_nat size) (drop i l).
Proof.
  intros HB Hi. unfold Worker.slice, Worker.sliceIdx.
  rewrite !decide_False by lia.
  rewrite (Z.min_l (Z.of_nat i)) by lia. rewrite Nat2Z.id.
  destruct (decide (Z.of_nat i + size ≤ Z.of_nat (length l))%Z).
  - rewrite Z.min_l by lia. f_equal. lia.
  - rewrite Z.min_r by lia.
    rewrite !take_ge; [done| |]; rewrite length_drop; lia.
Qed.

Lemma batchesFrom_chunks (l : list string) (fuel : nat) : ∀ i : nat,
  (1 ≤ BATCH_SIZE)%Z → (length l - i < fuel)%nat →
  batchesFrom fuel l (Z.of_nat i) = Some (chunks fuel (Z.to_nat BATCH_SIZE) (drop i l)).
Proof.
  induction fuel as [|fuel IH]; intros i HB Hf; [lia|].
  cbn [Worker.batchesFrom chunks]. case_decide as Hi.
  - rewrite slice_chunk by lia.
    replace (Z.of_nat i + BATCH_SIZE)%Z with (Z.of_nat (i + Z.to_nat BATCH_SIZE)) by lia.
    rewrite IH by lia. simpl. rewrite drop_drop.
    destruct (drop i l) eqn:E; [|done].
    apply (f_equal length) in E. rewrite length_drop in E. simpl in E. lia.
  - rewrite drop_ge by lia. done.
Qed.

(** X28. When [BATCH_SIZE] is unset, unparsable, zero or positive (zero and
    NaN fall back to 5), the batch loop of [runWorker] ends, and its
    batches cut the uncached list into consecutive pieces: concatenated
    they are the list, none is empty or longer than [BATCH_SIZE], all but
    the last have exactly [BATCH_SIZE] heads, and there are
    ceil(length / BATCH_SIZE) of them. *)
Theorem batches_partition_the_uncached_list (uncached : list string) (fuel : nat) :
  (∀ n, parsedBatchSize = Some n → (0 ≤ n)%Z) → (length uncached < fuel)%nat →
  ∃ batches,
    batchesFrom fuel uncached 0 = Some batches
    ∧ concat batches = uncached
    ∧ Forall (λ b, (1 ≤ Z.of_nat (length b) ≤ BATCH_SIZE)%Z) batches
    ∧ (∀ k b, batches !! k = Some b → (S k < length batches)%nat →
         Z.of_nat (length b) = BATCH_SIZE)
    ∧ (Z.of_nat (length batches)
       = (Z.of_nat (length uncached) + BATCH_SIZE - 1) / BATCH_SIZE)%Z
    ∧ (parsedBatchSize = None ∨ parsedBatchSize = Some 0%Z → BATCH_SIZE = 5%Z).
Proof.
  intros HB%BATCH_SIZE_default Hf. eexists. split.
  { change 0%Z with (Z.of_nat 0). apply batchesFrom_chunks; [done|lia]. }
  rewrite drop_0.
  destruct (chunks_spec (Z.to_nat BATCH_SIZE) fuel uncached) as (Hc & Hall & Hfull & Hlen);
    [lia|done|].
  split; [done|]. split; [|split; [|split]].
  - eapply Forall_impl; [exact Hall|]. simpl. intros b Hb. lia.
  - intros k b Hk Hlast. rewrite (Hfull k b Hk Hlast). lia.
  - rewrite Hlen. rewrite Nat2Z.inj_div, Nat2Z.inj_sub, Nat2Z.inj_add by lia.
    f_equal; lia.
  - unfold Worker.BATCH_SIZE. by intros [-> | ->].
Qed.

(** X29. With a negative [BATCH_SIZE] (the fallback to 5 only replaces zero
    and NaN) the batch loop of [runWorker] never ends on a non-empty list:
    the index only decreases, so no number of iterations completes the
    loop. *)
Theorem negative_batch_size_never_ends (uncached : list string) (n : Z) (fuel : nat) :
  parsedBatchSize = Some n → (n < 0)%Z → uncached ≠ [] →
  batchesFrom fuel uncached 0 = None.
Proof.
  intros Hp Hn Hne.
  assert (BATCH_SIZE < 0)%Z as HB.
  { unfold Worker.BATCH_SIZE. rewrite Hp. case_decide; lia. }
  assert (∀ i, (i ≤ 0)%Z → batchesFrom fuel uncached i = None) as Hgen.
  { induction fuel as [|fuel' IH]; intros i Hi; [done|]. cbn [Worker.batchesFrom].
    rewrite decide_True by (destruct uncached; [done|simpl; lia]).
    by rewrite IH by lia. }
  by apply Hgen.
Qed.

Lemma isCached_cases uuid now fs :
  (isCached uuid now fs = (true, fs) ∧ is_Some (fs !! fileOf uuid))
  ∨ (isCached uuid now fs = (false, delete (fileOf uuid) fs)).
Proof.
  unfold Worker.isCached. cbv zeta.
  change (cacheFile ((uuid +:+ "_" +:+ BG_COLOR) +:+ ".png")) with (fileOf uuid).
  destruct (fs !! fileOf uuid) as [m|] eqn:E.
  - case_decide; [by right|left]. split; [done|by eexists].
  - right. by rewrite delete_id.
Qed.

Lemma filterUncached_spec allUuids clock : ∀ k fs,
  let '(out, fs') := filterUncached allUuids clock k fs in
  out `sublist_of` allUuids ∧ fs' ⊆ fs ∧ ∀ u, u ∈ out → fs' !! fileOf u = None.
Proof.
  induction allUuids as [|u rest IH]; intros k fs; simpl.
  - split; [done|]. split; [done|]. by intros u ?%elem_of_nil.
  - destruct (isCached_cases u (clock k) fs) as [[-> Hsome]| ->].
    + specialize (IH (S k) fs). destruct (filterUncached rest clock (S k) fs) as [out fs'].
      destruct IH as (Hsub & Hfs & Hnone). split; [by apply sublist_cons|done].
    + specialize (IH (S k) (delete (fileOf u) fs)).
      destruct (filterUncached rest clock (S k) _) as [out fs'].
      destruct IH as (Hsub & Hfs & Hnone). split; [by apply sublist_skip|].
      split; [etrans; [done|apply delete_subseteq]|].
      intros x [->|Hx]%elem_of_cons; [|by apply Hnone].
      assert (delete (fileOf u) fs !! fileOf u = None) as Hd by apply lookup_delete_eq.
      destruct (fs' !! fileOf u) as [m|] eqn:E; [|done].
      by rewrite (lookup_weaken _ _ _ _ E Hfs) in Hd.
Qed.

(** X30. The list [getUncachedUuids] returns names no player twice, however
    many servers list the player; it only ever removes files from the
    cache directory, and no player it returns has a cache file left.  When
    Redis is not connected, or the first [scan] is rejected, the list is
    empty and the directory is not touched. *)
Theorem uncached_list_has_no_duplicates (fuel : nat) (redisConnected : bool)
    (clock : nat → Qc) (fs : Worker.Files) (out : list string) (fs' : Worker.Files) :
  Worker.getUncachedUuids cacheFile BG_COLOR scan smembers fuel redisConnected clock fs
  = Some (out, fs') →
  NoDup out ∧ fs' ⊆ fs ∧ (∀ u, u ∈ out → fs' !! fileOf u = None)
  ∧ (redisConnected = false → out = [] ∧ fs' = fs)
  ∧ (scan "0" = Worker.Rejected → out = [] ∧ fs' = fs).
Proof.
  unfold Worker.getUncachedUuids. intros Hget.
  destruct (Worker.getActivePlayerUuids scan smembers fuel redisConnected)
    as [allUuids|] eqn:Hall; [|done]. simpl in Hget. injection Hget as Hf.
  pose proof (filterUncached_spec allUuids clock 0 fs) as Hspec. rewrite Hf in Hspec.
  destruct Hspec as (Hsub & Hfs & Hnone).
  assert (NoDup allUuids) as Hnd.
  { revert Hall. unfold Worker.getActivePlayerUuids.
    destruct (negb redisConnected); [intros [= <-]; constructor|].
    destruct (Worker.scanLoop _ _ _ _) as [[keys|]|]; [| |done].
    - destruct (Worker.collect _ _ _) as [uuids|]; intros [= <-]; [|constructor].
      apply dedupe_spec.
    - intros [= <-]. constructor. }
  split; [by eapply sublist_NoDup|]. split; [done|]. split; [done|]. split.
  - intros ->. unfold Worker.getActivePlayerUuids in Hall. simpl in Hall.
    injection Hall as <-. simpl in Hf. by injection Hf as <- <-.
  - intros Hrej. unfold Worker.getActivePlayerUuids in Hall.
    destruct (negb redisConnected).
    + injection Hall as <-. simpl in Hf. by injection Hf as <- <-.
    + destruct fuel as [|fuel']; [done|]. simpl in Hall. rewrite Hrej in Hall.
      injection Hall as <-. simpl in Hf. by injection Hf as <- <-.
Qed.

End WorkerFacts.

(** ** Instances *)

(** X4 at an instance: the loop time of -2.5 in a period of 10. *)
Lemma loop_time_within_the_period_witness :
  0 ≤ loopTime (- QcOf 5 2) (Qc_of_Z 10) ∧ loopTime (- QcOf 5 2) (Qc_of_Z 10) < Qc_of_Z 10.
Proof.
  apply (loop_time_within_the_period (- QcOf 5 2) (Qc_of_Z 10)). by vm_compute.
Defined.

(** X1 at an instance: a track of two keyframes, given out of order, sampled
    between them. *)
Lemma bracket_fraction_in_unit_interval_witness :
  ∃ b, _findKeyframes [exKey 5 0 "smooth"; exKey 0 1 "linear"] (QcOf 5 2) (Qc_of_Z 10) = Some b
       ∧ 0 ≤ ease b ∧ ease b ≤ 1.
Proof.
  eexists. split; [reflexivity|].
  eapply (bracket_fraction_in_unit_interval [exKey 5 0 "smooth"; exKey 0 1 "linear"]
            (QcOf 5 2) (Qc_of_Z 10)).
  reflexivity.
Defined.

(** X2 at an instance: the same track at time 2.5, between its keyframes at 0
    and 5. *)
Lemma bracket_selects_neighbours_witness :
  ∃ b, _findKeyframes [exKey 5 0 "smooth"; exKey 0 1 "linear"] (QcOf 5 2) (Qc_of_Z 10) = Some b
       ∧ t b = (QcOf 5 2 - time (k1 b)) / (time (k2 b) - time (k1 b)).
Proof.
  eexists. split; [reflexivity|].
  eapply (bracket_selects_neighbours [exKey 5 0 "smooth"; exKey 0 1 "linear"]
            (QcOf 5 2) (Qc_of_Z 10)).
  - reflexivity.
  - exists (exKey 0 1 "linear"). split; [repeat constructor|by vm_compute].
  - exists (exKey 5 0 "smooth"). split; [repeat constructor|by vm_compute].
Defined.

(** X3 at an instance: the track sampled at the time of its second keyframe. *)
Lemma sampling_at_a_keyframe_time_witness :
  let H := offlineHost in
  let track := [exKey 0 1 "linear"; exKey 5 0 "smooth"] in
  ∃ k k', k ∈ track ∧ time k = Qc_of_Z 5 ∧ k' ∈ track
    ∧ _interpolatePosition track (Qc_of_Z 5) (Qc_of_Z 10)
      = Some (multiplyScalar (deltaVec k) SCALE)
    ∧ _interpolateQuaternion track (Qc_of_Z 5) (Qc_of_Z 10)
      = Some (slerpQuaternions (deltaQuat k) (deltaQuat k') 0).
Proof.
  intros H track.
  apply (sampling_at_a_keyframe_time track (Qc_of_Z 5) (Qc_of_Z 10)).
  exists (exKey 5 0 "smooth"). split; [repeat constructor|reflexivity].
Defined.

(** X7 at an instance: one frame of the example animation on the example
    character. *)
Lemma rest_pose_cache_only_grows_witness :
  let H := offlineHost in
  originalTransforms exViewer
  ⊆ originalTransforms (_applyAnimation (Some exAnimation) (QcOf 15 2) exViewer).
Proof.
  intros H.
  apply (rest_pose_cache_only_grows exAnimation (QcOf 15 2) exViewer exCharacter).
  reflexivity.
Defined.

(** X8 at an instance: two frames of the example animation, then
    [setAnimation] with the empty path. *)
Lemma clearing_the_animation_restores_the_rest_pose_witness :
  let H := offlineHost in
  character (setAnimation ""
               (foldl (λ v '(a, time0), _applyAnimation (Some a) time0 v) exViewer
                      [(exAnimation, QcOf 15 2); (exAnimation, Qc_of_Z 3)]))
  = Some exCharacter.
Proof.
  intros H.
  apply (clearing_the_animation_restores_the_rest_pose
           [(exAnimation, QcOf 15 2); (exAnimation, Qc_of_Z 3)] exViewer exCharacter).
  - reflexivity.
  - intros n tr p Hn. simpl in Hn. by rewrite lookup_empty in Hn.
Defined.

(** X10 at an instance: the path grey.png. *)
Lemma texture_urls_ignore_the_Common_prefix_witness :
  uniquePaths "grey.png" = ["/asset/Common/grey.png"; "/asset/grey.png"]
  ∧ uniquePaths "Common/grey.png" = uniquePaths "grey.png".
Proof.
  apply (texture_urls_ignore_the_Common_prefix "grey.png"). by vm_compute.
Defined.

(** X13 at an instance: the image served at the first candidate URL of
    grey.png. *)
Lemma loaded_texture_is_memoised_witness :
  let H := exImageHost in
  let v1 := snd (_loadTexture "grey.png" newViewer) in
  _loadTexture "grey.png" v1 = (Some (mkTexture (Some exGreyImage) None), v1).
Proof.
  intros H v1.
  apply (loaded_texture_is_memoised "grey.png" newViewer (mkTexture (Some exGreyImage) None)).
  by vm_compute.
Defined.

(** X11 at an instance: the one-pixel grey image tinted red. *)
Lemma tinting_keeps_size_and_alpha_witness :
  let H := exImageHost in
  ∃ src img out,
    fst (_loadTexture "grey.png" newViewer) = Some src ∧ image src = Some img
    ∧ image (_createCanvasTexture (mkImage 1 1 [200; 0; 0; 255]%Z)) = Some out
    ∧ width out = width img ∧ height out = height img
    ∧ userData (_createCanvasTexture (mkImage 1 1 [200; 0; 0; 255]%Z))
      = Some (width img, height img)
    ∧ length (data out) = length (data img)
    ∧ (∀ i : nat, (i mod 4 = 3)%nat → data out !! i = data img !! i)
    ∧ (bytes (data img) → bytes (data out)).
Proof.
  intros H.
  apply (tinting_keeps_size_and_alpha "grey.png" (CNum 0xff0000) "" newViewer).
  by vm_compute.
Defined.

(** X12 at an instance: the grey image tinted through a gradient, with red and
    with blue as base colour. *)
Lemma gradient_overrides_the_base_colour_witness :
  let H := exImageHost in
  _createTintedTexture "grey.png" (CNum 0xff0000) "grey.png" newViewer
  = _createTintedTexture "grey.png" (CNum 0x0000ff) "grey.png" newViewer.
Proof.
  intros H.
  apply (gradient_overrides_the_base_colour "grey.png" (CNum 0xff0000) (CNum 0x0000ff)
           "grey.png" newViewer).
  exists exGreyImage. reflexivity.
Defined.

(** The example host reads two hexadecimal digits as their value *)
Lemma parseHex_two_digits (a b : Z) :
  (0 ≤ a < 16)%Z → (0 ≤ b < 16)%Z →
  parseHex (hexDigit a +:+ hexDigit b) None = Some (16 * a + b)%Z.
Proof.
  intros Ha Hb.
  assert (Forall (λ a, Forall (λ b,
            parseHex (hexDigit a +:+ hexDigit b) None = Some (16 * a + b)%Z) (seqZ 0 16))
            (seqZ 0 16)) as Hall.
  { apply (bool_decide_unpack _). by vm_compute. }
  rewrite Forall_forall in Hall. specialize (Hall a).
  rewrite Forall_forall in Hall. apply Hall; apply elem_of_seqZ; lia.
Qed.

(** X16 at an instance: the colour 0x2c3e50 on the example host. *)
Lemma hex_colour_round_trip_witness :
  let H := offlineHost in
  _parseColor (CStr ("#" +:+ toHex6 0x2c3e50)) = _parseColor (CNum 0x2c3e50).
Proof.
  intros H. apply (hex_colour_round_trip 0x2c3e50).
  - intros a b Ha Hb. by apply parseHex_two_digits.
  - lia.
Defined.

(** X24 at an instance: the nested example model in the pants slot. *)
Lemma cosmetic_render_throws_only_for_eye_shadows_witness :
  let H := offlineHost in
  ∃ ch', _renderCosmeticModel false exNestedModel [] 0x2c3e50 "pants" None (QcOf 1 1000)
           None exSkeleton = Done ch'.
Proof.
  intros H.
  apply (cosmetic_render_throws_only_for_eye_shadows false exNestedModel [] 0x2c3e50
           "pants" None None (QcOf 1 1000) exSkeleton).
  left. by vm_compute.
Defined.

(** X22 at an instance: the nested example model rendered under the bone
    Pelvis. *)
Lemma player_model_renders_as_subtrees_witness :
  let H := offlineHost in
  _renderPlayerModel newViewer (Some exNestedModel) [0%nat] 0xf4c39a None exSkeleton
  = updateAt (λ o, foldl (λ g sub, addChild sub g) o
                     (playerSubtree newViewer 0xf4c39a None <$> exNestedModel))
             [0%nat] exSkeleton.
Proof.
  intros H.
  apply (player_model_renders_as_subtrees newViewer (Some exNestedModel) [0%nat] 0xf4c39a
           None exSkeleton).
  eexists. reflexivity.
Defined.

(** X28 at an instance: five heads in batches of two. *)
Lemma batches_partition_the_uncached_list_witness :
  ∃ batches,
    Worker.batchesFrom (Some 2%Z) 6 ["a"; "b"; "c"; "d"; "e"] 0 = Some batches
    ∧ concat batches = ["a"; "b"; "c"; "d"; "e"]
    ∧ Z.of_nat (length batches) = ((5 + 2 - 1) / 2)%Z.
Proof.
  destruct (batches_partition_the_uncached_list (Some 2%Z) ["a"; "b"; "c"; "d"; "e"] 6)
    as (batches & Hb & Hc & _ & _ & Hn & _).
  - intros n [= <-]. lia.
  - simpl. lia.
  - exists batches. by repeat split.
Defined.

(** X29 at an instance: [BATCH_SIZE=-3] and two heads. *)
Lemma negative_batch_size_never_ends_witness :
  Worker.batchesFrom (Some (-3)%Z) 1000 ["a"; "b"] 0 = None.
Proof.
  apply (negative_batch_size_never_ends (Some (-3)%Z) ["a"; "b"] (-3) 1000).
  - reflexivity.
  - lia.
  - done.
Defined.

(** X30 at an instance: two servers that both list the player u1, whose head
    is cached. *)
Lemma uncached_list_has_no_duplicates_witness :
  Worker.getUncachedUuids exCacheFile "black" exScan exSmembers 1 true
    (λ _, Qc_of_Z 4000000) exFiles = Some (["u2"], exFiles)
  ∧ NoDup ["u2"].
Proof.
  split; [reflexivity|].
  apply (uncached_list_has_no_duplicates exCacheFile "black" exScan exSmembers 1 true
           (λ _, Qc_of_Z 4000000) exFiles ["u2"] exFiles).
  reflexivity.
Defined.
